(** * geet: docstring-driven subcommands on top of argparse

    A shallow embedding of [src/geet.py] ([_add_subcommand], [subcommand],
    [main]) together with the fragment of the Python 3.11 standard library it
    runs on: [str] methods, [textwrap.dedent], one [re.sub] and [argparse].

    Python strings are modelled as [string], one [ascii] per code point
    (code points below 256).  Dictionaries are [gmap]s, objects that are
    mutated after being shared (the sub-parsers) live in a store and are
    referred to by their index. *)

From Stdlib Require Import String Ascii List Bool Arith ZArith Lia.
From stdpp Require Import gmap strings list option.

Local Open Scope nat_scope.

(** ** Python [str] *)

Module Py.

(** [str.isspace] on one code point below 256. *)
Definition isspace (c : ascii) : bool :=
  let n := nat_of_ascii c in
  ((9 <=? n) && (n <=? 13)) || ((28 <=? n) && (n <=? 32))
  || (n =? 133) || (n =? 160).

Fixpoint lstrip (s : string) : string :=
  match s with
  | String c s' => if isspace c then lstrip s' else s
  | EmptyString => EmptyString
  end.

Fixpoint rstrip (s : string) : string :=
  match s with
  | EmptyString => EmptyString
  | String c s' =>
      match rstrip s' with
      | EmptyString => if isspace c then EmptyString else String c EmptyString
      | r => String c r
      end
  end.

(** [s.strip()] *)
Definition strip (s : string) : string := lstrip (rstrip s).

(** [s.startswith(p)] *)
Fixpoint startswith (p s : string) : bool :=
  match p, s with
  | EmptyString, _ => true
  | String a p', String b s' => if Ascii.eqb a b then startswith p' s' else false
  | String _ _, EmptyString => false
  end.

(** [s[n:]] *)
Fixpoint slice_from (n : nat) (s : string) : string :=
  match n, s with
  | 0, _ => s
  | S n', String _ s' => slice_from n' s'
  | S _, EmptyString => EmptyString
  end.

(** [s[:n]] for a non-negative [n] *)
Fixpoint slice_to (n : nat) (s : string) : string :=
  match n, s with
  | S n', String c s' => String c (slice_to n' s')
  | _, _ => EmptyString
  end.

(** [s[:-n]] for a positive [n] *)
Definition slice_to_neg (n : nat) (s : string) : string :=
  slice_to (String.length s - n) s.

(** [s.endswith(suf)] *)
Definition endswith (suf s : string) : bool :=
  (String.length suf <=? String.length s)
  && String.eqb (slice_from (String.length s - String.length suf) s) suf.

(** [c in s] for a one-character [c] *)
Fixpoint contains (c : ascii) (s : string) : bool :=
  match s with
  | EmptyString => false
  | String d s' => Ascii.eqb c d || contains c s'
  end.

(** [s.split(sep)] for a non-empty [sep]: the occurrences of [sep] are
    found from the left and do not overlap.  [skip] counts the characters
    of an occurrence that are still to be passed over. *)
Fixpoint split_aux (sep : string) (skip : nat) (s : string) : list string :=
  match s with
  | EmptyString => [EmptyString]
  | String c s' =>
      match skip with
      | S k => split_aux sep k s'
      | 0 =>
          if startswith sep s
          then EmptyString :: split_aux sep (String.length sep - 1) s'
          else match split_aux sep 0 s' with
               | h :: t => String c h :: t
               | [] => [String c EmptyString]
               end
      end
  end.

Definition split (sep s : string) : list string := split_aux sep 0 s.

(** [sep.join(l)] *)
Definition join (sep : string) (l : list string) : string := String.concat sep l.

(** [s.lstrip(chars)] for a one-character [chars] *)
Fixpoint lstrip_char (c : ascii) (s : string) : string :=
  match s with
  | String d s' => if Ascii.eqb c d then lstrip_char c s' else s
  | EmptyString => EmptyString
  end.

(** [s.replace(a, b)] for one-character [a] and [b] *)
Fixpoint replace_char (a b : ascii) (s : string) : string :=
  match s with
  | EmptyString => EmptyString
  | String d s' => String (if Ascii.eqb a d then b else d) (replace_char a b s')
  end.

(** [l.index(True)] on a list of booleans: [None] stands for the
    [ValueError] that the callers catch. *)
Fixpoint index_true (l : list bool) : option nat :=
  match l with
  | [] => None
  | true :: _ => Some 0
  | false :: l' => S <$> index_true l'
  end.

End Py.

(** ** [textwrap.dedent] and the [re.sub] of the argument block *)

Module Textwrap.
Import Py.

Definition nl : string := String "010" EmptyString.

(** the character class [[ \t]] *)
Definition is_blank (c : ascii) : bool := Ascii.eqb c " " || Ascii.eqb c "009".

Fixpoint leading_blanks (s : string) : string :=
  match s with
  | String c s' => if is_blank c then String c (leading_blanks s') else EmptyString
  | EmptyString => EmptyString
  end.

Fixpoint after_blanks (s : string) : string :=
  match s with
  | String c s' => if is_blank c then after_blanks s' else s
  | EmptyString => EmptyString
  end.

(** [_whitespace_only_re.sub('', text)], line by line: a line made of
    blanks only becomes empty. *)
Definition normalize_line (l : string) : string :=
  match after_blanks l with EmptyString => EmptyString | _ => l end.

(** one result of [_leading_whitespace_re.findall]: the indentation of a
    line that has something after it *)
Definition indent_of (l : string) : option string :=
  match after_blanks l with
  | EmptyString => None
  | _ => Some (leading_blanks l)
  end.

Fixpoint common_prefix (a b : string) : string :=
  match a, b with
  | String x a', String y b' =>
      if Ascii.eqb x y then String x (common_prefix a' b') else EmptyString
  | _, _ => EmptyString
  end.

(** one turn of the loop [for indent in indents] *)
Definition margin_step (margin : option string) (indent : string) : option string :=
  match margin with
  | None => Some indent
  | Some m =>
      if startswith m indent then Some m
      else if startswith indent m then Some indent
      else Some (common_prefix m indent)
  end.

Definition remove_margin (m l : string) : string :=
  if startswith m l then slice_from (String.length m) l else l.

Definition dedent (text : string) : string :=
  let lines := map normalize_line (split nl text) in
  let indents := omap indent_of lines in
  let margin := fold_left margin_step indents None in
  match margin with
  | Some (String c m) => join nl (map (remove_margin (String c m)) lines)
  | _ => join nl lines
  end.

(** [re.sub(r"\s*\n\s{4,}", " ", s)].  A match starts at the first
    character of a maximal run of whitespace, and it exists there exactly
    when the run has a newline with four or more whitespace characters
    after it; the greedy quantifiers then take the run as a whole.  So
    every such run is replaced by one space and everything else is kept. *)
Fixpoint whitespace_run (s : string) : string :=
  match s with
  | String c s' => if isspace c then String c (whitespace_run s') else EmptyString
  | EmptyString => EmptyString
  end.

Fixpoint run_wraps (run : string) : bool :=
  match run with
  | EmptyString => false
  | String c r => (Ascii.eqb c "010" && (4 <=? String.length r)) || run_wraps r
  end.

Inductive scan := Outside | Keeping | Dropping.

Fixpoint rewrap_from (st : scan) (s : string) : string :=
  match s with
  | EmptyString => EmptyString
  | String c s' =>
      if isspace c then
        match st with
        | Outside =>
            if run_wraps (whitespace_run s)
            then String " " (rewrap_from Dropping s')
            else String c (rewrap_from Keeping s')
        | Keeping => String c (rewrap_from Keeping s')
        | Dropping => rewrap_from Dropping s'
        end
      else String c (rewrap_from Outside s')
  end.

Definition rewrap (s : string) : string := rewrap_from Outside s.

End Textwrap.

(** ** The docstring grammar of [_add_subcommand] *)

Module Docstring.
Import Py Textwrap.

(** [paragraphs = [textwrap.dedent(s) for s in docstr.strip().split("\n\n")]] *)
Definition paragraphs_of (docstr : string) : list string :=
  map dedent (split (nl +:+ nl) (strip docstr)).

(** the list comprehension, [.index(True)] and [del paragraphs[index]] of
    one [try] block: the index of the first paragraph with the header *)
Definition find_header (header : string) (paragraphs : list string) : option nat :=
  index_true (map (startswith header) paragraphs).

Definition args_header : string := "Args:" +:+ nl.

(** [args_list] and the paragraphs left after the first [try] block *)
Definition take_args (paragraphs : list string) : list string * list string :=
  match find_header args_header paragraphs with
  | Some index =>
      (map (slice_from 5) (List.filter (startswith args_header) paragraphs),
       delete index paragraphs)
  | None => ([], paragraphs)
  end.

(** [[x.strip() for x in text.split(",")]] *)
Definition split_aliases (text : string) : list string :=
  map strip (split "," text).

(** [paragraphs[index][9:]] split into aliases *)
Definition aliases_of_paragraph (paragraph : string) : list string :=
  split_aliases (slice_from 9 paragraph).

(** [aliases] and the paragraphs left after the second [try] block *)
Definition take_aliases (paragraphs : list string) : list string * list string :=
  match find_header "Aliases:" paragraphs with
  | Some index =>
      (aliases_of_paragraph (default EmptyString (paragraphs !! index)),
       delete index paragraphs)
  | None => ([], paragraphs)
  end.

(** What the first half of [_add_subcommand] reads in a docstring. *)
Record Declaration := {
  name : string;
  shorthelp : string;
  args_list : list string;
  aliases : list string;
  longhelp : string }.

(** [name, shorthelp = paragraphs[0].split(": ")]: the unpacking needs
    exactly two pieces; [None] stands for its [ValueError]. *)
Definition name_and_help (paragraph : string) : option (string * string) :=
  match split ": " paragraph with
  | [name; shorthelp] => Some (name, shorthelp)
  | _ => None
  end.

Definition parse_docstring (docstr : string) : option Declaration :=
  let paragraphs := paragraphs_of docstr in
  '(name, shorthelp) ← name_and_help (hd EmptyString paragraphs);
  let paragraphs := tail paragraphs in
  let '(args_list, paragraphs) := take_args paragraphs in
  let '(aliases, paragraphs) := take_aliases paragraphs in
  Some {| name := name; shorthelp := shorthelp; args_list := args_list;
          aliases := aliases; longhelp := join (nl +:+ nl) paragraphs |}.

(** the lines of the argument block:
    [args = re.sub(...); args_list = [x.strip() for x in args.split("\n")]]
    and the filter [if x] of the loop *)
Definition arg_lines (block : string) : list string :=
  List.filter (fun x => negb (String.eqb x EmptyString))
              (map strip (split nl (rewrap block))).

(** the lines that the loop of [_add_subcommand] goes through: those of
    the first [Args:] paragraph *)
Definition declared_arg_lines (d : Declaration) : list string :=
  match args_list d with
  | args :: _ => arg_lines args
  | [] => []
  end.

End Docstring.

Definition testing_doc : string :=
  "testing: testing the cli api" +:+ Textwrap.nl +:+ Textwrap.nl +:+
  "    Aliases: t, test" +:+ Textwrap.nl +:+ Textwrap.nl +:+
  "    Args:" +:+ Textwrap.nl +:+
  "       branch: branch to integrate" +:+ Textwrap.nl +:+
  "       files...: One or more files." +:+ Textwrap.nl +:+
  "       -k|--kill: kill" +:+ Textwrap.nl +:+
  "    ".

Definition foobar_doc : string :=
  "foobar: foo the bars" +:+ Textwrap.nl +:+ Textwrap.nl +:+
  "    foo foo bar bar" +:+ Textwrap.nl +:+
  "    ".

(** ** Values, exceptions and results *)

(** The Python values that reach a [Namespace]: [None], booleans, integers,
    strings, lists and the handler functions (known by a number). *)
#[warnings="-register-all"]
Inductive value :=
| VNone
| VBool (b : bool)
| VInt (z : Z)
| VStr (s : string)
| VList (l : list value)
| VFunc (f : nat).

(** What an [argparse.ArgumentError] says. *)
Inductive argument_error :=
| ConflictingSubparser (name : string)
| ConflictingSubparserAlias (alias : string)
| ConflictingOptionStrings (option_strings : list string)
| InvalidChoice (v : string)
| UnknownParser (name : string)
| InvalidValue (type_name v : string)
| NotCallable (type_name : string)
| ExpectedOneArgument
| ExpectedAtLeastOneArgument
| ExpectedArguments (n : nat)
| IgnoredExplicitArgument (v : string).

(** What is written before the process exits. *)
Inductive message :=
| HelpText (prog : string)
| UsageError (prog : string) (e : argument_error)
| AmbiguousOption (prog : string) (option : string)
| RequiredArguments (prog : string) (names : list string)
| UnrecognizedArguments (prog : string) (extras : list string).

Inductive exn :=
| ValueError (msg : string)
| TypeError (msg : string)
| AttributeError (msg : string)
| IndexError (msg : string)
| KeyError (msg : string)
| NameError (msg : string)
| ArgumentError (e : argument_error)
| SystemExit (code : nat) (printed : message)
| OutOfFuel.

Inductive result (A : Type) :=
| Ok (a : A)
| Raise (e : exn).
Arguments Ok {A} a.
Arguments Raise {A} e.

Definition bind {A B} (r : result A) (k : A -> result B) : result B :=
  match r with
  | Ok a => k a
  | Raise e => Raise e
  end.

Declare Scope result_scope.
Delimit Scope result_scope with result.
Notation "x <- e ;; k" := (bind e (fun x => k))
  (at level 100, e at next level, right associativity) : result_scope.

(** A loop with an early exit on the first exception. *)
Fixpoint foldM {A S} (f : S -> A -> result S) (s : S) (l : list A) : result S :=
  match l with
  | [] => Ok s
  | a :: l' => bind (f s a) (fun s' => foldM f s' l')
  end.

Fixpoint mapM {A B} (f : A -> result B) (l : list A) : result (list B) :=
  match l with
  | [] => Ok []
  | a :: l' => bind (f a) (fun b => bind (mapM f l') (fun bs => Ok (b :: bs)))
  end.

(** ** Python [int(str)] *)

Module PyInt.
Local Open Scope Z_scope.

Definition digit (c : ascii) : option Z :=
  let n := nat_of_ascii c in
  if ((48 <=? n) && (n <=? 57))%nat then Some (Z.of_nat n - 48) else None.

(** digits with single underscores between them *)
Fixpoint digits (acc : Z) (after_underscore : bool) (s : string) : option Z :=
  match s with
  | EmptyString => if after_underscore then None else Some acc
  | String c s' =>
      match digit c with
      | Some d => digits (acc * 10 + d) false s'
      | None =>
          if Ascii.eqb c "_" && negb after_underscore
          then digits acc true s'
          else None
      end
  end.

Definition unsigned (s : string) : option Z :=
  match s with
  | String c s' => match digit c with Some d => digits d false s' | None => None end
  | EmptyString => None
  end.

(** [int(s)] in base ten; [None] stands for the [ValueError]. *)
Definition int (s : string) : option Z :=
  match Py.strip s with
  | String "-" s' => Z.opp <$> unsigned s'
  | String "+" s' => unsigned s'
  | s' => unsigned s'
  end.
End PyInt.

(** ** [argparse] (Python 3.11): parsers and actions *)

Module Argparse.
Import Py.
Local Open Scope result_scope.

Inductive nargs_t := NargsNone | ONE_OR_MORE | NargsInt (n : nat) | PARSER.

Inductive action_class :=
| StoreAction | AppendAction | StoreTrueAction | HelpAction | SubParsersAction.

(** The [type=] of an action: [None] (the registry maps it to the
    identity), the builtins [str] and [int], or an object that is not
    callable, such as the string ['str']. *)
Inductive type_func := TypeNone | TypeStr | TypeInt | TypeObject (repr : string).

Record Action := {
  option_strings : list string;
  dest : option string;            (* [None] is [SUPPRESS] *)
  cls : action_class;
  nargs : nargs_t;
  const : value;
  default_ : option value;         (* [None] is [SUPPRESS] *)
  type_ : type_func;
  choices : option (gset string);
  required : bool;
  help : option string }.

(** [_actions] holds the action objects; [_option_string_actions] refers
    to them by their position in [_actions]. *)
Record ArgumentParser := {
  prog : string;
  description : option string;
  _actions : list Action;
  _option_string_actions : gmap string nat;
  _defaults : gmap string value;
  _has_negative_number_optionals : bool }.

(** The keyword arguments of [add_argument] that geet passes. *)
Record kwargs := {
  kw_action : string;
  kw_nargs : option nargs_t;
  kw_type : option type_func;
  kw_default : option value;
  kw_help : option string }.

Definition prefix_chars : ascii := "-".

(** [s[i] in self.prefix_chars] *)
Definition is_prefix_char (c : ascii) : bool := Ascii.eqb c prefix_chars.

Definition help_action : Action :=
  {| option_strings := ["-h"; "--help"]; dest := Some "help"; cls := HelpAction;
     nargs := NargsInt 0; const := VNone; default_ := None; type_ := TypeNone;
     choices := None; required := false;
     help := Some "show this help message and exit" |}.

(** [ArgumentParser(prog=..., description=...)] with [add_help=True] *)
Definition new_parser (prog : string) (description : option string) : ArgumentParser :=
  {| prog := prog; description := description;
     _actions := [help_action];
     _option_string_actions := <["--help" := 0]> (<["-h" := 0]> ∅);
     _defaults := ∅;
     _has_negative_number_optionals := false |}.

(** [parser.set_defaults] with the keyword arguments [kw] *)
Definition set_defaults (kw : list (string * value)) (p : ArgumentParser) : ArgumentParser :=
  let in_kw (a : Action) : option value :=
    match dest a with
    | Some d => snd <$> List.find (fun '(k, _) => String.eqb k d) (rev kw)
    | None => None
    end in
  {| prog := prog p; description := description p;
     _actions := map (fun a => match in_kw a with
                               | Some v =>
                                   {| option_strings := option_strings a; dest := dest a;
                                      cls := cls a; nargs := nargs a; const := const a;
                                      default_ := Some v; type_ := type_ a;
                                      choices := choices a; required := required a;
                                      help := help a |}
                               | None => a
                               end) (_actions p);
     _option_string_actions := _option_string_actions p;
     _defaults := fold_left (fun m '(k, v) => <[k := v]> m) kw (_defaults p);
     _has_negative_number_optionals := _has_negative_number_optionals p |}.

(** *** [add_argument] *)

(** [_negative_number_matcher]: ['^-\d+$|^-\d*\.\d+$'], where [$] also
    matches before a newline that ends the string. *)
Definition is_digit (c : ascii) : bool :=
  let n := nat_of_ascii c in (48 <=? n) && (n <=? 57).

Fixpoint all_digits (s : string) : bool :=
  match s with
  | EmptyString => true
  | String c s' => is_digit c && all_digits s'
  end.

Fixpoint digits_dot_digits (s : string) : bool :=
  match s with
  | EmptyString => false
  | String c s' =>
      if Ascii.eqb c "."
      then negb (String.eqb s' EmptyString) && all_digits s'
      else is_digit c && digits_dot_digits s'
  end.

Definition number_body (s : string) : bool :=
  (negb (String.eqb s EmptyString) && all_digits s) || digits_dot_digits s.

Definition _negative_number_matcher (s : string) : bool :=
  match s with
  | String "-" r =>
      number_body r
      || (endswith Textwrap.nl r && number_body (slice_to_neg 1 r))
  | _ => false
  end.

(** [self._registry_get('action', name, name)] for the registered names
    that create the classes above. *)
Definition _pop_action_class (kw : kwargs) : option action_class :=
  if String.eqb (kw_action kw) "store" then Some StoreAction
  else if String.eqb (kw_action kw) "append" then Some AppendAction
  else if String.eqb (kw_action kw) "store_true" then Some StoreTrueAction
  else if String.eqb (kw_action kw) "help" then Some HelpAction
  else None.

(** [_get_positional_kwargs]: the [dest] with [required=True] (the
    [nargs] that geet passes are never ['?'] or ['*']) and no option
    strings. *)
Definition _get_positional_kwargs (dest : string) : list string * string * bool :=
  ([], dest, true).

(** [_get_optional_kwargs]: the option strings and the inferred [dest]. *)
Fixpoint check_option_strings (args : list string) : result (list string) :=
  match args with
  | [] => Ok []
  | option_string :: args' =>
      match option_string with
      | EmptyString => Raise (IndexError "string index out of range")
      | String c _ =>
          if is_prefix_char c
          then rest <- check_option_strings args' ;; Ok (option_string :: rest)
          else Raise (ValueError ("invalid option string " +:+ option_string))
      end
  end.

Definition is_long_option (option_string : string) : bool :=
  match option_string with
  | String _ (String c _) => is_prefix_char c
  | _ => false
  end.

Definition _get_optional_kwargs (args : list string) : result (list string * string * bool) :=
  option_strings <- check_option_strings args ;;
  let dest_option_string :=
    match List.filter is_long_option option_strings with
    | s :: _ => s
    | [] => hd EmptyString option_strings
    end in
  match lstrip_char prefix_chars dest_option_string with
  | EmptyString => Raise (ValueError "dest= is required for options")
  | dest => Ok (option_strings, replace_char "-" "_" dest, false)
  end.

(** the constructor of the action class *)
Definition make_action (c : action_class) (option_strings : list string) (dest : string)
    (required : bool) (given : option value) (kw : kwargs) : result Action :=
  match c with
  | StoreAction | AppendAction =>
      match kw_nargs kw with
      | Some (NargsInt 0) => Raise (ValueError "nargs for store actions must be != 0")
      | n =>
          Ok {| option_strings := option_strings; dest := Some dest; cls := c;
                nargs := default NargsNone n; const := VNone;
                default_ := Some (default VNone given);
                type_ := default TypeNone (kw_type kw);
                choices := None; required := required; help := kw_help kw |}
      end
  | StoreTrueAction =>
      match kw_nargs kw, kw_type kw with
      | None, None =>
          Ok {| option_strings := option_strings; dest := Some dest; cls := c;
                nargs := NargsInt 0; const := VBool true;
                default_ := Some (default (VBool false) given);
                type_ := TypeNone;
                choices := None; required := required; help := kw_help kw |}
      | _, _ => Raise (TypeError "__init__() got an unexpected keyword argument")
      end
  | HelpAction | SubParsersAction =>
      Raise (TypeError "__init__() got an unexpected keyword argument")
  end.

(** [callable(type_func)] after the lookup in the type registry *)
Definition type_callable (t : type_func) : result unit :=
  match t with
  | TypeObject repr => Raise (ValueError (repr +:+ " is not callable"))
  | _ => Ok tt
  end.

(** [_check_conflict] with the conflict handler ['error'] *)
Definition _check_conflict (p : ArgumentParser) (a : Action) : result unit :=
  match List.filter (fun s => bool_decide (is_Some (_option_string_actions p !! s)))
                    (option_strings a) with
  | [] => Ok tt
  | confl => Raise (ArgumentError (ConflictingOptionStrings confl))
  end.

Definition _add_action (p : ArgumentParser) (a : Action) : result ArgumentParser :=
  _ <- _check_conflict p a ;;
  let index := length (_actions p) in
  Ok {| prog := prog p; description := description p;
        _actions := _actions p ++ [a];
        _option_string_actions :=
          fold_left (fun m s => <[s := index]> m) (option_strings a)
                    (_option_string_actions p);
        _defaults := _defaults p;
        _has_negative_number_optionals :=
          _has_negative_number_optionals p
          || existsb _negative_number_matcher (option_strings a) |}.

(** the first half of [add_argument]: the action object that is created
    for the names [args] and the keyword arguments [kw], in a parser with
    the defaults [defaults], and the check of its [type] *)
Definition new_action (args : list string) (kw : kwargs) (defaults : gmap string value)
    : result Action :=
  names <-
    match args with
    | [] => Raise (TypeError "missing dest")
    | [EmptyString] => Raise (IndexError "string index out of range")
    | [String c s] =>
        if is_prefix_char c then _get_optional_kwargs args
        else Ok (_get_positional_kwargs (String c s))
    | _ => _get_optional_kwargs args
    end ;;
  let '(option_strings, dest, required) := names in
  let given :=
    match kw_default kw with
    | Some v => Some v
    | None => defaults !! dest
    end in
  match _pop_action_class kw with
  | None => Raise (ValueError ("unknown action " +:+ kw_action kw))
  | Some c =>
      action <- make_action c option_strings dest required given kw ;;
      _ <- type_callable (type_ action) ;;
      Ok action
  end.

(** [parser.add_argument] with the names [args] and the keyword arguments [kw] *)
Definition add_argument (args : list string) (kw : kwargs) (p : ArgumentParser)
    : result ArgumentParser :=
  action <- new_action args kw (_defaults p) ;;
  _add_action p action.

(** *** Matching argument strings against [nargs]

    [arg_strings_pattern] has one symbol per argument string: [A] for an
    argument, [O] for an option and [-] for ['--'].  The patterns that
    [_get_nargs_pattern] builds are sequences of single symbols and greedy
    stars over symbol classes, one group per action; [re_match] is the
    backtracking [re.match] on them and returns the length of each
    group. *)

Inductive sym := SymA | SymO | SymDash.

Definition sym_eqb (x y : sym) : bool :=
  match x, y with
  | SymA, SymA | SymO, SymO | SymDash, SymDash => true
  | _, _ => false
  end.

Inductive item := One (cs : list sym) | Star (cs : list sym) | GroupEnd.

Definition in_class (cs : list sym) (c : sym) : bool := existsb (sym_eqb c) cs.

Fixpoint span (cs : list sym) (s : list sym) : nat :=
  match s with
  | c :: s' => if in_class cs c then S (span cs s') else 0
  | [] => 0
  end.

Fixpoint re_match (items : list item) (s : list sym) (cur : nat) : option (list nat) :=
  match items with
  | [] => Some []
  | GroupEnd :: items' => cons cur <$> re_match items' s 0
  | One cs :: items' =>
      match s with
      | c :: s' => if in_class cs c then re_match items' s' (S cur) else None
      | [] => None
      end
  | Star cs :: items' =>
      (fix try (k : nat) : option (list nat) :=
         match re_match items' (drop k s) (cur + k) with
         | Some r => Some r
         | None => match k with 0 => None | S k' => try k' end
         end) (span cs s)
  end.

Fixpoint n_arguments (n : nat) : list item :=
  match n with
  | 0 => []
  | 1 => [One [SymA]]
  | S n' => One [SymA] :: Star [SymDash] :: n_arguments n'
  end.

Definition without_dash (it : item) : option item :=
  match it with
  | Star [SymDash] => None
  | Star cs => Some (Star (List.filter (fun c => negb (sym_eqb c SymDash)) cs))
  | One cs => Some (One (List.filter (fun c => negb (sym_eqb c SymDash)) cs))
  | GroupEnd => Some GroupEnd
  end.

Definition _get_nargs_pattern (a : Action) : list item :=
  let nargs_pattern :=
    match nargs a with
    | NargsNone => [Star [SymDash]; One [SymA]; Star [SymDash]; GroupEnd]
    | ONE_OR_MORE => [Star [SymDash]; One [SymA]; Star [SymA; SymDash]; GroupEnd]
    | PARSER => [Star [SymDash]; One [SymA]; Star [SymDash; SymA; SymO]; GroupEnd]
    | NargsInt n => Star [SymDash] :: n_arguments n ++ [Star [SymDash]; GroupEnd]
    end in
  match option_strings a with
  | [] => nargs_pattern
  | _ => omap without_dash nargs_pattern
  end.

Definition _match_argument (a : Action) (arg_strings_pattern : list sym) : result nat :=
  match re_match (_get_nargs_pattern a) arg_strings_pattern 0 with
  | Some (n :: _) => Ok n
  | _ =>
      Raise (ArgumentError
               match nargs a with
               | NargsNone => ExpectedOneArgument
               | ONE_OR_MORE | PARSER => ExpectedAtLeastOneArgument
               | NargsInt n => ExpectedArguments n
               end)
  end.

(** the loop [for i in range(len(actions), 0, -1)] *)
Fixpoint match_partial_from (i : nat) (actions : list Action)
    (arg_strings_pattern : list sym) : list nat :=
  match i with
  | 0 => []
  | S i' =>
      match re_match (concat (map _get_nargs_pattern (take i actions)))
                     arg_strings_pattern 0 with
      | Some counts => counts
      | None => match_partial_from i' actions arg_strings_pattern
      end
  end.

Definition _match_arguments_partial (actions : list Action)
    (arg_strings_pattern : list sym) : list nat :=
  match_partial_from (length actions) actions arg_strings_pattern.

(** *** Options *)

(** [(action, option_string, explicit_arg)], the action by its position *)
Definition option_tuple : Type := option nat * string * option string.

(** [s.split('=', 1)] when ['=' in s] *)
Fixpoint partition_eq (s : string) : option (string * string) :=
  match s with
  | EmptyString => None
  | String c s' =>
      if Ascii.eqb c "=" then Some (EmptyString, s')
      else '(a, b) ← partition_eq s'; Some (String c a, b)
  end.

Definition _get_option_tuples (p : ArgumentParser) (option_string : string)
    : list option_tuple :=
  match option_string with
  | String _ (String c1 _) =>
      if is_prefix_char c1 then
        let '(option_prefix, explicit_arg) :=
          match partition_eq option_string with
          | Some (a, b) => (a, Some b)
          | None => (option_string, None)
          end in
        omap (fun '(s, action) =>
                if startswith option_prefix s
                then Some (Some action, s, explicit_arg) else None)
             (map_to_list (_option_string_actions p))
      else
        let short_option_prefix := slice_to 2 option_string in
        let short_explicit_arg := slice_from 2 option_string in
        omap (fun '(s, action) =>
                if String.eqb s short_option_prefix
                then Some (Some action, s, Some short_explicit_arg)
                else if startswith option_string s
                then Some (Some action, s, None) else None)
             (map_to_list (_option_string_actions p))
  | _ => []
  end.

(** [_parse_optional]: [Ok None] for an argument, a tuple for an option,
    and the exit of [self.error] for an ambiguous abbreviation *)
Definition _parse_optional (p : ArgumentParser) (arg_string : string)
    : result (option option_tuple) :=
  match arg_string with
  | EmptyString => Ok None
  | String c0 rest =>
      if negb (is_prefix_char c0) then Ok None
      else
        match _option_string_actions p !! arg_string with
        | Some action => Ok (Some (Some action, arg_string, None))
        | None =>
            if String.eqb rest EmptyString then Ok None
            else
              let exact :=
                '(option_string, explicit_arg) ← partition_eq arg_string;
                action ← _option_string_actions p !! option_string;
                Some (Some action, option_string, Some explicit_arg) in
              match exact with
              | Some t => Ok (Some t)
              | None =>
                  match _get_option_tuples p arg_string with
                  | _ :: _ :: _ =>
                      Raise (SystemExit 2 (AmbiguousOption (prog p) arg_string))
                  | [t] => Ok (Some t)
                  | [] =>
                      if _negative_number_matcher arg_string
                         && negb (_has_negative_number_optionals p)
                      then Ok None
                      else if contains " " arg_string then Ok None
                      else Ok (Some (None, arg_string, None))
                  end
              end
        end
  end.

(** one entry per argument string: its symbol and, for an option, its
    entry in [option_string_indices] *)
Definition classified : Type := sym * option option_tuple.

Fixpoint classify_args (p : ArgumentParser) (arg_strings : list string)
    : result (list classified) :=
  match arg_strings with
  | [] => Ok []
  | arg_string :: rest =>
      if String.eqb arg_string "--"
      then Ok ((SymDash, None) :: map (fun _ => (SymA, None)) rest)
      else
        t <- _parse_optional p arg_string ;;
        cs <- classify_args p rest ;;
        Ok (match t with
            | None => (SymA, None)
            | Some ot => (SymO, Some ot)
            end :: cs)
  end.

(** *** Values and actions *)

Abbreviation Namespace := (gmap string value).

Definition _UNRECOGNIZED_ARGS_ATTR : string := "_unrecognized_args".

Definition _get_value (a : Action) (arg_string : string) : result value :=
  match type_ a with
  | TypeNone | TypeStr => Ok (VStr arg_string)
  | TypeInt =>
      match PyInt.int arg_string with
      | Some z => Ok (VInt z)
      | None => Raise (ArgumentError (InvalidValue "int" arg_string))
      end
  | TypeObject repr => Raise (ArgumentError (NotCallable repr))
  end.

Definition _check_value (a : Action) (v : value) : result unit :=
  match choices a, v with
  | None, _ => Ok tt
  | Some cs, VStr s =>
      if decide (s ∈ cs) then Ok tt else Raise (ArgumentError (InvalidChoice s))
  | Some _, _ => Raise (ArgumentError (InvalidChoice EmptyString))
  end.

(** [arg_strings.remove('--')], which does nothing without a ['--'] *)
Fixpoint remove_dashdash (arg_strings : list string) : list string :=
  match arg_strings with
  | [] => []
  | s :: rest => if String.eqb s "--" then rest else s :: remove_dashdash rest
  end.

Definition _get_values (a : Action) (arg_strings : list string) : result value :=
  let arg_strings :=
    match nargs a with
    | PARSER => arg_strings
    | _ => remove_dashdash arg_strings
    end in
  match nargs a, arg_strings with
  | NargsNone, [arg_string] =>
      v <- _get_value a arg_string ;;
      _ <- _check_value a v ;;
      Ok v
  | PARSER, _ =>
      vs <- mapM (_get_value a) arg_strings ;;
      match vs with
      | v :: _ => _ <- _check_value a v ;; Ok (VList vs)
      | [] => Raise (IndexError "list index out of range")
      end
  | _, _ =>
      vs <- mapM (_get_value a) arg_strings ;;
      _ <- mapM (_check_value a) vs ;;
      Ok (VList vs)
  end.

Definition strings_of (vs : list value) : list string :=
  omap (fun v => match v with VStr s => Some s | _ => None end) vs.

Record pstate := {
  namespace : Namespace;
  seen_actions : list nat;
  positionals : list nat;
  extras : list string }.

Section Parsing.
(** [call_parser name arg_strings namespace] is what the action of
    [add_subparsers] does with the strings it is given; [p] is the
    parser at work. *)
Variable call_parser : string -> list string -> Namespace -> result Namespace.
Variable p : ArgumentParser.

Definition action_at (i : nat) : result Action :=
  match _actions p !! i with
  | Some a => Ok a
  | None => Raise (IndexError "list index out of range")
  end.

(** [action(self, namespace, argument_values, option_string)] *)
Definition call_action (a : Action) (ns : Namespace) (values : value)
    : result Namespace :=
  let d := default "==SUPPRESS==" (dest a) in
  match cls a with
  | StoreAction => Ok (<[d := values]> ns)
  | AppendAction =>
      match default VNone (ns !! d) with
      | VNone => Ok (<[d := VList [values]]> ns)
      | VList items => Ok (<[d := VList (items ++ [values])]> ns)
      | _ => Raise (AttributeError "object has no attribute 'append'")
      end
  | StoreTrueAction => Ok (<[d := const a]> ns)
  | HelpAction => Raise (SystemExit 0 (HelpText (prog p)))
  | SubParsersAction =>
      match values with
      | VList (VStr parser_name :: arg_values) =>
          call_parser parser_name (strings_of arg_values)
                      match dest a with
                      | Some d => <[d := VStr parser_name]> ns
                      | None => ns
                      end
      | _ => Raise (IndexError "list index out of range")
      end
  end.

Definition take_action (i : nat) (a : Action) (argument_strings : list string)
    (st : pstate) : result pstate :=
  argument_values <- _get_values a argument_strings ;;
  ns <- call_action a (namespace st) argument_values ;;
  Ok {| namespace := ns; seen_actions := i :: seen_actions st;
        positionals := positionals st; extras := extras st |}.

Definition take_actions (tuples : list (nat * list string)) (st : pstate)
    : result pstate :=
  foldM (fun st '(i, args) => a <- action_at i ;; take_action i a args st) st tuples.

Section ConsumeOptional.
Variable arg_strings : list string.
Variable arg_strings_pattern : list sym.
Variable start_index : nat.

(** the end of the [while True] loop, when no explicit argument is left *)
Definition following_args (i : nat) : result (list (nat * list string) * nat) :=
  a <- action_at i ;;
  let start := start_index + 1 in
  arg_count <- _match_argument a (drop start arg_strings_pattern) ;;
  Ok ([(i, take arg_count (drop start arg_strings))], start + arg_count).

(** the [while True] loop while there is an explicit argument: each
    turn either ends the loop or goes on with a shorter one *)
Fixpoint explicit_args (i : nat) (option_string explicit_arg : string)
    : result (list (nat * list string) * nat) :=
  a <- action_at i ;;
  arg_count <- _match_argument a [SymA] ;;
  let ignored := Raise (ArgumentError (IgnoredExplicitArgument explicit_arg)) in
  match arg_count, explicit_arg with
  | 0, String c rest =>
      match option_string with
      | String char (String c1 _) =>
          if is_prefix_char c1 then ignored
          else
            let option_string' := String char (String c EmptyString) in
            match _option_string_actions p !! option_string' with
            | Some i' =>
                r <- match rest with
                     | EmptyString => following_args i'
                     | _ => explicit_args i' option_string' rest
                     end ;;
                Ok ((i, []) :: r.1, r.2)
            | None => ignored
            end
      | _ => Raise (IndexError "string index out of range")
      end
  | 1, _ => Ok ([(i, [explicit_arg])], start_index + 1)
  | _, _ => ignored
  end.

Definition consume_optional (cs : list classified) (st : pstate)
    : result (pstate * nat) :=
  match cs !! start_index with
  | Some (_, Some (None, _, _)) =>
      Ok ({| namespace := namespace st; seen_actions := seen_actions st;
             positionals := positionals st;
             extras := extras st ++ [default EmptyString (arg_strings !! start_index)] |},
          start_index + 1)
  | Some (_, Some (Some i, option_string, explicit_arg)) =>
      r <- match explicit_arg with
           | Some e => explicit_args i option_string e
           | None => following_args i
           end ;;
      st' <- take_actions r.1 st ;;
      Ok (st', r.2)
  | _ => Raise (KeyError "option_string_indices")
  end.

Definition consume_positionals (st : pstate) : result (pstate * nat) :=
  actions <- mapM action_at (positionals st) ;;
  let arg_counts :=
    _match_arguments_partial actions (drop start_index arg_strings_pattern) in
  r <- foldM (fun '(st, start) '(i, a, arg_count) =>
                st' <- take_action i a (take arg_count (drop start arg_strings)) st ;;
                Ok (st', start + arg_count))
             (st, start_index)
             (zip (zip (positionals st) actions) arg_counts) ;;
  Ok ({| namespace := namespace r.1; seen_actions := seen_actions r.1;
         positionals := drop (length arg_counts) (positionals r.1);
         extras := extras r.1 |},
      r.2).
End ConsumeOptional.

(** *** [_parse_known_args] *)

Fixpoint first_option (cs : list classified) : option nat :=
  match cs with
  | [] => None
  | (_, Some _) :: _ => Some 0
  | (_, None) :: cs' => S <$> first_option cs'
  end.

(** [min(index for index in option_string_indices if index >= start_index)] *)
Definition next_option_string_index (cs : list classified) (start_index : nat)
    : option nat :=
  (fun k => start_index + k) <$> first_option (drop start_index cs).

(** [max(option_string_indices)] *)
Fixpoint max_option_string_index (cs : list classified) : option nat :=
  match cs with
  | [] => None
  | c :: cs' =>
      match max_option_string_index cs' with
      | Some k => Some (S k)
      | None => match c.2 with Some _ => Some 0 | None => None end
      end
  end.

Definition add_extras (strings : list string) (st : pstate) : pstate :=
  {| namespace := namespace st; seen_actions := seen_actions st;
     positionals := positionals st; extras := extras st ++ strings |}.

(** one turn of [while start_index <= max_option_string_index] *)
Definition loop_body (arg_strings : list string) (cs : list classified)
    (start_index : nat) (st : pstate) : result (pstate * nat) :=
  match next_option_string_index cs start_index with
  | None => Raise (ValueError "min() arg is an empty sequence")
  | Some next =>
      if start_index =? next
      then consume_optional arg_strings (cs.*1) start_index cs st
      else
        r <- consume_positionals arg_strings (cs.*1) start_index st ;;
        if start_index <? r.2 then Ok r
        else
          consume_optional arg_strings (cs.*1) next cs
            (add_extras (take (next - start_index) (drop start_index arg_strings)) r.1)
  end.

Fixpoint parse_loop (fuel : nat) (arg_strings : list string) (cs : list classified)
    (max : nat) (start_index : nat) (st : pstate) : result (pstate * nat) :=
  if start_index <=? max then
    match fuel with
    | 0 => Raise OutOfFuel
    | S fuel' =>
        r <- loop_body arg_strings cs start_index st ;;
        parse_loop fuel' arg_strings cs max r.2 r.1
    end
  else Ok (st, start_index).

Definition _get_action_name (a : Action) : string :=
  match option_strings a with
  | [] => default EmptyString (dest a)
  | l => join "/" l
  end.

(** [self._get_positional_actions()], by position *)
Definition _get_positional_actions : list nat :=
  omap (fun '(i, a) => match option_strings a with [] => Some i | _ => None end)
       (imap pair (_actions p)).

(** the loop over the actions after the arguments are consumed: the
    names of the required actions that were not seen, and the
    conversion of string defaults *)
Definition check_required (seen : list nat) (acc : Namespace * list string)
    (ia : nat * Action) : result (Namespace * list string) :=
  let '(i, a) := ia in
  if bool_decide (i ∈ seen) then Ok acc
  else if required a then Ok (acc.1, acc.2 ++ [_get_action_name a])
  else
    match default_ a, dest a with
    | Some (VStr s), Some d =>
        match acc.1 !! d with
        | Some (VStr s') =>
            if String.eqb s s'
            then v <- _get_value a s ;; Ok (<[d := v]> acc.1, acc.2)
            else Ok acc
        | _ => Ok acc
        end
    | _, _ => Ok acc
    end.

Definition _parse_known_args (arg_strings : list string) (ns : Namespace)
    : result (Namespace * list string) :=
  cs <- classify_args p arg_strings ;;
  let st0 := {| namespace := ns; seen_actions := [];
                positionals := _get_positional_actions; extras := [] |} in
  r <- match max_option_string_index cs with
       | Some max => parse_loop (S (length arg_strings)) arg_strings cs max 0 st0
       | None => Ok (st0, 0)
       end ;;
  r' <- consume_positionals arg_strings (cs.*1) r.2 r.1 ;;
  let extras := extras r'.1 ++ drop r'.2 arg_strings in
  q <- foldM (check_required (seen_actions r'.1)) (namespace r'.1, [])
             (imap pair (_actions p)) ;;
  match q.2 with
  | [] => Ok (q.1, extras)
  | names => Raise (SystemExit 2 (RequiredArguments (prog p) names))
  end.

(** the defaults of the actions, then those of the parser, for the
    attributes that are not there yet *)
Definition initial_namespace : Namespace :=
  fold_left (fun ns a =>
               match dest a, default_ a with
               | Some d, Some v =>
                   match ns !! d with None => <[d := v]> ns | Some _ => ns end
               | _, _ => ns
               end)
            (_actions p) ∅
  ∪ _defaults p.

Fixpoint characters (s : string) : list value :=
  match s with
  | EmptyString => []
  | String c s' => VStr (String c EmptyString) :: characters s'
  end.

Definition parse_known_args (args : list string) : result (Namespace * list value) :=
  match _parse_known_args args initial_namespace with
  | Raise (ArgumentError err) => Raise (SystemExit 2 (UsageError (prog p) err))
  | Raise e => Raise e
  | Ok (ns, extras) =>
      match ns !! _UNRECOGNIZED_ARGS_ATTR with
      | None => Ok (ns, VStr <$> extras)
      | Some (VList l) => Ok (delete _UNRECOGNIZED_ARGS_ATTR ns, (VStr <$> extras) ++ l)
      | Some (VStr s) =>
          Ok (delete _UNRECOGNIZED_ARGS_ATTR ns, (VStr <$> extras) ++ characters s)
      | Some _ => Raise (TypeError "object is not iterable")
      end
  end.

Definition is_str (v : value) : bool :=
  match v with VStr _ => true | _ => false end.

Definition parse_args (args : list string) : result Namespace :=
  r <- parse_known_args args ;;
  match r.2 with
  | [] => Ok r.1
  | argv =>
      if forallb is_str argv
      then Raise (SystemExit 2 (UnrecognizedArguments (prog p) (strings_of argv)))
      else Raise (TypeError "sequence item: expected str instance")
  end.

End Parsing.

(** *** Sub-parsers *)

(** The action that [add_subparsers] returns, with the parsers that
    [add_parser] created: [_name_parser_map] refers to them by their
    position in [parsers], so a name and its aliases share one parser. *)
Record SubParsers := {
  _prog_prefix : string;
  _name_parser_map : gmap string nat;
  _choices_actions : list (string * list string * string);
  parsers : list ArgumentParser }.

(** [cli.add_subparsers(title="subcommands", description="")] on a new
    parser *)
Definition add_subparsers (prog : string) : SubParsers :=
  {| _prog_prefix := prog; _name_parser_map := ∅; _choices_actions := [];
     parsers := [] |}.

(** [add_parser(name, help=..., description=..., aliases=...)]: the new
    parser, by position, and the changed action *)
Definition add_parser (name help description : string) (aliases : list string)
    (sp : SubParsers) : result (nat * SubParsers) :=
  match _name_parser_map sp !! name with
  | Some _ => Raise (ArgumentError (ConflictingSubparser name))
  | None =>
      match List.find (fun alias => bool_decide (is_Some (_name_parser_map sp !! alias)))
                      aliases with
      | Some alias => Raise (ArgumentError (ConflictingSubparserAlias alias))
      | None =>
          let parser := length (parsers sp) in
          Ok (parser,
              {| _prog_prefix := _prog_prefix sp;
                 _name_parser_map :=
                   fold_left (fun m alias => <[alias := parser]> m) aliases
                             (<[name := parser]> (_name_parser_map sp));
                 _choices_actions := _choices_actions sp ++ [(name, aliases, help)];
                 parsers :=
                   parsers sp
                   ++ [new_parser (_prog_prefix sp +:+ " " +:+ name) (Some description)] |})
      end
  end.

(** a parser without sub-parsers never calls one *)
Definition no_subparsers (name : string) (_ : list string) (_ : Namespace)
    : result Namespace :=
  Raise (ArgumentError (UnknownParser name)).

(** [_SubParsersAction.__call__] after [parser_name] is taken off the
    values *)
Definition call_subparser (sp : SubParsers) (parser_name : string)
    (arg_strings : list string) (ns : Namespace) : result Namespace :=
  match _name_parser_map sp !! parser_name ≫= (fun i => parsers sp !! i) with
  | None => Raise (ArgumentError (UnknownParser parser_name))
  | Some parser =>
      r <- parse_known_args no_subparsers parser arg_strings ;;
      let ns := r.1 ∪ ns in
      match r.2 with
      | [] => Ok ns
      | unrecognized =>
          match ns !! _UNRECOGNIZED_ARGS_ATTR with
          | None => Ok (<[_UNRECOGNIZED_ARGS_ATTR := VList unrecognized]> ns)
          | Some (VList l) =>
              Ok (<[_UNRECOGNIZED_ARGS_ATTR := VList (l ++ unrecognized)]> ns)
          | Some _ => Raise (AttributeError "object has no attribute 'extend'")
          end
      end
  end.

Definition subparsers_action (sp : SubParsers) : Action :=
  {| option_strings := []; dest := None; cls := SubParsersAction; nargs := PARSER;
     const := VNone; default_ := Some VNone; type_ := TypeNone;
     choices := Some (dom (_name_parser_map sp)); required := false; help := None |}.

(** the parser [cli] once [add_subparsers] has been called on it *)
Definition top_parser (sp : SubParsers) : ArgumentParser :=
  {| prog := _prog_prefix sp; description := None;
     _actions := [help_action; subparsers_action sp];
     _option_string_actions := <["--help" := 0]> (<["-h" := 0]> ∅);
     _defaults := ∅;
     _has_negative_number_optionals := false |}.

(** [cli.parse_args(argv)] *)
Definition cli_parse_args (sp : SubParsers) (argv : list string) : result Namespace :=
  parse_args (call_subparser sp) (top_parser sp) argv.

End Argparse.

(** ** geet *)

(** A handler function: the number it is known by and its docstring. *)
Record Func := { fn_id : nat; __doc__ : option string }.

Module Geet.
Import Py Textwrap Docstring Argparse.
Local Open Scope result_scope.

(** the unpacking of a list into two names *)
Definition unpack2 (l : list string) : result (string * string) :=
  match l with
  | [a; b] => Ok (a, b)
  | _ :: _ :: _ :: _ => Raise (ValueError "too many values to unpack (expected 2)")
  | _ => Raise (ValueError "not enough values to unpack (expected 2)")
  end.

(** The body of the loop over the argument lines, up to the call of
    [add_argument]: the names and the keyword arguments it is called
    with. *)
Definition compile_arg (arg arghelp : string) : result (list string * kwargs) :=
  if startswith "-" arg then
    if contains "=" arg then
      r <- unpack2 (split "=" arg) ;;
      let '(arg, atype) := r in
      let repeated := endswith "..." atype in
      let atype := if repeated then slice_to_neg 3 atype else atype in
      Ok (split "|" arg,
          {| kw_action := if repeated then "append" else "store";
             kw_nargs := None;
             kw_type := Some (if String.eqb atype "int" then TypeInt
                              else TypeObject "'str'");
             kw_default := if repeated then Some (VList []) else None;
             kw_help := Some arghelp |})
    else
      Ok (split "|" arg,
          {| kw_action := "store_true"; kw_nargs := None; kw_type := None;
             kw_default := None; kw_help := Some arghelp |})
  else if endswith "..." arg then
    Ok (split "|" (slice_to_neg 3 arg),
        {| kw_action := "append"; kw_nargs := Some ONE_OR_MORE; kw_type := None;
           kw_default := None; kw_help := Some arghelp |})
  else
    Ok (split "|" arg,
        {| kw_action := "store"; kw_nargs := None; kw_type := Some TypeStr;
           kw_default := None; kw_help := Some arghelp |}).

(** one turn of the loop [for arg, arghelp in ...] *)
Definition add_arg_line (parts : list string) (parser : ArgumentParser)
    : result ArgumentParser :=
  r <- unpack2 parts ;;
  let '(arg, arghelp) := r in
  c <- compile_arg arg arghelp ;;
  add_argument c.1 c.2 parser.

(** the loop: it stops at the first exception and the parser keeps the
    arguments added until then *)
Fixpoint add_arg_lines (lines : list (list string)) (parser : ArgumentParser)
    : result unit * ArgumentParser :=
  match lines with
  | [] => (Ok tt, parser)
  | parts :: rest =>
      match add_arg_line parts parser with
      | Ok parser' => add_arg_lines rest parser'
      | Raise e => (Raise e, parser)
      end
  end.

Definition update_parser (i : nat) (f : ArgumentParser -> ArgumentParser)
    (sp : SubParsers) : SubParsers :=
  {| _prog_prefix := _prog_prefix sp; _name_parser_map := _name_parser_map sp;
     _choices_actions := _choices_actions sp;
     parsers := alter f i (parsers sp) |}.

(** [_add_subcommand(parent, func)]: what it raises, if anything, and
    [parent] as it is left. *)
Definition _add_subcommand (parent : SubParsers) (func : Func)
    : result unit * SubParsers :=
  match __doc__ func with
  | None => (Raise (AttributeError "'NoneType' object has no attribute 'strip'"), parent)
  | Some docstr =>
      match parse_docstring docstr with
      | None => (Raise (ValueError "values to unpack (expected 2)"), parent)
      | Some d =>
          match add_parser (name d) (shorthelp d) (longhelp d) (aliases d) parent with
          | Raise e => (Raise e, parent)
          | Ok (parser, parent) =>
              let parent :=
                update_parser parser (set_defaults [("func", VFunc (fn_id func))]) parent in
              match parsers parent !! parser with
              | Some p =>
                  let r := add_arg_lines (map (split ": ") (declared_arg_lines d)) p in
                  (r.1, update_parser parser (fun _ => r.2) parent)
              | None => (Ok tt, parent)
              end
          end
      end
  end.

(** The module: the sub-parsers and the global names. *)
Record Module_ := {
  subparsers : SubParsers;
  globals : gmap string value }.

(** [@subcommand()] on [def name(args)]: the decorator returns what
    [decorator(func)] returns, which is [None], and the name is bound to
    it; an exception leaves the name unbound. *)
Definition subcommand (name : string) (func : Func) (m : Module_)
    : result unit * Module_ :=
  let r := _add_subcommand (subparsers m) func in
  match r.1 with
  | Ok tt => (Ok tt, {| subparsers := r.2; globals := <[name := VNone]> (globals m) |})
  | Raise e => (Raise e, {| subparsers := r.2; globals := globals m |})
  end.

(** What [main] does that can be seen from outside. *)
Inductive event :=
| PrintArgs (args : Namespace)
| PrintHelp
| CallHandler (f : nat) (args : Namespace).

(** the truth value of an object *)
Definition truthy (v : value) : bool :=
  match v with
  | VNone => false
  | VBool b => b
  | VInt z => negb (Z.eqb z 0)
  | VStr s => negb (String.eqb s EmptyString)
  | VList l => match l with [] => false | _ => true end
  | VFunc _ => true
  end.

(** [main()] with [sys.argv[1:] = argv]: the events up to the call of the
    handler, and how [main] ends if the handler returns. *)
Definition main (sp : SubParsers) (argv : list string) : list event * result unit :=
  match cli_parse_args sp argv with
  | Raise e => ([], Raise e)
  | Ok args =>
      match args !! "func" with
      | None =>
          ([PrintArgs args],
           Raise (AttributeError "'Namespace' object has no attribute 'func'"))
      | Some func =>
          if negb (truthy func) then ([PrintArgs args; PrintHelp], Ok tt)
          else
            match func with
            | VFunc f => ([PrintArgs args; CallHandler f args], Ok tt)
            | _ => ([PrintArgs args], Raise (TypeError "object is not callable"))
            end
      end
  end.

(** the handlers called in a run *)
Definition handlers_called (run : list event * result unit) : list nat :=
  omap (fun e => match e with CallHandler f _ => Some f | _ => None end) run.1.

(** *** The two commands of the repository *)

Definition testing : Func := {| fn_id := 0; __doc__ := Some testing_doc |}.
Definition foobar : Func := {| fn_id := 1; __doc__ := Some foobar_doc |}.

(** the module once both definitions have been executed *)
Definition geet_module (prog : string) : result unit * Module_ :=
  let m0 := {| subparsers := add_subparsers prog; globals := ∅ |} in
  let r := subcommand "testing" testing m0 in
  match r.1 with
  | Ok tt => subcommand "foobar" foobar r.2
  | Raise e => r
  end.

End Geet.

(** * The vocabulary of the claims *)

Section Vocabulary.
Import Py Textwrap Docstring Argparse Geet.

(** ** Strings *)

(** the characters of a string that are not whitespace *)
Fixpoint nonspace (s : string) : nat :=
match s with
| EmptyString => 0
| String c s' => (if isspace c then 0 else 1) + nonspace s'
end.

Fixpoint all_space (s : string) : bool :=
match s with
| EmptyString => true
| String c s' => isspace c && all_space s'
end.

(** the weight of a list of aliases: its length and the characters that
  are not whitespace *)
Definition weight (l : list string) : nat :=
length l + list_sum (map nonspace l).

(** an occurrence of [sep] in [s] *)
Fixpoint occurs (sep s : string) : bool :=
match s with
| EmptyString => startswith sep EmptyString
| String _ s' => startswith sep s || occurs sep s'
end.

(** ** Registration *)

(** the lines that the loop goes through for a docstring *)
Definition docstring_arg_lines (docstr : string) : list string :=
match parse_docstring docstr with
| Some d => declared_arg_lines d
| None => []
end.

(** the parser that [_add_subcommand] starts from: the one that
  [add_parser] creates, with [func] as a default *)
Definition fresh_parser (parent : SubParsers) (d : Declaration) (func : Func)
  : ArgumentParser :=
set_defaults [("func", VFunc (fn_id func))]
             (new_parser (_prog_prefix parent +:+ " " +:+ name d) (Some (longhelp d))).

(** the option strings of a parser are those of its actions, each one
  bound to the position of the action that has it *)
Definition wf_parser (p : ArgumentParser) : Prop :=
forall s j, _option_string_actions p !! s = Some j
            <-> exists a, _actions p !! j = Some a /\ s ∈ option_strings a.

(** the action of one line of the argument block *)
Definition line_action (parts : list string) (defaults : gmap string value)
  : result Action :=
bind (unpack2 parts) (fun r =>
  bind (compile_arg r.1 r.2) (fun c => new_action c.1 c.2 defaults)).

(** the paragraph that the scan for ["Aliases:"] finds in a docstring *)
Definition aliases_paragraph (docstr : string) : option string :=
let paragraphs := (take_args (tail (paragraphs_of docstr))).2 in
find_header "Aliases:" paragraphs ≫= (fun index => paragraphs !! index).

(** the call of a global name *)
Definition call_global (m : Module_) (name : string) : result nat :=
match globals m !! name with
| None => Raise (NameError name)
| Some (VFunc f) => Ok f
| Some VNone => Raise (TypeError "'NoneType' object is not callable")
| Some _ => Raise (TypeError "object is not callable")
end.

(** ** Dispatch *)

(** a result that is not the exhaustion of the fuel of the loop *)
Definition fuel_safe {A} (r : result A) : Prop := r <> Raise OutOfFuel.

(** the state in which the parsing of the top parser starts and ends *)
Definition top_state (ns : gmap string value) (seen positionals : list nat) : pstate :=
{| namespace := ns; seen_actions := seen; positionals := positionals; extras := [] |}.

(** what the top parser does with a command and its arguments: a state
  and the index after the last argument, or an exception *)
Definition dispatch (sp : SubParsers) (tok : string) (rest : list string)
  (ns : gmap string value) : result (pstate * nat) :=
match _name_parser_map sp !! tok with
| None => Raise (ArgumentError (InvalidChoice tok))
| Some _ =>
    bind (call_subparser sp tok rest ns)
         (fun ns' => Ok (top_state ns' [1] [], S (length rest)))
end.

(** what [cli.parse_args] returns for a command, in terms of what the
  parser of the command makes of the arguments *)
Definition dispatched (sp : SubParsers) (r : result (gmap string value * list value))
  : result (gmap string value) :=
match r with
| Raise e => Raise e
| Ok (ns, []) => Ok ns
| Ok (ns, unrecognized) =>
    if forallb is_str unrecognized
    then Raise (SystemExit 2 (UnrecognizedArguments (_prog_prefix sp)
                                                    (strings_of unrecognized)))
    else Raise (TypeError "sequence item: expected str instance")
end.

(** a dispatch that fails and what is written for it: the command token
  resolves to nothing, or the parser of the command exits on the
  arguments (a required positional is missing, a value does not
  convert, ...), or it leaves argument strings that it does not
  recognize (an unknown flag, ...) *)
Inductive dispatch_failure (sp : SubParsers) : list string -> message -> Prop :=
| UnknownCommand (tok : string) (rest : list string) :
  startswith "-" tok = false ->
  _name_parser_map sp !! tok = None ->
  dispatch_failure sp (tok :: rest) (UsageError (_prog_prefix sp) (InvalidChoice tok))
| InvalidArguments (tok : string) (rest : list string) (i : nat) (p : ArgumentParser)
    (m : message) :
  startswith "-" tok = false ->
  _name_parser_map sp !! tok = Some i -> parsers sp !! i = Some p ->
  parse_known_args no_subparsers p rest = Raise (SystemExit 2 m) ->
  dispatch_failure sp (tok :: rest) m
| UnknownArguments (tok : string) (rest : list string) (i : nat) (p : ArgumentParser)
    (ns : gmap string value) (unrecognized : list string) :
  startswith "-" tok = false ->
  _name_parser_map sp !! tok = Some i -> parsers sp !! i = Some p ->
  parse_known_args no_subparsers p rest = Ok (ns, VStr <$> unrecognized) ->
  unrecognized <> [] ->
  dispatch_failure sp (tok :: rest) (UnrecognizedArguments (_prog_prefix sp) unrecognized).

(** ** The rules and the docstrings of the scenarios *)

(** the rule of the line ["-k|--kill: kill"] *)
Definition kill_action : Action :=
{| option_strings := ["-k"; "--kill"]; dest := Some "kill"; cls := StoreTrueAction;
   nargs := NargsInt 0; const := VBool true; default_ := Some (VBool false);
   type_ := TypeNone; choices := None; required := false; help := Some "kill" |}.

(** the namespace of a command with the toggle only *)
Definition kill_namespace (kill : bool) (f : nat) : gmap string value :=
<["kill" := VBool kill]> {[ "func" := VFunc f ]}.

(** the parser of a command whose argument block is the line of the
  toggle *)
Definition kill_parser (parent : SubParsers) (d : Declaration) (func : Func)
  : ArgumentParser :=
(add_arg_lines (map (split ": ") ["-k|--kill: kill"]) (fresh_parser parent d func)).2.

(** the rule of the line ["files...: One or more files."] *)
Definition files_action : Action :=
{| option_strings := []; dest := Some "files"; cls := AppendAction;
   nargs := ONE_OR_MORE; const := VNone; default_ := Some VNone;
   type_ := TypeNone; choices := None; required := true;
   help := Some "One or more files." |}.

Definition comment_doc : string :=
"commit: record changes" +:+ nl +:+ nl +:+
"    Args:" +:+ nl +:+
"       -c|--comment=string: text" +:+ nl +:+
"    ".

Definition nested_help_doc : string :=
"fetch: get a branch" +:+ nl +:+ nl +:+
"    Args:" +:+ nl +:+
"       branch: one of: main, master" +:+ nl +:+
"    ".

Definition no_separator_doc : string :=
"fetch: get a branch" +:+ nl +:+ nl +:+
"    Args:" +:+ nl +:+
"       branch" +:+ nl +:+
"    ".

Definition abc_doc : string :=
"rebase: replay the branch" +:+ nl +:+ nl +:+
"    Aliases: a, b, c" +:+ nl +:+
"    ".

Definition kill_doc : string :=
"stop: stop the job" +:+ nl +:+ nl +:+
"    Args:" +:+ nl +:+
"       -k|--kill: kill" +:+ nl +:+
"    ".

Definition log_doc : string :=
"log: show commits" +:+ nl +:+ nl +:+
"    Args:" +:+ nl +:+
"       -n|--num=int: how many" +:+ nl +:+
"    ".

Definition files_doc : string :=
"add: stage files" +:+ nl +:+ nl +:+
"    Args:" +:+ nl +:+
"       files...: One or more files." +:+ nl +:+
"    ".

(** the sub-parsers once [geet.py] is loaded *)
Definition geet_subparsers : SubParsers := subparsers (geet_module "geet").2.

(** the parsers of [testing] and of a command with an integer flag *)
Definition testing_parser : ArgumentParser :=
nth 0 (parsers geet_subparsers) (new_parser "" None).

(** the three kinds of arguments that fail validation are failures of
  the dispatch: a required positional that is missing, a flag that is
  not known, a value that does not convert *)
Definition log_subparsers : SubParsers :=
(_add_subcommand (add_subparsers "geet") {| fn_id := 2; __doc__ := Some log_doc |}).2.

Definition log_parser : ArgumentParser :=
nth 0 (parsers log_subparsers) (new_parser "" None).

(** ** Registration, argument lines and dispatch beyond the claims *)

(** a docstring whose second argument line is refused *)
Definition partial_doc : string :=
  "sync: sync it" +:+ nl +:+ nl +:+
  "    Args:" +:+ nl +:+
  "       -k|--kill: kill" +:+ nl +:+
  "       -c|--comment=string: text" +:+ nl +:+
  "    ".

(** the registry that the registration of [partial_doc] leaves *)
Definition partial_subparsers : SubParsers :=
  (_add_subcommand (add_subparsers "geet") {| fn_id := 9; __doc__ := Some partial_doc |}).2.

(** the string has a first character, which is no whitespace *)
Definition starts_nonspace (s : string) : bool :=
  match s with
  | String c _ => negb (isspace c)
  | EmptyString => false
  end.

(** the string has a last character, which is no whitespace *)
Fixpoint ends_nonspace (s : string) : bool :=
  match s with
  | EmptyString => false
  | String c EmptyString => negb (isspace c)
  | String _ s' => ends_nonspace s'
  end.

(** the registry once a command without aliases and without arguments
    is added to it *)
Definition with_plain_command (parent : SubParsers) (func : Func) (name help : string)
    : SubParsers :=
  {| _prog_prefix := _prog_prefix parent;
     _name_parser_map := <[name := length (parsers parent)]> (_name_parser_map parent);
     _choices_actions := _choices_actions parent ++ [(name, [], help)];
     parsers :=
       parsers parent
       ++ [set_defaults [("func", VFunc (fn_id func))]
                        (new_parser (_prog_prefix parent +:+ " " +:+ name)
                                    (Some EmptyString))] |}.

(** [n] spaces *)
Fixpoint spaces (n : nat) : string :=
  match n with
  | 0 => EmptyString
  | S n' => String " " (spaces n')
  end.

(** a line of text as it is written in a docstring: no newline in it and
    no whitespace at its ends *)
Definition is_line (l : string) : bool :=
  negb (occurs nl l) && starts_nonspace l && ends_nonspace l.

(** the text under the header [Args:] when every line is indented by [n]
    spaces more than the header *)
Fixpoint indented_block (n : nat) (lines : list string) : string :=
  match lines with
  | [] => EmptyString
  | l :: lines' => nl +:+ spaces n +:+ l +:+ indented_block n lines'
  end.

(** the lines of a block joined as [re.sub] leaves them when it replaces
    the indentation *)
Fixpoint collapsed (lines : list string) : string :=
  match lines with
  | [] => EmptyString
  | l :: lines' => String " " (l +:+ collapsed lines')
  end.

(** a docstring in the layout of the repository: the line of the name,
    a blank line, the header [Args:] indented by [m] spaces and the
    argument lines indented by [n] spaces more, then whitespace *)
Definition args_docstring (name help : string) (m n : nat) (lines : list string)
    (trailing : string) : string :=
  name +:+ ": " +:+ help +:+ nl +:+ nl
  +:+ spaces m +:+ "Args:" +:+ indented_block (m + n) lines +:+ trailing.

(** an argument string has been set aside as not recognised *)
Definition has_extras (st : pstate) : Prop := extras st <> [].

(** the registries that a program can build: the one of
    [add_subparsers], and the ones that calls of [_add_subcommand] leave,
    whether they complete or raise *)
Inductive registered : SubParsers -> Prop :=
| registered_none (prog : string) : registered (add_subparsers prog)
| registered_more (sp : SubParsers) (func : Func) :
    registered sp -> registered (_add_subcommand sp func).2.

(** no rule of a parser writes to the attribute [key] *)
Definition no_rule_for (key : string) (p : ArgumentParser) : Prop :=
  forall a, a ∈ _actions p -> dest a <> Some key.

(** a docstring whose [Aliases:] paragraph names no alias *)
Definition blank_aliases_doc : string :=
  "push: send it" +:+ nl +:+ nl +:+
  "    Aliases:" +:+ nl +:+
  "    ".


(** the namespace of a command with the integer flag only *)
Definition num_namespace (num : value) (f : nat) : gmap string value :=
  <["num" := num]> {[ "func" := VFunc f ]}.

(** the parser of a command whose argument block is the line of the
    integer flag *)
Definition num_parser (parent : SubParsers) (d : Declaration) (func : Func)
    : ArgumentParser :=
  (add_arg_lines (map (split ": ") ["-n|--num=int: how many"]) (fresh_parser parent d func)).2.









(** the rule of the line ["branch: branch to integrate"] *)
Definition branch_action : Action :=
  {| option_strings := []; dest := Some "branch"; cls := StoreAction;
     nargs := NargsNone; const := VNone; default_ := Some VNone;
     type_ := TypeStr; choices := None; required := true;
     help := Some "branch to integrate" |}.

(** the namespace of a command with the positional only *)
Definition branch_namespace (v : string) (f : nat) : gmap string value :=
  <["branch" := VStr v]> {[ "func" := VFunc f ]}.

(** the parser of a command whose argument block is the line of the
    positional *)
Definition branch_parser (parent : SubParsers) (d : Declaration) (func : Func)
    : ArgumentParser :=
  (add_arg_lines (map (split ": ") ["branch: branch to integrate"])
                 (fresh_parser parent d func)).2.

(** a docstring with the positional as its argument block *)
Definition branch_doc : string :=
  "merge: integrate a branch" +:+ nl +:+ nl +:+
  "    Args:" +:+ nl +:+
  "       branch: branch to integrate" +:+ nl +:+
  "    ".

(** the registry that the registration of [branch_doc] leaves *)
Definition branch_subparsers : SubParsers :=
  (_add_subcommand (add_subparsers "geet") {| fn_id := 6; __doc__ := Some branch_doc |}).2.

End Vocabulary.

(** * Properties *)

(** ** Strings *)

Section StringFacts.
Import Py.

Lemma append_cons (c : ascii) (s t : string) :
  String c s +:+ t = String c (s +:+ t).
Proof. reflexivity. Qed.

Lemma append_empty_l (t : string) : EmptyString +:+ t = t.
Proof. reflexivity. Qed.

Lemma isspace_not_comma (c : ascii) : isspace c = true -> Ascii.eqb "," c = false.
Proof.
  intros Hc. destruct (Ascii.eqb_spec "," c) as [<-|]; [discriminate Hc | reflexivity].
Qed.

Lemma nonspace_app (s t : string) : nonspace (s +:+ t) = nonspace s + nonspace t.
Proof.
  induction s as [|c s IH]; [reflexivity|].
  rewrite append_cons. simpl. rewrite IH. lia.
Qed.

Lemma nonspace_all_space (s : string) : nonspace s = 0 <-> all_space s = true.
Proof.
  induction s as [|c s IH]; simpl; [tauto|].
  destruct (isspace c); simpl; [exact IH|]. split; [lia | discriminate].
Qed.

Lemma nonspace_lstrip (s : string) : nonspace (lstrip s) = nonspace s.
Proof.
  induction s as [|c s IH]; [reflexivity|]. simpl.
  destruct (isspace c) eqn:Hc; simpl; [exact IH | now rewrite Hc].
Qed.

Lemma nonspace_rstrip (s : string) : nonspace (rstrip s) = nonspace s.
Proof.
  induction s as [|c s IH]; [reflexivity|]. simpl.
  destruct (rstrip s) as [|d r] eqn:Hr.
  - simpl in IH. rewrite <- IH. destruct (isspace c) eqn:Hc; simpl; now rewrite ?Hc.
  - change (nonspace (String c (String d r)))
      with ((if isspace c then 0 else 1) + nonspace (String d r)).
    now rewrite IH.
Qed.

Lemma nonspace_strip (s : string) : nonspace (strip s) = nonspace s.
Proof. unfold strip. now rewrite nonspace_lstrip, nonspace_rstrip. Qed.

Lemma strip_cons_space (c : ascii) (s : string) :
  isspace c = true -> strip (String c s) = strip s.
Proof.
  intros Hc. unfold strip. simpl.
  destruct (rstrip s) as [|d r]; simpl; rewrite Hc; reflexivity.
Qed.

Lemma split_aux_nonempty (sep : string) (k : nat) (s : string) :
  split_aux sep k s <> [].
Proof.
  revert k. induction s as [|c s IH]; intros k; simpl; [discriminate|].
  destruct k; [|apply IH].
  destruct (startswith sep (String c s)); [discriminate|].
  destruct (split_aux sep 0 s); discriminate.
Qed.

(** splitting on one character *)
Lemma split_char_cons (sep c : ascii) (s : string) :
  split (String sep EmptyString) (String c s)
  = if Ascii.eqb sep c
    then EmptyString :: split (String sep EmptyString) s
    else match split (String sep EmptyString) s with
         | h :: t => String c h :: t
         | [] => [String c EmptyString]
         end.
Proof. unfold split. simpl. destruct (Ascii.eqb sep c); reflexivity. Qed.

Lemma weight_split_aliases (s : string) :
  weight (Docstring.split_aliases s) = S (nonspace s).
Proof.
  unfold Docstring.split_aliases, weight.
  induction s as [|c s IH]; [reflexivity|].
  rewrite split_char_cons.
  destruct (Ascii.eqb_spec "," c) as [<-|Hne].
  - simpl in *. lia.
  - destruct (split "," s) as [|h t] eqn:Hs; [now apply split_aux_nonempty in Hs|].
    simpl in *. rewrite nonspace_strip in *. simpl. lia.
Qed.

Lemma split_aliases_space (ws s : string) :
  all_space ws = true ->
  Docstring.split_aliases (ws +:+ s) = Docstring.split_aliases s.
Proof.
  unfold Docstring.split_aliases.
  induction ws as [|c ws IH]; intros Hws; [reflexivity|].
  simpl in Hws. apply andb_prop in Hws as [Hc Hws].
  rewrite append_cons, split_char_cons, (isspace_not_comma c Hc).
  specialize (IH Hws).
  destruct (split "," (ws +:+ s)) as [|h t] eqn:Hs; [now apply split_aux_nonempty in Hs|].
  simpl in *. now rewrite strip_cons_space.
Qed.

End StringFacts.

(** ** The [Aliases:] paragraph *)

Section Aliases.
Import Py Docstring.

Lemma aliases_after_header (sep rest : string) :
  aliases_of_paragraph ("Aliases:" +:+ sep +:+ rest)
  = match sep with
    | EmptyString => split_aliases (slice_from 1 rest)
    | String _ ws => split_aliases (ws +:+ rest)
    end.
Proof. destruct sep; reflexivity. Qed.

(** C10, as the claim states it, is refuted: with two spaces after the
    colon the aliases are recovered as well, so a single separating
    character is not necessary. *)
Lemma aliases_intact_with_two_spaces :
  ~ (forall (sep : string) (c : ascii) (t : string),
        isspace c = false ->
        aliases_of_paragraph ("Aliases:" +:+ sep +:+ String c t) = split_aliases (String c t)
        <-> String.length sep = 1).
Proof.
  intros H. specialize (H "  " "a"%char ", b" eq_refl) as [H _].
  specialize (H eq_refl). discriminate H.
Qed.

(** C10 (amended).  The alias list is computed from offset 9 of the
    paragraph, so the character after the header ["Aliases:"] is dropped
    whatever it is.  When the first alias starts with a character [c]
    that is not whitespace, the list is the one of the text [c t] exactly
    when the colon is followed by one character and then by whitespace
    only; ["Aliases:a, b"] loses the first character of its first alias. *)
Theorem aliases_intact_iff (sep : string) (c : ascii) (t : string) :
  isspace c = false ->
  (forall (d : ascii) (rest : string),
      aliases_of_paragraph ("Aliases:" +:+ String d rest) = split_aliases rest)
  /\ (aliases_of_paragraph ("Aliases:" +:+ sep +:+ String c t) = split_aliases (String c t)
      <-> exists (d : ascii) (ws : string), sep = String d ws /\ all_space ws = true)
  /\ aliases_of_paragraph "Aliases:a, b" = [""; "b"]
  /\ aliases_of_paragraph "Aliases: a, b" = ["a"; "b"].
Proof.
  intros Hc. split; [reflexivity|]. split; [|split; reflexivity].
  rewrite aliases_after_header. split.
  - intros Heq. apply (f_equal weight) in Heq.
    destruct sep as [|d ws].
    + rewrite !weight_split_aliases in Heq. simpl in Heq. rewrite Hc in Heq. lia.
    + exists d, ws. split; [reflexivity|].
      rewrite !weight_split_aliases, nonspace_app in Heq.
      apply nonspace_all_space. lia.
  - intros (d & ws & -> & Hws). now apply split_aliases_space.
Qed.

Lemma aliases_intact_iff_witness :
  isspace "a" = false
  /\ (aliases_of_paragraph ("Aliases:" +:+ " " +:+ String "a" ", b")
      = split_aliases (String "a" ", b")
      <-> exists (d : ascii) (ws : string), " " = String d ws /\ all_space ws = true).
Proof.
  split; [reflexivity|].
  exact (proj1 (proj2 (aliases_intact_iff " " "a" ", b" eq_refl))).
Defined.

End Aliases.

(** ** [str.split] and [str.join] *)

Section SplitFacts.
Import Py.

Lemma slice_from_empty (k : nat) : slice_from k EmptyString = EmptyString.
Proof. destruct k; reflexivity. Qed.

Lemma slice_from_length (k : nat) (s : string) :
  String.length (slice_from k s) <= String.length s.
Proof.
  revert s. induction k as [|k IH]; intros [|c s]; simpl; try lia.
  specialize (IH s). lia.
Qed.

Lemma split_aux_skip (sep : string) (k : nat) (s : string) :
  split_aux sep k s = split_aux sep 0 (slice_from k s).
Proof.
  revert s. induction k as [|k IH]; intros s; [reflexivity|].
  destruct s as [|c s]; [reflexivity|]. simpl. apply IH.
Qed.

Lemma startswith_app (p s : string) :
  startswith p s = true -> s = p +:+ slice_from (String.length p) s.
Proof.
  revert s. induction p as [|a p IH]; intros s H; [reflexivity|].
  destruct s as [|b s]; [discriminate H|]. simpl in H.
  destruct (Ascii.eqb_spec a b) as [->|]; [|discriminate H].
  rewrite append_cons. simpl. f_equal. now apply IH.
Qed.

Lemma join_cons_cons (sep : string) (c : ascii) (h : string) (t : list string) :
  join sep (String c h :: t) = String c (join sep (h :: t)).
Proof. destruct t; reflexivity. Qed.

(** joining the pieces of a split with the separator gives the string back *)
Lemma join_split (sep s : string) :
  sep <> EmptyString -> join sep (split sep s) = s.
Proof.
  intros Hsep. unfold split.
  remember (String.length s) as n eqn:Hn.
  assert (Hle : String.length s <= n) by lia. clear Hn.
  revert s Hle. induction n as [|n IH]; intros [|c s] Hle; simpl in *;
    try reflexivity; try lia.
  destruct (startswith sep (String c s)) eqn:Hp.
  - rewrite split_aux_skip.
    pose proof (slice_from_length (String.length sep - 1) s) as Hlen.
    specialize (IH (slice_from (String.length sep - 1) s) ltac:(lia)).
    destruct (split_aux sep 0 (slice_from (String.length sep - 1) s)) as [|h t] eqn:Hs;
      [now apply split_aux_nonempty in Hs|].
    change (join sep (EmptyString :: h :: t)) with (sep +:+ join sep (h :: t)).
    rewrite IH. apply startswith_app in Hp.
    etransitivity; [|symmetry; exact Hp].
    destruct sep as [|a sep]; [congruence|]. simpl. now rewrite Nat.sub_0_r.
  - specialize (IH s ltac:(lia)).
    destruct (split_aux sep 0 s) as [|h t] eqn:Hs; [now apply split_aux_nonempty in Hs|].
    now rewrite join_cons_cons, IH.
Qed.

Lemma split_two (sep s a b : string) :
  sep <> EmptyString -> split sep s = [a; b] -> s = a +:+ sep +:+ b.
Proof. intros Hsep H. rewrite <- (join_split sep s Hsep), H. reflexivity. Qed.

(** without an occurrence of the separator there is one piece *)
Lemma split_no_occurrence (sep s : string) :
  occurs sep s = false -> split sep s = [s].
Proof.
  unfold split. induction s as [|c s IH]; intros H; [reflexivity|].
  simpl in H. apply orb_false_elim in H as [Hp H]. apply IH in H.
  change (split_aux sep 0 (String c s))
    with (if startswith sep (String c s)
          then EmptyString :: split_aux sep (String.length sep - 1) s
          else match split_aux sep 0 s with
               | h :: t => String c h :: t
               | [] => [String c EmptyString]
               end).
  now rewrite Hp, H.
Qed.

End SplitFacts.

(** ** Registration *)

Section Registration.
Import Py Docstring Argparse Geet.

Lemma fold_insert_lookup (keys : list string) (i : nat) (m : gmap string nat) (k : string) :
  fold_left (fun m key => <[key := i]> m) keys m !! k
  = if decide (k ∈ keys) then Some i else m !! k.
Proof.
  revert m. induction keys as [|a keys IH]; intros m; simpl.
  - destruct (decide (k ∈ [])) as [H|_]; [inversion H | reflexivity].
  - rewrite IH. destruct (decide (k ∈ keys)) as [Hin|Hnin].
    + rewrite decide_True; [reflexivity | now right].
    + destruct (decide (a = k)) as [->|Hne].
      * rewrite lookup_insert_eq, decide_True; [reflexivity | now left].
      * rewrite lookup_insert_ne by exact Hne.
        rewrite decide_False; [reflexivity|].
        intros H. inversion H; subst; congruence.
Qed.

Lemma alter_last {A} (f : A -> A) (l : list A) (x : A) :
  alter f (length l) (l ++ [x]) = l ++ [f x].
Proof. induction l as [|a l IH]; simpl; [reflexivity | now f_equal]. Qed.

Lemma lookup_last {A} (l : list A) (x : A) : (l ++ [x]) !! length l = Some x.
Proof. induction l as [|a l IH]; simpl; [reflexivity | exact IH]. Qed.

(** what a successful [add_parser] did *)
Lemma add_parser_inv (name help description : string) (aliases : list string)
    (sp sp' : SubParsers) (i : nat) :
  add_parser name help description aliases sp = Ok (i, sp') ->
  _name_parser_map sp !! name = None
  /\ (forall alias, alias ∈ aliases -> _name_parser_map sp !! alias = None)
  /\ i = length (parsers sp)
  /\ _name_parser_map sp'
     = fold_left (fun m alias => <[alias := i]> m) aliases
                 (<[name := i]> (_name_parser_map sp))
  /\ parsers sp'
     = parsers sp ++ [new_parser (_prog_prefix sp +:+ " " +:+ name) (Some description)]
  /\ _prog_prefix sp' = _prog_prefix sp.
Proof.
  unfold add_parser. intros H.
  destruct (_name_parser_map sp !! name) eqn:Hname; [discriminate H|].
  destruct (List.find _ aliases) eqn:Hfind; [discriminate H|].
  injection H as <- <-. simpl. repeat split; try reflexivity.
  intros alias Hin. apply list_elem_of_In in Hin.
  pose proof (find_none _ _ Hfind alias Hin) as Hf. simpl in Hf.
  apply bool_decide_eq_false_1 in Hf.
  destruct (_name_parser_map sp !! alias); [exfalso; apply Hf; eauto | reflexivity].
Qed.


Lemma add_arg_lines_raise (lines : list (list string)) (parts : list string)
    (p : ArgumentParser) :
  In parts lines ->
  (forall q, exists e, add_arg_line parts q = Raise e) ->
  exists e, (add_arg_lines lines p).1 = Raise e.
Proof.
  intros Hin Hbad. revert p. induction lines as [|l lines IH]; intros p; [destruct Hin|].
  simpl. destruct Hin as [->|Hin].
  - destruct (Hbad p) as [e ->]. eauto.
  - destruct (add_arg_line l p); [now apply IH | eauto].
Qed.

(** [_add_subcommand] once [add_parser] has returned *)
Lemma add_subcommand_registered (parent sp1 : SubParsers) (func : Func)
    (docstr : string) (d : Declaration) (i : nat) :
  __doc__ func = Some docstr ->
  parse_docstring docstr = Some d ->
  add_parser (name d) (shorthelp d) (longhelp d) (aliases d) parent = Ok (i, sp1) ->
  let r := add_arg_lines (map (split ": ") (declared_arg_lines d))
                         (fresh_parser parent d func) in
  _add_subcommand parent func
  = (r.1, {| _prog_prefix := _prog_prefix parent;
             _name_parser_map := _name_parser_map sp1;
             _choices_actions := _choices_actions sp1;
             parsers := parsers parent ++ [r.2] |}).
Proof.
  intros Hdoc Hd Hadd. unfold _add_subcommand. rewrite Hdoc, Hd, Hadd.
  apply add_parser_inv in Hadd as (_ & _ & -> & _ & Hps & Hprog).
  unfold update_parser; simpl. rewrite Hps, alter_last, lookup_last, alter_last.
  unfold fresh_parser. now rewrite Hprog.
Qed.

(** a line that no parser accepts makes the registration fail *)
Lemma add_subcommand_bad_line (parent : SubParsers) (func : Func)
    (docstr line : string) :
  __doc__ func = Some docstr ->
  In line (docstring_arg_lines docstr) ->
  (forall q, exists e, add_arg_line (split ": " line) q = Raise e) ->
  exists e, (_add_subcommand parent func).1 = Raise e.
Proof.
  intros Hdoc Hin Hbad. unfold docstring_arg_lines in Hin.
  destruct (parse_docstring docstr) as [d|] eqn:Hd; [|destruct Hin].
  destruct (add_parser (name d) (shorthelp d) (longhelp d) (aliases d) parent)
    as [[i sp1]|e] eqn:Hadd.
  - rewrite (add_subcommand_registered _ _ _ _ _ _ Hdoc Hd Hadd). simpl.
    apply add_arg_lines_raise with (parts := split ": " line); [|exact Hbad].
    apply in_map, Hin.
  - unfold _add_subcommand. rewrite Hdoc, Hd, Hadd. eauto.
Qed.

End Registration.

(** ** The claims about registration *)

Section RegistrationClaims.
Import Py Textwrap Docstring Argparse Geet.

(** whatever the parser, the line of a string flag is refused by
    [add_argument]: its [type] is the string ['str'] *)
Lemma string_flag_line_refused (help : string) (q : ArgumentParser) :
  add_arg_line ["-c|--comment=string"; help] q = Raise (ValueError "'str' is not callable").
Proof. reflexivity. Qed.

(** no command with the line ["-c|--comment=string: text"] can be
    registered *)
Lemma string_flag_never_registers (parent : SubParsers) (func : Func) (docstr : string) :
  __doc__ func = Some docstr ->
  In "-c|--comment=string: text" (docstring_arg_lines docstr) ->
  exists e, (_add_subcommand parent func).1 = Raise e.
Proof.
  intros Hdoc Hin. apply (add_subcommand_bad_line _ _ _ _ Hdoc Hin).
  intros q. eexists. apply string_flag_line_refused.
Qed.

(** C2 (code defect).  The line ["-c|--comment=string: text"] is one of
    the argument lines of [comment_doc], and the registration of a
    command with this docstring raises [ValueError]: no rule is compiled
    and [--comment=hello] has nothing to bind to.  The parser of the
    command is left with its help action only. *)
Theorem string_flag_registration_raises :
  In "-c|--comment=string: text" (docstring_arg_lines comment_doc)
  /\ (let r := _add_subcommand (add_subparsers "geet")
                               {| fn_id := 0; __doc__ := Some comment_doc |} in
      r.1 = Raise (ValueError "'str' is not callable")
      /\ (_actions <$> parsers r.2 !! 0) = Some [help_action]).
Proof. split; [left; reflexivity | split; reflexivity]. Qed.

(** C8, as the claim states it, is refuted: the line
    ["branch: one of: main, master"] has the spec ["branch"] before its
    first separator, and yet the registration raises [ValueError] where
    the claim has it compile with the help ["one of: main, master"]. *)
Lemma help_with_separator_is_refused :
  In "branch: one of: main, master" (docstring_arg_lines nested_help_doc)
  /\ "branch: one of: main, master" = "branch" +:+ ": " +:+ "one of: main, master"
  /\ occurs ": " "branch" = false
  /\ (_add_subcommand (add_subparsers "geet")
                      {| fn_id := 0; __doc__ := Some nested_help_doc |}).1
     = Raise (ValueError "too many values to unpack (expected 2)").
Proof. split; [left; reflexivity | repeat split; reflexivity]. Qed.

Lemma unpack2_not_two (parts : list string) :
  length parts <> 2 -> exists e, unpack2 parts = Raise e.
Proof.
  destruct parts as [|a [|b [|c parts]]]; simpl; intros H; eauto; congruence.
Qed.

(** C8 (amended).  A non-blank line of the argument block is split on
    every occurrence of [": "] and the loop needs exactly two pieces.
    When there are two, they are the spec and the help text, with the
    separator between them in the line; when there are not, the
    registration raises an exception; and a line without a separator
    gives one piece. *)
Theorem arg_line_needs_one_separator (parent : SubParsers) (func : Func)
    (docstr line : string) :
  __doc__ func = Some docstr ->
  In line (docstring_arg_lines docstr) ->
  (forall spec help,
      split ": " line = [spec; help] ->
      unpack2 (split ": " line) = Ok (spec, help) /\ line = spec +:+ ": " +:+ help)
  /\ (length (split ": " line) <> 2 ->
      exists e, (_add_subcommand parent func).1 = Raise e)
  /\ (occurs ": " line = false -> length (split ": " line) = 1).
Proof.
  intros Hdoc Hin. split; [|split].
  - intros spec help Hs. split; [now rewrite Hs|].
    now apply split_two.
  - intros Hlen. apply (add_subcommand_bad_line _ _ _ _ Hdoc Hin).
    intros q. unfold add_arg_line.
    destruct (unpack2_not_two _ Hlen) as [e ->]. eauto.
  - intros Hocc. now rewrite split_no_occurrence.
Qed.

Lemma arg_line_needs_one_separator_witness :
  In "branch" (docstring_arg_lines no_separator_doc)
  /\ exists e, (_add_subcommand (add_subparsers "geet")
                                {| fn_id := 0; __doc__ := Some no_separator_doc |}).1
               = Raise e.
Proof.
  split; [left; reflexivity|].
  apply (arg_line_needs_one_separator
           (add_subparsers "geet") {| fn_id := 0; __doc__ := Some no_separator_doc |}
           no_separator_doc "branch" eq_refl (or_introl eq_refl)).
  vm_compute. discriminate.
Defined.

Lemma add_parser_lookup (name help description : string) (aliases : list string)
    (sp sp' : SubParsers) (i : nat) (k : string) :
  add_parser name help description aliases sp = Ok (i, sp') ->
  _name_parser_map sp' !! k
  = if decide (k ∈ name :: aliases) then Some i else _name_parser_map sp !! k.
Proof.
  intros H. apply add_parser_inv in H as (_ & _ & _ & -> & _).
  rewrite fold_insert_lookup.
  destruct (decide (k ∈ aliases)) as [Hin|Hnin].
  - rewrite decide_True; [reflexivity | now right].
  - destruct (decide (name = k)) as [->|Hne].
    + rewrite lookup_insert_eq, decide_True; [reflexivity | now left].
    + rewrite lookup_insert_ne by exact Hne.
      rewrite decide_False; [reflexivity|].
      intros Hk. inversion Hk; subst; congruence.
Qed.

(** what [_add_subcommand] leaves when it does not get past
    [add_parser], and when it does *)
Lemma add_subcommand_cases (parent : SubParsers) (func : Func) :
  (exists e, _add_subcommand parent func = (Raise e, parent))
  \/ (exists docstr d i sp1,
         __doc__ func = Some docstr /\ parse_docstring docstr = Some d
         /\ add_parser (name d) (shorthelp d) (longhelp d) (aliases d) parent = Ok (i, sp1)).
Proof.
  unfold _add_subcommand.
  destruct (__doc__ func) as [docstr|] eqn:Hdoc; [|left; eexists; reflexivity].
  destruct (parse_docstring docstr) as [d|] eqn:Hd; [|left; eexists; reflexivity].
  destruct (add_parser _ _ _ _ parent) as [[i sp1]|e] eqn:Hadd;
    [|left; eexists; reflexivity].
  right. exists docstr, d, i, sp1. auto.
Qed.


(** the keys of a command that is registered resolve to its parser *)
Lemma add_subcommand_keys (parent parent' : SubParsers) (func : Func)
    (docstr : string) (d : Declaration) :
  __doc__ func = Some docstr ->
  parse_docstring docstr = Some d ->
  _add_subcommand parent func = (Ok tt, parent') ->
  (forall k, k ∈ name d :: aliases d ->
             _name_parser_map parent' !! k = Some (length (parsers parent)))
  /\ exists p, add_arg_lines (map (split ": ") (declared_arg_lines d))
                            (fresh_parser parent d func) = (Ok tt, p)
               /\ parsers parent' = parsers parent ++ [p]
               /\ _prog_prefix parent' = _prog_prefix parent.
Proof.
  intros Hdoc Hd Hreg.
  destruct (add_parser (name d) (shorthelp d) (longhelp d) (aliases d) parent)
    as [[i sp1]|e] eqn:Hadd.
  - rewrite (add_subcommand_registered _ _ _ _ _ _ Hdoc Hd Hadd) in Hreg.
    injection Hreg as Hr <-. simpl. split.
    + intros k Hk. rewrite (add_parser_lookup _ _ _ _ _ _ _ k Hadd).
      rewrite decide_True by exact Hk.
      now apply add_parser_inv in Hadd as (_ & _ & -> & _).
    + eexists. split; [|split; reflexivity].
      rewrite <- Hr. now destruct (add_arg_lines _ _).
  - unfold _add_subcommand in Hreg. rewrite Hdoc, Hd, Hadd in Hreg. discriminate Hreg.
Qed.



(** *** Parsers during registration *)

Lemma add_arg_line_action (parts : list string) (p : ArgumentParser) :
  add_arg_line parts p = bind (line_action parts (_defaults p)) (_add_action p).
Proof.
  unfold add_arg_line, line_action, add_argument.
  destruct (unpack2 parts) as [[arg arghelp]|]; [|reflexivity]. simpl.
  destruct (compile_arg arg arghelp); reflexivity.
Qed.

Lemma add_action_inv (p p' : ArgumentParser) (a : Action) :
  _add_action p a = Ok p' ->
  (forall s, s ∈ option_strings a -> _option_string_actions p !! s = None)
  /\ _actions p' = _actions p ++ [a]
  /\ _option_string_actions p'
     = fold_left (fun m s => <[s := length (_actions p)]> m) (option_strings a)
                 (_option_string_actions p)
  /\ _defaults p' = _defaults p /\ prog p' = prog p.
Proof.
  unfold _add_action, _check_conflict. intros H.
  destruct (List.filter _ (option_strings a)) eqn:Hf; [|discriminate H].
  injection H as <-. simpl. repeat split; try reflexivity.
  intros s Hs. apply list_elem_of_In in Hs.
  destruct (_option_string_actions p !! s) eqn:Hl; [|reflexivity].
  assert (Hin : In s (List.filter
                        (fun s => bool_decide (is_Some (_option_string_actions p !! s)))
                        (option_strings a))).
  { apply filter_In. split; [exact Hs|]. apply bool_decide_eq_true_2. rewrite Hl. eauto. }
  rewrite Hf in Hin. destruct Hin.
Qed.

Lemma new_parser_wf (prog : string) (description : option string) :
  wf_parser (new_parser prog description).
Proof.
  intros s j. simpl. split.
  - intros H. exists help_action.
    destruct (decide (s = "--help")) as [->|Hne].
    + rewrite lookup_insert_eq in H. injection H as <-. split; [reflexivity|].
      right. left.
    + rewrite lookup_insert_ne in H by congruence.
      destruct (decide (s = "-h")) as [->|Hne'].
      * rewrite lookup_insert_eq in H. injection H as <-. split; [reflexivity|]. left.
      * rewrite lookup_insert_ne in H by congruence. discriminate H.
  - intros (a & Ha & Hs). destruct j as [|j]; [|discriminate Ha].
    injection Ha as <-. simpl in Hs.
    inversion Hs as [|? ? ? Hs']; subst; [reflexivity|].
    inversion Hs' as [|? ? ? Hs'']; subst; [reflexivity | inversion Hs''].
Qed.

Lemma set_defaults_wf (kw : list (string * value)) (p : ArgumentParser) :
  wf_parser p -> wf_parser (set_defaults kw p).
Proof.
  intros Hwf s j. rewrite (Hwf s j). unfold set_defaults; simpl.
  rewrite list_lookup_fmap. split.
  - intros (a & -> & Hs). simpl. eexists. split; [reflexivity|].
    destruct (match dest a with Some d => _ | None => None end); exact Hs.
  - intros (a' & Ha & Hs). destruct (_actions p !! j) as [a|]; [|discriminate Ha].
    exists a. split; [reflexivity|]. injection Ha as <-.
    destruct (match dest a with Some d => _ | None => None end); exact Hs.
Qed.

Lemma add_action_wf (p p' : ArgumentParser) (a : Action) :
  wf_parser p -> _add_action p a = Ok p' -> wf_parser p'.
Proof.
  intros Hwf H. apply add_action_inv in H as (Hfree & Hacts & Hmap & _).
  intros s j. rewrite Hmap, Hacts, fold_insert_lookup.
  destruct (decide (s ∈ option_strings a)) as [Hin|Hnin].
  - split.
    + intros [= <-]. exists a. split; [apply lookup_last | exact Hin].
    + intros (a0 & Ha0 & Hs). f_equal.
      destruct (decide (j < length (_actions p))) as [Hlt|Hge].
      * rewrite lookup_app_l in Ha0 by exact Hlt.
        assert (Hold : _option_string_actions p !! s = Some j) by (apply Hwf; eauto).
        rewrite (Hfree s Hin) in Hold. discriminate Hold.
      * apply lookup_lt_Some in Ha0. rewrite length_app in Ha0. simpl in Ha0. lia.
  - rewrite (Hwf s j). split.
    + intros (a0 & Ha0 & Hs). exists a0. split; [|exact Hs].
      rewrite lookup_app_l; [exact Ha0 | now apply lookup_lt_Some in Ha0].
    + intros (a0 & Ha0 & Hs).
      destruct (decide (j < length (_actions p))) as [Hlt|Hge].
      * rewrite lookup_app_l in Ha0 by exact Hlt. eauto.
      * rewrite lookup_app_r in Ha0 by lia.
        destruct (j - length (_actions p)) as [|n]; [|discriminate Ha0].
        injection Ha0 as ->. contradiction.
Qed.

(** what the loop over the argument lines leaves when it completes *)
Lemma add_arg_lines_inv (lines : list (list string)) (p p' : ArgumentParser) :
  add_arg_lines lines p = (Ok tt, p') ->
  wf_parser p ->
  wf_parser p'
  /\ _defaults p' = _defaults p /\ prog p' = prog p
  /\ (forall j a, _actions p !! j = Some a -> _actions p' !! j = Some a)
  /\ (forall parts, In parts lines ->
        exists a j, line_action parts (_defaults p) = Ok a /\ _actions p' !! j = Some a).
Proof.
  revert p. induction lines as [|l lines IH]; intros p H Hwf; simpl in H.
  - injection H as <-. split; [exact Hwf|]. do 2 (split; [reflexivity|]).
    split; [auto | intros parts []].
  - rewrite add_arg_line_action in H.
    destruct (line_action l (_defaults p)) as [a|] eqn:Ha; [|discriminate H]. simpl in H.
    destruct (_add_action p a) as [p1|] eqn:Hadd; [|discriminate H].
    pose proof (add_action_wf _ _ _ Hwf Hadd) as Hwf1.
    apply add_action_inv in Hadd as (_ & Hacts & _ & Hdef & Hprog).
    destruct (IH p1 H Hwf1) as (Hwf' & Hdef' & Hprog' & Hkeep & Hall).
    split; [exact Hwf'|]. split; [congruence|]. split; [congruence|]. split.
    + intros j a0 Hj. apply Hkeep. rewrite Hacts.
      rewrite lookup_app_l; [exact Hj | now apply lookup_lt_Some in Hj].
    + intros parts [<-|Hin].
      * exists a, (length (_actions p)). split; [exact Ha|].
        apply Hkeep. rewrite Hacts. apply lookup_last.
      * rewrite <- Hdef. now apply Hall.
Qed.

Lemma fresh_parser_wf (parent : SubParsers) (d : Declaration) (func : Func) :
  wf_parser (fresh_parser parent d func).
Proof. apply set_defaults_wf, new_parser_wf. Qed.

Lemma fresh_parser_defaults (parent : SubParsers) (d : Declaration) (func : Func) :
  _defaults (fresh_parser parent d func) = {[ "func" := VFunc (fn_id func) ]}.
Proof. reflexivity. Qed.

(** *** Aliases and the decorated name *)

Lemma parse_docstring_aliases (docstr paragraph : string) (d : Declaration) :
  parse_docstring docstr = Some d ->
  aliases_paragraph docstr = Some paragraph ->
  aliases d = aliases_of_paragraph paragraph.
Proof.
  unfold parse_docstring, aliases_paragraph, take_aliases. intros Hd Hp.
  destruct (name_and_help _) as [[n h]|]; [|discriminate Hd]. simpl in Hd.
  destruct (take_args _) as [al ps]. simpl in Hp.
  destruct (find_header "Aliases:" ps) as [index|]; [|discriminate Hp]. simpl in Hp.
  injection Hd as <-. simpl. now rewrite Hp.
Qed.

(** a command that is registered: its keys resolve to one parser, which
    has the handler as the default of [func] *)
Lemma registered_command (parent parent' : SubParsers) (func : Func)
    (docstr : string) (d : Declaration) :
  __doc__ func = Some docstr ->
  parse_docstring docstr = Some d ->
  _add_subcommand parent func = (Ok tt, parent') ->
  exists i p,
    (forall k, k ∈ name d :: aliases d -> _name_parser_map parent' !! k = Some i)
    /\ parsers parent' !! i = Some p
    /\ _defaults p !! "func" = Some (VFunc (fn_id func)).
Proof.
  intros Hdoc Hd Hreg.
  destruct (add_subcommand_keys _ _ _ _ _ Hdoc Hd Hreg) as (Hkeys & p & Hlines & Hps & _).
  exists (length (parsers parent)), p. split; [exact Hkeys|]. split.
  - rewrite Hps. apply lookup_last.
  - apply add_arg_lines_inv in Hlines as (_ & -> & _); [|apply fresh_parser_wf].
    reflexivity.
Qed.

(** C6.  When the paragraph that the scan finds in a docstring is
    ["Aliases: a, b, c"] and the command is registered, the name of the
    command and the tokens ["a"], ["b"] and ["c"] resolve to one and the
    same parser of the registry, the one that has the handler as its
    default [func]: one object holds the handler and the rules. *)
Theorem aliases_resolve_to_the_command (parent parent' : SubParsers) (func : Func)
    (docstr : string) (d : Declaration) :
  __doc__ func = Some docstr ->
  parse_docstring docstr = Some d ->
  aliases_paragraph docstr = Some "Aliases: a, b, c" ->
  _add_subcommand parent func = (Ok tt, parent') ->
  exists i p,
    (forall k, k ∈ [name d; "a"; "b"; "c"] -> _name_parser_map parent' !! k = Some i)
    /\ parsers parent' !! i = Some p
    /\ _defaults p !! "func" = Some (VFunc (fn_id func)).
Proof.
  intros Hdoc Hd Hal Hreg.
  destruct (registered_command _ _ _ _ _ Hdoc Hd Hreg) as (i & p & Hkeys & Hp & Hf).
  exists i, p. split; [|now split].
  rewrite (parse_docstring_aliases _ _ _ Hd Hal) in Hkeys. exact Hkeys.
Qed.

Lemma aliases_resolve_to_the_command_witness :
  exists i p,
    (forall k, k ∈ ["rebase"; "a"; "b"; "c"] ->
               _name_parser_map
                 (_add_subcommand (add_subparsers "geet")
                                  {| fn_id := 7; __doc__ := Some abc_doc |}).2 !! k
               = Some i)
    /\ parsers (_add_subcommand (add_subparsers "geet")
                                {| fn_id := 7; __doc__ := Some abc_doc |}).2 !! i = Some p
    /\ _defaults p !! "func" = Some (VFunc 7).
Proof.
  exact (aliases_resolve_to_the_command
           (add_subparsers "geet") _ {| fn_id := 7; __doc__ := Some abc_doc |} abc_doc
           {| name := "rebase"; shorthelp := "replay the branch"; args_list := [];
              aliases := ["a"; "b"; "c"]; longhelp := "" |}
           eq_refl eq_refl eq_refl eq_refl).
Defined.

(** C9.  When the decoration of a handler completes, the name that the
    function was defined under is bound to [None], so calling it raises
    [TypeError]; the handler is the default [func] of the parser that the
    name of the command resolves to; and the decoration binds no global
    name to a function: a global that holds one held it before. *)
Theorem decorated_name_is_none (name : string) (func : Func) (m m' : Module_) :
  subcommand name func m = (Ok tt, m') ->
  globals m' !! name = Some VNone
  /\ call_global m' name = Raise (TypeError "'NoneType' object is not callable")
  /\ (exists docstr d i p,
        __doc__ func = Some docstr /\ parse_docstring docstr = Some d
        /\ _name_parser_map (subparsers m') !! Docstring.name d = Some i
        /\ parsers (subparsers m') !! i = Some p
        /\ _defaults p !! "func" = Some (VFunc (fn_id func)))
  /\ (forall k f, globals m' !! k = Some (VFunc f) -> globals m !! k = Some (VFunc f)).
Proof.
  unfold subcommand. intros H.
  destruct (_add_subcommand (subparsers m) func) as [r sp'] eqn:Hreg. simpl in H.
  destruct r as [[]|e]; [|discriminate H]. injection H as <-. simpl.
  split; [apply lookup_insert_eq|]. split.
  { unfold call_global. simpl. now rewrite lookup_insert_eq. }
  split.
  - destruct (add_subcommand_cases (subparsers m) func)
      as [[e He]|(docstr & d & i & sp1 & Hdoc & Hd & _)]; [congruence|].
    destruct (registered_command _ _ _ _ _ Hdoc Hd Hreg) as (j & p & Hkeys & Hp & Hf).
    exists docstr, d, j, p. repeat split; try assumption. apply Hkeys. left.
  - intros k f Hk. destruct (decide (name = k)) as [->|Hne].
    + rewrite lookup_insert_eq in Hk. discriminate Hk.
    + now rewrite lookup_insert_ne in Hk.
Qed.

Lemma decorated_name_is_none_witness :
  globals (subcommand "testing" testing
                      {| subparsers := add_subparsers "geet"; globals := ∅ |}).2
    !! "testing" = Some VNone.
Proof.
  refine (proj1 (decorated_name_is_none
                   "testing" testing
                   {| subparsers := add_subparsers "geet"; globals := ∅ |}
                   (subcommand "testing" testing
                               {| subparsers := add_subparsers "geet"; globals := ∅ |}).2
                   _)).
  vm_compute. reflexivity.
Defined.

End RegistrationClaims.

(** ** Dispatch *)

Section Dispatch.
Import Py Docstring Argparse Geet.

(** without arguments [cli.parse_args] returns an empty namespace: the
    action of the sub-parsers is not required and no default is set on
    the top parser *)
Lemma parse_args_no_arguments (sp : SubParsers) : cli_parse_args sp [] = Ok ∅.
Proof. reflexivity. Qed.

(** C3 (code defect).  Whatever the registry holds, [main] without a
    command token prints the namespace and then raises [AttributeError]:
    the namespace has no attribute [func], so the test [not args.func]
    does not reach [cli.print_help()].  No handler is called, but the run
    ends with an internal error and no help. *)
Theorem main_without_command_raises (sp : SubParsers) :
  main sp [] = ([PrintArgs ∅],
                Raise (AttributeError "'Namespace' object has no attribute 'func'"))
  /\ handlers_called (main sp []) = []
  /\ ~ In PrintHelp (main sp []).1.
Proof.
  split; [reflexivity|]. split; [reflexivity|].
  intros [H|[]]. discriminate H.
Qed.

End Dispatch.

(** ** The top parser and its sub-parsers *)

Section Top.
Import Py Docstring Argparse Geet.
Variable sp : SubParsers.

Lemma top_option_strings :
  map_to_list (_option_string_actions (top_parser sp)) = [("--help", 0); ("-h", 0)].
Proof. vm_compute. reflexivity. Qed.

Lemma partition_eq_dashes (s a b : string) :
  partition_eq (String "-" (String "-" s)) = Some (a, b) ->
  exists a', a = String "-" (String "-" a').
Proof.
  simpl. destruct (partition_eq s) as [[a' b']|]; simpl; [|discriminate].
  intros [= <- <-]. eauto.
Qed.

(** at most one option of the top parser matches an abbreviation *)
Lemma top_option_tuples (c1 : ascii) (s : string) :
  length (_get_option_tuples (top_parser sp) (String "-" (String c1 s))) <= 1.
Proof.
  unfold _get_option_tuples. rewrite top_option_strings.
  destruct (is_prefix_char c1) eqn:Hc1.
  - apply Ascii.eqb_eq in Hc1 as ->. simpl.
    destruct (partition_eq s) as [[a b]|]; simpl.
    + destruct (startswith a "help"); simpl; lia.
    + destruct (startswith s "help"); simpl; lia.
  - destruct c1 as [[] [] [] [] [] [] [] []]; try discriminate Hc1; vm_compute; lia.
Qed.

Lemma top_parse_optional (s : string) :
  exists t, _parse_optional (top_parser sp) s = Ok t.
Proof.
  unfold _parse_optional. destruct s as [|c0 rest]; [eauto|].
  destruct (is_prefix_char c0) eqn:Hc0; cbn [negb]; [|eauto].
  apply Ascii.eqb_eq in Hc0 as ->.
  destruct (_option_string_actions (top_parser sp) !! String prefix_chars rest); [eauto|].
  destruct rest as [|c1 rest]; [eauto|].
  change (String.eqb (String c1 rest) EmptyString) with false. cbv iota.
  destruct (partition_eq _ ≫= _) ; [eauto|].
  pose proof (top_option_tuples c1 rest) as Hlen.
  destruct (_get_option_tuples _ _) as [|t [|t' l]]; simpl in Hlen; [| eauto | lia].
  destruct (_ && _); [eauto|]. destruct (contains _ _); eauto.
Qed.

Lemma top_classify (arg_strings : list string) :
  exists cs, classify_args (top_parser sp) arg_strings = Ok cs
             /\ length cs = length arg_strings.
Proof.
  induction arg_strings as [|s rest (cs & Hcs & Hlen)]; [exists []; auto|].
  simpl. destruct (String.eqb s "--").
  - eexists. split; [reflexivity|]. simpl. now rewrite length_map.
  - destruct (top_parse_optional s) as [t ->]. rewrite Hcs. simpl.
    eexists. split; [reflexivity|]. simpl. now rewrite Hlen.
Qed.

Lemma re_match_star_longest (cs : list sym) (items : list item) (s : list sym)
    (cur : nat) (r : list nat) :
  re_match items (drop (span cs s) s) (cur + span cs s) = Some r ->
  re_match (Star cs :: items) s cur = Some r.
Proof. intros H. simpl. destruct (span cs s); now rewrite H. Qed.

Lemma span_any (syms : list sym) : span [SymDash; SymA; SymO] syms = length syms.
Proof. induction syms as [|[] syms IH]; simpl; congruence. Qed.

Lemma re_match_parser (syms : list sym) :
  re_match [Star [SymDash]; One [SymA]; Star [SymDash; SymA; SymO]; GroupEnd]
           (SymA :: syms) 0 = Some [S (length syms)].
Proof.
  apply re_match_star_longest.
  change (re_match [Star [SymDash; SymA; SymO]; GroupEnd] syms 1 = Some [S (length syms)]).
  apply re_match_star_longest.
  rewrite span_any, drop_all. reflexivity.
Qed.

Lemma top_match_partial (syms : list sym) :
  _match_arguments_partial [subparsers_action sp] (SymA :: syms) = [S (length syms)].
Proof.
  unfold _match_arguments_partial, match_partial_from. simpl length.
  cbn [take concat map _get_nargs_pattern nargs option_strings subparsers_action app].
  now rewrite re_match_parser.
Qed.

Lemma mapM_get_value_str (a : Action) (arg_strings : list string) :
  type_ a = TypeNone -> mapM (_get_value a) arg_strings = Ok (VStr <$> arg_strings).
Proof.
  intros Ht. induction arg_strings as [|s l IH]; [reflexivity|].
  simpl. unfold _get_value at 1. rewrite Ht, IH. reflexivity.
Qed.

Lemma strings_of_str (l : list string) : strings_of (VStr <$> l) = l.
Proof.
  induction l as [|s l IH]; [reflexivity|].
  change (s :: strings_of (VStr <$> l) = s :: l). now rewrite IH.
Qed.

(** the action of the sub-parsers on a command and its arguments *)
Lemma top_take_action (tok : string) (rest : list string) (st : pstate) :
  take_action (call_subparser sp) (top_parser sp) 1 (subparsers_action sp) (tok :: rest) st
  = match _name_parser_map sp !! tok with
    | None => Raise (ArgumentError (InvalidChoice tok))
    | Some _ =>
        bind (call_subparser sp tok rest (namespace st))
             (fun ns => Ok {| namespace := ns; seen_actions := 1 :: seen_actions st;
                              positionals := positionals st; extras := extras st |})
    end.
Proof.
  unfold take_action, _get_values. cbn [nargs subparsers_action].
  rewrite mapM_get_value_str by reflexivity. cbn [bind fmap list_fmap].
  unfold _check_value. cbn [choices subparsers_action].
  destruct (decide (tok ∈ dom (_name_parser_map sp))) as [Hin|Hnin].
  - apply elem_of_dom in Hin as [i Hi]. rewrite Hi. cbn [bind].
    unfold call_action. cbn [cls dest subparsers_action]. now rewrite strings_of_str.
  - apply not_elem_of_dom in Hnin. now rewrite Hnin.
Qed.

Lemma top_consume_positionals (tok : string) (rest : list string) (syms : list sym)
    (ns : gmap string value) :
  length syms = length rest ->
  consume_positionals (call_subparser sp) (top_parser sp) (tok :: rest) (SymA :: syms) 0
                      (top_state ns [] [1])
  = dispatch sp tok rest ns.
Proof.
  intros Hlen. unfold consume_positionals, dispatch.
  change (mapM (action_at (top_parser sp)) (positionals (top_state ns [] [1])))
    with (Ok [subparsers_action sp] : result (list Action)).
  cbn [bind drop]. rewrite top_match_partial.
  cbn [positionals top_state zip zip_with foldM fst snd].
  rewrite Hlen. change (S (length rest)) with (length (tok :: rest)) at 1.
  change (drop 0 (tok :: rest)) with (tok :: rest). rewrite firstn_all, top_take_action.
  destruct (_name_parser_map sp !! tok); [|reflexivity].
  unfold top_state; cbn [namespace]. destruct (call_subparser sp tok rest ns); reflexivity.
Qed.

Lemma top_consume_nothing (arg_strings : list string) (syms : list sym) (i : nat)
    (ns : gmap string value) (seen : list nat) :
  consume_positionals (call_subparser sp) (top_parser sp) arg_strings syms i
                      (top_state ns seen [])
  = Ok (top_state ns seen [], i).
Proof. reflexivity. Qed.

Lemma plain_parse_optional (p : ArgumentParser) (tok : string) :
  startswith "-" tok = false ->
  String.eqb tok "--" = false /\ _parse_optional p tok = Ok None.
Proof.
  destruct tok as [|c tok]; [split; reflexivity|].
  unfold startswith. rewrite Ascii.eqb_sym.
  destruct (Ascii.eqb c "-") eqn:Hc; [destruct tok; discriminate|]. intros _. split.
  - apply String.eqb_neq. intros [= -> _]. discriminate Hc.
  - unfold _parse_optional, is_prefix_char, prefix_chars. now rewrite Hc.
Qed.

Lemma classify_command (tok : string) (rest : list string) :
  startswith "-" tok = false ->
  exists cs, classify_args (top_parser sp) (tok :: rest) = Ok ((SymA, None) :: cs)
             /\ length cs = length rest.
Proof.
  intros Hplain. destruct (plain_parse_optional (top_parser sp) tok Hplain) as [Hdd Hopt].
  destruct (top_classify rest) as (cs & Hcs & Hlen). exists cs. split; [|exact Hlen].
  cbn [classify_args]. now rewrite Hdd, Hopt, Hcs.
Qed.

Lemma max_option_lt (cs : list classified) (k : nat) :
  max_option_string_index cs = Some k -> k < length cs.
Proof.
  revert k. induction cs as [|c cs IH]; intros k; simpl; [discriminate|].
  destruct (max_option_string_index cs) as [j|].
  - intros [= <-]. specialize (IH j eq_refl). lia.
  - destruct c.2; intros [= <-]; lia.
Qed.

Lemma first_option_of_max (cs : list classified) (k : nat) :
  max_option_string_index cs = Some k -> exists j, first_option cs = Some j.
Proof.
  revert k. induction cs as [|[c [t|]] cs IH]; intros k; simpl; [discriminate | eauto |].
  destruct (max_option_string_index cs) as [j|]; [|discriminate].
  intros _. destruct (IH j eq_refl) as [j' ->]. simpl. eauto.
Qed.

(** the end of [_parse_known_args] for the top parser: nothing is left
    over and no action is required *)
Lemma top_required (ns : gmap string value) :
  foldM (check_required [1]) (ns, []) (imap pair (_actions (top_parser sp)))
  = Ok (ns, []).
Proof. reflexivity. Qed.

Lemma top_parse_known_args (tok : string) (rest : list string) (ns : gmap string value) :
  startswith "-" tok = false ->
  _parse_known_args (call_subparser sp) (top_parser sp) (tok :: rest) ns
  = bind (dispatch sp tok rest ns) (fun r => Ok (namespace r.1, [])).
Proof.
  intros Hplain. destruct (classify_command tok rest Hplain) as (cs & Hcs & Hlen).
  unfold _parse_known_args. rewrite Hcs. cbn [bind].
  change {| namespace := ns; seen_actions := [];
            positionals := _get_positional_actions (top_parser sp); extras := [] |}
    with (top_state ns [] [1]).
  assert (Hsyms : length cs.*1 = length rest) by now rewrite length_fmap.
  assert (Hend : forall st,
             dispatch sp tok rest ns = Ok st ->
             st = (top_state (namespace st.1) [1] [], S (length rest))).
  { unfold dispatch. intros st. destruct (_name_parser_map sp !! tok); [|discriminate].
    destruct (call_subparser sp tok rest ns); [|discriminate]. now intros [= <-]. }
  assert (Hfinish : forall st,
             dispatch sp tok rest ns = Ok st ->
             bind (consume_positionals (call_subparser sp) (top_parser sp) (tok :: rest)
                                       (((SymA, None) :: cs).*1) st.2 st.1)
                  (fun r' =>
                     bind (foldM (check_required (seen_actions r'.1))
                                 (namespace r'.1, []) (imap pair (_actions (top_parser sp))))
                          (fun q => match q.2 with
                                    | [] => Ok (q.1, extras r'.1 ++ drop r'.2 (tok :: rest))
                                    | names =>
                                        Raise (SystemExit 2
                                                 (RequiredArguments (prog (top_parser sp)) names))
                                    end))
             = Ok (namespace st.1, [])).
  { intros st Hst. rewrite (Hend st Hst). cbn [fst snd].
    rewrite top_consume_nothing. cbn [bind fst snd seen_actions namespace top_state].
    rewrite top_required. cbn [bind fst snd extras].
    change (S (length rest)) with (length (tok :: rest)). now rewrite drop_all. }
  change (((SymA, None) :: cs).*1) with (SymA :: cs.*1) in *.
  cbn [max_option_string_index snd].
  destruct (max_option_string_index cs) as [k|] eqn:Hmax.
  - destruct (first_option_of_max cs k Hmax) as [j Hj].
    apply max_option_lt in Hmax.
    cbn [parse_loop length Nat.leb bind].
    unfold loop_body, next_option_string_index. cbn [drop first_option].
    rewrite Hj. cbn [fmap option_fmap option_map Nat.add Nat.eqb].
    change (list_fmap (sym * option option_tuple)%type sym fst ((SymA, None) :: cs))
      with (SymA :: cs.*1).
    rewrite (top_consume_positionals tok rest _ ns Hsyms).
    destruct (dispatch sp tok rest ns) as [st|e] eqn:Hst; [|reflexivity].
    specialize (Hfinish st eq_refl). rewrite (Hend st eq_refl) in Hfinish |- *.
    cbn [bind fst snd Nat.ltb Nat.leb].
    assert (Hexit : (length rest <=? k) = false). { apply Nat.leb_gt. rewrite <- Hlen. exact Hmax. }
    rewrite Hexit. cbn [bind fst snd]. exact Hfinish.
  - cbn [bind fst snd].
    rewrite (top_consume_positionals tok rest _ ns Hsyms).
    destruct (dispatch sp tok rest ns) as [st|e] eqn:Hst; [|reflexivity].
    rewrite (Hend st eq_refl).
    cbn [bind fst snd seen_actions namespace top_state].
    rewrite top_required. cbn [bind fst snd extras].
    change (S (length rest)) with (length (tok :: rest)). now rewrite drop_all.
Qed.

Lemma parse_known_args_no_attr
    (call : string -> list string -> gmap string value -> result (gmap string value))
    (p : ArgumentParser) (args : list string) (ns : gmap string value)
    (extras : list value) :
  parse_known_args call p args = Ok (ns, extras) ->
  ns !! _UNRECOGNIZED_ARGS_ATTR = None.
Proof.
  unfold parse_known_args.
  destruct (_parse_known_args call p args _) as [[ns0 ex]|e]; [|destruct e; discriminate].
  destruct (ns0 !! _UNRECOGNIZED_ARGS_ATTR) as [v|] eqn:Hv.
  - destruct v; try discriminate; intros [= <- _]; apply lookup_delete_eq.
  - now intros [= <- _].
Qed.

Lemma parse_known_args_exits
    (call : string -> list string -> gmap string value -> result (gmap string value))
    (p : ArgumentParser) (args : list string) (err : argument_error) :
  parse_known_args call p args <> Raise (ArgumentError err).
Proof.
  unfold parse_known_args.
  destruct (_parse_known_args call p args _) as [[ns0 ex]|e]; [|destruct e; discriminate].
  destruct (ns0 !! _UNRECOGNIZED_ARGS_ATTR) as [[]|]; discriminate.
Qed.

Theorem cli_parse_args_command (tok : string) (rest : list string) :
  startswith "-" tok = false ->
  cli_parse_args sp (tok :: rest)
  = match _name_parser_map sp !! tok ≫= (fun i => parsers sp !! i) with
    | None => Raise (SystemExit 2 (UsageError (_prog_prefix sp)
                                              (match _name_parser_map sp !! tok with
                                               | None => InvalidChoice tok
                                               | Some _ => UnknownParser tok
                                               end)))
    | Some p => dispatched sp (parse_known_args no_subparsers p rest)
    end.
Proof.
  intros Hplain. unfold cli_parse_args, parse_args, parse_known_args at 1.
  change (initial_namespace (top_parser sp)) with (∅ : gmap string value).
  rewrite (top_parse_known_args tok rest ∅ Hplain). unfold dispatch, call_subparser.
  destruct (_name_parser_map sp !! tok) as [i|]; [|reflexivity]. cbn [mbind option_bind].
  destruct (parsers sp !! i) as [p|]; [|reflexivity]. cbn [bind].
  destruct (parse_known_args no_subparsers p rest) as [[ns extras]|e] eqn:Hsub.
  - apply parse_known_args_no_attr in Hsub. cbn [bind fst snd].
    rewrite (right_id_L ∅ (∪) ns). destruct extras as [|v extras].
    + cbn [bind fst snd namespace top_state]. rewrite Hsub. reflexivity.
    + rewrite Hsub. cbn [bind fst snd namespace top_state].
      rewrite lookup_insert_eq. cbn [bind fst snd fmap list_fmap app].
      reflexivity.
  - cbn [bind]. destruct e; try reflexivity.
    now apply parse_known_args_exits in Hsub.
Qed.
End Top.

Section DispatchClaims.
Import Py Docstring Argparse Geet.

Lemma forallb_is_str (l : list string) : forallb is_str (VStr <$> l) = true.
Proof. induction l as [|s l IH]; [reflexivity | exact IH]. Qed.

(** a handler is called only with the namespace that [cli.parse_args]
    returned, and it is the [func] of this namespace *)
Lemma handler_called_after_parse (sp : SubParsers) (argv : list string) (f : nat) :
  f ∈ handlers_called (main sp argv) ->
  exists ns, cli_parse_args sp argv = Ok ns /\ ns !! "func" = Some (VFunc f).
Proof.
  unfold main, handlers_called.
  destruct (cli_parse_args sp argv) as [ns|e]; [|intros H; inversion H].
  destruct (ns !! "func") as [v|] eqn:Hv; [|intros H; inversion H].
  destruct (truthy v); cbn [negb]; [|intros H; inversion H].
  destruct v; cbn [fst omap list_omap]; intros H; inversion H; subst.
  - eauto.
  - match goal with H' : _ ∈ [] |- _ => inversion H' end.
Qed.

(** C5.  When the dispatch fails, because the command token resolves to no
    registered name or alias or because the arguments fail the validation
    of the parser of the command, [main] ends inside [cli.parse_args] with
    the exit status 2 and the usage error [m]: it prints no namespace,
    calls no handler, and so no side effect of a handler occurs. *)
Theorem failed_dispatch_calls_no_handler (sp : SubParsers) (argv : list string)
    (m : message) :
  dispatch_failure sp argv m ->
  main sp argv = ([], Raise (SystemExit 2 m))
  /\ handlers_called (main sp argv) = [].
Proof.
  intros H.
  assert (Hparse : cli_parse_args sp argv = Raise (SystemExit 2 m)).
  { destruct H as [tok rest Hplain Hnone | tok rest i p m Hplain Hi Hp Hsub
                   | tok rest i p ns unrecognized Hplain Hi Hp Hsub Hne];
      rewrite (cli_parse_args_command sp tok rest Hplain).
    - now rewrite Hnone.
    - rewrite Hi. cbn [mbind option_bind]. now rewrite Hp, Hsub.
    - rewrite Hi. cbn [mbind option_bind]. rewrite Hp, Hsub. unfold dispatched.
      destruct unrecognized as [|s l]; [congruence|].
      change (VStr <$> s :: l) with (VStr s :: (VStr <$> l)). cbv iota.
      change (VStr s :: (VStr <$> l)) with (VStr <$> s :: l).
      now rewrite forallb_is_str, strings_of_str. }
  unfold main, handlers_called. rewrite Hparse. split; reflexivity.
Qed.

End DispatchClaims.

(** ** The toggle [-k|--kill] *)

Section KillFlag.
Import Py Textwrap Docstring Argparse Geet.

Lemma kill_line_action (func : value) :
  line_action (split ": " "-k|--kill: kill") {[ "func" := func ]} = Ok kill_action.
Proof. reflexivity. Qed.

(** a toggle takes the strings that follow it for nothing: the option is
    consumed alone and its destination becomes [True] *)
Lemma kill_consume_optional
    (call : string -> list string -> gmap string value -> result (gmap string value))
    (p : ArgumentParser) (arg_strings : list string) (pattern : list sym)
    (start_index : nat) (cs : list classified) (st : pstate) (j : nat)
    (c : sym) (option_string : string) :
  _actions p !! j = Some kill_action ->
  cs !! start_index = Some (c, Some (Some j, option_string, None)) ->
  consume_optional call p arg_strings pattern start_index cs st
  = Ok ({| namespace := <["kill" := VBool true]> (namespace st);
           seen_actions := j :: seen_actions st;
           positionals := positionals st; extras := extras st |},
        start_index + 1).
Proof.
  intros Hj Hcs. unfold consume_optional. rewrite Hcs.
  unfold following_args, take_actions, action_at. rewrite Hj. cbn [bind].
  change (_match_argument kill_action (drop (start_index + 1) pattern)) with (Ok 0 : result nat).
  cbn [bind fst snd foldM take]. unfold action_at. rewrite Hj. cbn [bind].
  rewrite Nat.add_0_r. reflexivity.
Qed.

Lemma parse_optional_exact (p : ArgumentParser) (option_string : string) (j : nat) :
  startswith "-" option_string = true ->
  _option_string_actions p !! option_string = Some j ->
  _parse_optional p option_string = Ok (Some (Some j, option_string, None)).
Proof.
  intros Hdash Hj. unfold _parse_optional.
  destruct option_string as [|c0 rest]; [discriminate Hdash|].
  unfold startswith in Hdash. unfold is_prefix_char, prefix_chars.
  rewrite Ascii.eqb_sym.
  destruct (Ascii.eqb "-" c0); [|destruct rest; discriminate Hdash].
  cbn [negb]. now rewrite Hj.
Qed.

Lemma main_calls (sp : SubParsers) (tok : string) (rest : list string) (i : nat)
    (p : ArgumentParser) (ns : gmap string value) (f : nat) :
  startswith "-" tok = false ->
  _name_parser_map sp !! tok = Some i -> parsers sp !! i = Some p ->
  parse_known_args no_subparsers p rest = Ok (ns, []) ->
  ns !! "func" = Some (VFunc f) ->
  main sp (tok :: rest) = ([PrintArgs ns; CallHandler f ns], Ok tt).
Proof.
  intros Hplain Hi Hp Hsub Hf. unfold main.
  rewrite (cli_parse_args_command sp tok rest Hplain), Hi.
  cbn [mbind option_bind]. rewrite Hp, Hsub. cbn [dispatched]. now rewrite Hf.
Qed.

Lemma kill_parser_parses (parent : SubParsers) (d : Declaration) (func : Func) :
  parse_known_args no_subparsers (kill_parser parent d func) []
  = Ok (kill_namespace false (fn_id func), [])
  /\ parse_known_args no_subparsers (kill_parser parent d func) ["-k"]
     = Ok (kill_namespace true (fn_id func), [])
  /\ parse_known_args no_subparsers (kill_parser parent d func) ["--kill"]
     = Ok (kill_namespace true (fn_id func), []).
Proof. repeat split; vm_compute; reflexivity. Qed.

(** C7.  When a command whose argument lines include ["-k|--kill: kill"]
    is registered, its parser has the rule [kill_action]: a [store_true]
    action (a boolean toggle) with the default [False].  Both [-k] and
    [--kill] are parsed as this option; consuming it sets [kill] to [True],
    takes none of the strings that follow and goes on with the next one.
    When the line is the whole argument block, the command alone calls the
    handler with [kill] false and the command with either form calls it with
    [kill] true. *)
Theorem kill_flag_rule (parent parent' : SubParsers) (func : Func)
    (docstr : string) (d : Declaration) :
  __doc__ func = Some docstr ->
  parse_docstring docstr = Some d ->
  In "-k|--kill: kill" (declared_arg_lines d) ->
  _add_subcommand parent func = (Ok tt, parent') ->
  exists i p j,
    _name_parser_map parent' !! name d = Some i
    /\ parsers parent' !! i = Some p
    /\ _actions p !! j = Some kill_action
    /\ (forall option_string,
          option_string ∈ ["-k"; "--kill"] ->
          _parse_optional p option_string = Ok (Some (Some j, option_string, None)))
    /\ (forall call arg_strings pattern start_index cs st c option_string,
          cs !! start_index = Some (c, Some (Some j, option_string, None)) ->
          consume_optional call p arg_strings pattern start_index cs st
          = Ok ({| namespace := <["kill" := VBool true]> (namespace st);
                   seen_actions := j :: seen_actions st;
                   positionals := positionals st; extras := extras st |},
                start_index + 1))
    /\ (declared_arg_lines d = ["-k|--kill: kill"] ->
        startswith "-" (name d) = false ->
        (exists ns, main parent' [name d] = ([PrintArgs ns; CallHandler (fn_id func) ns], Ok tt)
                    /\ ns !! "kill" = Some (VBool false))
        /\ (forall option_string,
              option_string ∈ ["-k"; "--kill"] ->
              exists ns, main parent' [name d; option_string]
                         = ([PrintArgs ns; CallHandler (fn_id func) ns], Ok tt)
                         /\ ns !! "kill" = Some (VBool true))).
Proof.
  intros Hdoc Hd Hline Hreg.
  destruct (add_subcommand_keys _ _ _ _ _ Hdoc Hd Hreg) as (Hkeys & p & Hlines & Hps & _).
  pose proof Hlines as Hinv.
  apply add_arg_lines_inv in Hinv as (Hwf & _ & _ & _ & Hall); [|apply fresh_parser_wf].
  destruct (Hall (split ": " "-k|--kill: kill") (in_map _ _ _ Hline)) as (a & j & Ha & Hj).
  rewrite fresh_parser_defaults, kill_line_action in Ha. injection Ha as <-.
  assert (Hopt : forall option_string,
             option_string ∈ ["-k"; "--kill"] ->
             _option_string_actions p !! option_string = Some j).
  { intros option_string Hin. apply Hwf. eauto. }
  exists (length (parsers parent)), p, j.
  split; [apply Hkeys; left|]. split; [rewrite Hps; apply lookup_last|].
  split; [exact Hj|]. split; [|split].
  - intros option_string Hin. apply parse_optional_exact; [|now apply Hopt].
    inversion Hin as [|? ? ? Hin']; subst; [reflexivity|].
    inversion Hin' as [|? ? ? Hin'']; subst; [reflexivity | inversion Hin''].
  - intros call arg_strings pattern start_index cs st c option_string Hcs.
    now apply kill_consume_optional with (c := c) (option_string := option_string).
  - intros Hexact Hplain. rewrite Hexact in Hlines.
    assert (Hp : parsers parent' !! length (parsers parent) = Some p)
      by (rewrite Hps; apply lookup_last).
    assert (Hp' : p = kill_parser parent d func) by (unfold kill_parser; now rewrite Hlines).
    assert (Hi : _name_parser_map parent' !! name d = Some (length (parsers parent)))
      by (apply Hkeys; left).
    destruct (kill_parser_parses parent d func) as (H0 & H1 & H2).
    rewrite <- Hp' in H0, H1, H2. split.
    + exists (kill_namespace false (fn_id func)). split; [|reflexivity].
      now apply (main_calls parent' (name d) [] (length (parsers parent)) p).
    + intros option_string Hin.
      exists (kill_namespace true (fn_id func)). split; [|reflexivity].
      assert (Hcases : option_string = "-k" \/ option_string = "--kill").
      { inversion Hin as [|? ? ? Hin']; [now left|].
        inversion Hin' as [|? ? ? Hin'']; [now right | inversion Hin'']. }
      destruct Hcases as [-> | ->].
      * now apply (main_calls parent' (name d) ["-k"] (length (parsers parent)) p).
      * now apply (main_calls parent' (name d) ["--kill"] (length (parsers parent)) p).
Qed.

End KillFlag.

(** ** The commands of the repository and the scenarios of the claims *)

Section Scenarios.
Import Py Textwrap Docstring Argparse Geet.

Lemma geet_module_loads : (geet_module "geet").1 = Ok tt.
Proof. reflexivity. Qed.

Lemma failed_dispatch_calls_no_handler_witness :
  main geet_subparsers ["bogus"]
  = ([], Raise (SystemExit 2 (UsageError "geet" (InvalidChoice "bogus"))))
  /\ handlers_called (main geet_subparsers ["bogus"]) = [].
Proof.
  exact (failed_dispatch_calls_no_handler
           geet_subparsers ["bogus"] _
           (UnknownCommand geet_subparsers "bogus" [] eq_refl eq_refl)).
Defined.

Example missing_positional_fails :
  dispatch_failure geet_subparsers ["testing"; "main"]
                   (RequiredArguments "geet testing" ["files"]).
Proof.
  apply (InvalidArguments geet_subparsers "testing" ["main"] 0 testing_parser);
    vm_compute; reflexivity.
Qed.

Example unknown_flag_fails :
  dispatch_failure geet_subparsers ["testing"; "main"; "a.txt"; "--bogus"]
                   (UnrecognizedArguments "geet" ["--bogus"]).
Proof.
  apply (UnknownArguments geet_subparsers "testing" ["main"; "a.txt"; "--bogus"]
                          0 testing_parser
                          (<["files" := VList [VList [VStr "a.txt"]]]>
                             (<["branch" := VStr "main"]>
                                (<["kill" := VBool false]> {[ "func" := VFunc 0 ]}))));
    try (vm_compute; reflexivity).
  discriminate.
Qed.

Example type_conversion_fails :
  dispatch_failure log_subparsers ["log"; "--num=x"]
                   (UsageError "geet log" (InvalidValue "int" "x")).
Proof.
  apply (InvalidArguments log_subparsers "log" ["--num=x"] 0 log_parser);
    vm_compute; reflexivity.
Qed.

Lemma kill_flag_rule_witness :
  exists i p j,
    _name_parser_map (_add_subcommand (add_subparsers "geet")
                                      {| fn_id := 3; __doc__ := Some kill_doc |}).2
      !! "stop" = Some i
    /\ parsers (_add_subcommand (add_subparsers "geet")
                                {| fn_id := 3; __doc__ := Some kill_doc |}).2 !! i = Some p
    /\ _actions p !! j = Some kill_action.
Proof.
  destruct (kill_flag_rule
              (add_subparsers "geet") _ {| fn_id := 3; __doc__ := Some kill_doc |} kill_doc
              {| name := "stop"; shorthelp := "stop the job";
                 args_list := [nl +:+ "   -k|--kill: kill"];
                 aliases := []; longhelp := "" |}
              eq_refl eq_refl (or_introl eq_refl) eq_refl)
    as (i & p & j & Hi & Hp & Hj & _).
  exists i, p, j. auto.
Defined.

(** C1 (code defect).  The line ["files...: One or more files."] of
    [files_doc] compiles to a required positional rule that takes one or
    more strings, and the command without a file exits with the error of
    a missing argument.  With the files [a b c] the handler is called with
    [files] bound to a list that holds the list of the three strings,
    not to the flat sequence: the action is [append], which adds the
    values of one occurrence, themselves a list under [nargs="+"], as one
    element.  The [testing] command of the repository does the same. *)
Theorem repeated_positional_is_nested :
  let r := _add_subcommand (add_subparsers "geet")
                           {| fn_id := 4; __doc__ := Some files_doc |} in
  In "files...: One or more files." (docstring_arg_lines files_doc)
  /\ r.1 = Ok tt
  /\ (_actions <$> parsers r.2 !! 0) = Some [help_action; files_action]
  /\ main r.2 ["add"] = ([], Raise (SystemExit 2 (RequiredArguments "geet add" ["files"])))
  /\ (exists ns, main r.2 ["add"; "a"; "b"; "c"] = ([PrintArgs ns; CallHandler 4 ns], Ok tt)
                 /\ ns !! "files" = Some (VList [VList [VStr "a"; VStr "b"; VStr "c"]])
                 /\ ns !! "files" <> Some (VList [VStr "a"; VStr "b"; VStr "c"]))
  /\ (exists ns, main geet_subparsers ["testing"; "main"; "a"; "b"; "c"]
                 = ([PrintArgs ns; CallHandler 0 ns], Ok tt)
                 /\ ns !! "files" = Some (VList [VList [VStr "a"; VStr "b"; VStr "c"]])).
Proof.
  cbv zeta. split; [left; reflexivity|]. split; [reflexivity|]. split; [reflexivity|].
  split; [vm_compute; reflexivity|]. split.
  - exists (<["files" := VList [VList [VStr "a"; VStr "b"; VStr "c"]]]>
              {[ "func" := VFunc 4 ]}).
    split; [vm_compute; reflexivity|]. split; [reflexivity | discriminate].
  - exists (<["files" := VList [VList [VStr "a"; VStr "b"; VStr "c"]]]>
              (<["branch" := VStr "main"]>
                 (<["kill" := VBool false]> {[ "func" := VFunc 0 ]}))).
    split; [vm_compute; reflexivity | reflexivity].
Qed.

End Scenarios.

(** ** The loop of [_parse_known_args] ends *)

Section Fuel.
Import Py Docstring Argparse Geet.

Lemma fuel_safe_ok {A} (a : A) : fuel_safe (Ok a).
Proof. discriminate. Qed.

Lemma fuel_safe_bind {A B} (r : result A) (k : A -> result B) :
  fuel_safe r -> (forall a, fuel_safe (k a)) -> fuel_safe (bind r k).
Proof.
  destruct r as [a|e]; simpl; [auto|].
  intros H _ [= ->]. now apply H.
Qed.

Lemma fuel_safe_bind_eq {A B} (r : result A) (k : A -> result B) :
  fuel_safe r -> (forall a, r = Ok a -> fuel_safe (k a)) -> fuel_safe (bind r k).
Proof.
  destruct r as [a|e]; simpl; [auto|].
  intros H _ [= ->]. now apply H.
Qed.

Lemma fuel_safe_foldM {A S} (f : S -> A -> result S) (l : list A) (s : S) :
  (forall s a, fuel_safe (f s a)) -> fuel_safe (foldM f s l).
Proof.
  intros Hf. revert s. induction l as [|a l IH]; intros s; simpl;
    [apply fuel_safe_ok | apply fuel_safe_bind; auto].
Qed.

Lemma fuel_safe_mapM {A B} (f : A -> result B) (l : list A) :
  (forall a, fuel_safe (f a)) -> fuel_safe (mapM f l).
Proof.
  intros Hf. induction l as [|a l IH]; simpl; [apply fuel_safe_ok|].
  apply fuel_safe_bind; [auto|]. intros b. apply fuel_safe_bind; [auto|].
  intros bs. apply fuel_safe_ok.
Qed.

Ltac safe :=
  repeat first
    [ apply fuel_safe_ok
    | discriminate
    | apply fuel_safe_bind; [|intros ?]
    | apply fuel_safe_foldM; intros ? ?
    | apply fuel_safe_mapM; intros ?
    | match goal with
      | |- fuel_safe (match ?x with _ => _ end) => destruct x
      | |- fuel_safe (if ?x then _ else _) => destruct x
      | |- fuel_safe (let '(_, _) := ?x in _) => destruct x
      | |- fuel_safe (Raise ?e) => discriminate
      end ].

Lemma get_value_safe (a : Action) (s : string) : fuel_safe (_get_value a s).
Proof. unfold _get_value. safe. Qed.

Lemma check_value_safe (a : Action) (v : value) : fuel_safe (_check_value a v).
Proof. unfold _check_value. safe. Qed.

Lemma get_values_safe (a : Action) (l : list string) : fuel_safe (_get_values a l).
Proof.
  unfold _get_values.
  safe; auto using get_value_safe, check_value_safe.
Qed.

Lemma parse_optional_safe (p : ArgumentParser) (s : string) :
  fuel_safe (_parse_optional p s).
Proof. unfold _parse_optional. safe. Qed.

Lemma classify_safe (p : ArgumentParser) (l : list string) : fuel_safe (classify_args p l).
Proof.
  induction l as [|s l IH]; simpl; [apply fuel_safe_ok|].
  destruct (String.eqb s "--"); [apply fuel_safe_ok|].
  apply fuel_safe_bind; [apply parse_optional_safe|]. intros t.
  apply fuel_safe_bind; [exact IH|]. intros cs. apply fuel_safe_ok.
Qed.

Lemma classify_length (p : ArgumentParser) (l : list string) (cs : list classified) :
  classify_args p l = Ok cs -> length cs = length l.
Proof.
  revert cs. induction l as [|s l IH]; intros cs; simpl; [now intros [= <-]|].
  destruct (String.eqb s "--"); [intros [= <-]; simpl; now rewrite length_map|].
  destruct (_parse_optional p s) as [t|]; [|discriminate]. simpl.
  destruct (classify_args p l) as [cs'|]; [|discriminate]. simpl.
  intros [= <-]. simpl. now rewrite (IH cs' eq_refl).
Qed.

Variable call_parser : string -> list string -> gmap string value -> result (gmap string value).
Variable p : ArgumentParser.
Hypothesis call_parser_safe : forall n l ns, fuel_safe (call_parser n l ns).

Lemma action_at_safe (i : nat) : fuel_safe (action_at p i).
Proof. unfold action_at. safe. Qed.

Lemma call_action_safe (a : Action) (ns : gmap string value) (v : value) :
  fuel_safe (call_action call_parser p a ns v).
Proof. unfold call_action. safe; apply call_parser_safe. Qed.

Lemma take_action_safe (i : nat) (a : Action) (l : list string) (st : pstate) :
  fuel_safe (take_action call_parser p i a l st).
Proof.
  unfold take_action. safe; auto using get_values_safe, call_action_safe.
Qed.

Lemma take_actions_safe (tuples : list (nat * list string)) (st : pstate) :
  fuel_safe (take_actions call_parser p tuples st).
Proof.
  unfold take_actions. apply fuel_safe_foldM. intros s [i l].
  apply fuel_safe_bind; [apply action_at_safe|]. intros a. apply take_action_safe.
Qed.

Lemma match_argument_safe (a : Action) (l : list sym) : fuel_safe (_match_argument a l).
Proof. unfold _match_argument. safe. Qed.

Lemma following_args_safe (args : list string) (pattern : list sym) (start i : nat) :
  fuel_safe (following_args p args pattern start i).
Proof.
  unfold following_args. safe; auto using action_at_safe, match_argument_safe.
Qed.

Lemma explicit_args_safe (args : list string) (pattern : list sym) (start i : nat)
    (option_string explicit_arg : string) :
  fuel_safe (explicit_args p args pattern start i option_string explicit_arg).
Proof.
  revert i option_string. induction explicit_arg as [|c rest IH]; intros i option_string.
  - simpl. safe; auto using action_at_safe, match_argument_safe.
  - simpl. apply fuel_safe_bind; [apply action_at_safe|]. intros a.
    apply fuel_safe_bind; [apply match_argument_safe|]. intros n.
    destruct n as [|[|n]]; [|apply fuel_safe_ok|discriminate].
    destruct option_string as [|char [|c1 s]]; try discriminate.
    destruct (is_prefix_char c1); [discriminate|].
    destruct (_option_string_actions p !! _) as [i'|]; [|discriminate].
    apply fuel_safe_bind; [|intros r; apply fuel_safe_ok].
    destruct rest; [apply following_args_safe | apply IH].
Qed.

Lemma consume_optional_safe (args : list string) (pattern : list sym) (start : nat)
    (cs : list classified) (st : pstate) :
  fuel_safe (consume_optional call_parser p args pattern start cs st).
Proof.
  unfold consume_optional.
  destruct (cs !! start) as [[c [[[[i|] o] e]|]]|]; try discriminate.
  apply fuel_safe_bind.
  - destruct e; [apply explicit_args_safe | apply following_args_safe].
  - intros r. apply fuel_safe_bind; [apply take_actions_safe|].
    intros st'. apply fuel_safe_ok.
Qed.

Lemma consume_positionals_safe (args : list string) (pattern : list sym) (start : nat)
    (st : pstate) :
  fuel_safe (consume_positionals call_parser p args pattern start st).
Proof.
  unfold consume_positionals.
  apply fuel_safe_bind; [apply fuel_safe_mapM, action_at_safe|]. intros actions.
  apply fuel_safe_bind; [|intros r; apply fuel_safe_ok].
  apply fuel_safe_foldM. intros [st' s] [[i a] n].
  apply fuel_safe_bind; [apply take_action_safe | intros st''; apply fuel_safe_ok].
Qed.

Lemma loop_body_safe (args : list string) (cs : list classified) (start : nat)
    (st : pstate) :
  fuel_safe (loop_body call_parser p args cs start st).
Proof.
  unfold loop_body. destruct (next_option_string_index cs start); [|discriminate].
  destruct (start =? n); [apply consume_optional_safe|].
  apply fuel_safe_bind; [apply consume_positionals_safe|]. intros r.
  destruct (start <? r.2); [apply fuel_safe_ok | apply consume_optional_safe].
Qed.

(** each turn of the loop moves the index forward *)
Lemma following_args_progress (args : list string) (pattern : list sym) (start i : nat)
    (r : list (nat * list string) * nat) :
  following_args p args pattern start i = Ok r -> start < r.2.
Proof.
  unfold following_args. destruct (action_at p i) as [a|]; [|discriminate]. simpl.
  destruct (_match_argument a _) as [n|]; [|discriminate]. simpl.
  intros [= <-]. simpl. lia.
Qed.

Lemma explicit_args_progress (args : list string) (pattern : list sym) (start i : nat)
    (option_string explicit_arg : string) (r : list (nat * list string) * nat) :
  explicit_args p args pattern start i option_string explicit_arg = Ok r -> start < r.2.
Proof.
  revert i option_string r.
  induction explicit_arg as [|c rest IH]; intros i option_string r; simpl;
    destruct (action_at p i) as [a|]; try discriminate; simpl;
    destruct (_match_argument a [SymA]) as [[|[|n]]|]; try discriminate; simpl;
    try (intros [= <-]; simpl; lia).
  destruct option_string as [|char [|c1 s]]; try discriminate.
  destruct (is_prefix_char c1); [discriminate|].
  destruct (_option_string_actions p !! _) as [i'|]; [|discriminate].
  destruct rest as [|c' rest].
  - destruct (following_args p args pattern start i') as [r'|] eqn:Hf; [|discriminate].
    simpl. intros [= <-]. simpl. now apply following_args_progress in Hf.
  - destruct (explicit_args p args pattern start i' _ (String c' rest)) as [r'|] eqn:He;
      [|discriminate].
    simpl. intros [= <-]. simpl. now apply IH in He.
Qed.

Lemma consume_optional_progress (args : list string) (pattern : list sym) (start : nat)
    (cs : list classified) (st : pstate) (r : pstate * nat) :
  consume_optional call_parser p args pattern start cs st = Ok r -> start < r.2.
Proof.
  unfold consume_optional.
  destruct (cs !! start) as [[c [[[[i|] o] e]|]]|]; try discriminate.
  - destruct (match e with Some _ => _ | None => _ end) as [r'|] eqn:Hr; [|discriminate].
    simpl. destruct (take_actions call_parser p r'.1 st); [|discriminate]. simpl.
    intros [= <-]. simpl.
    destruct e; [now apply explicit_args_progress in Hr
                | now apply following_args_progress in Hr].
  - intros [= <-]. simpl. lia.
Qed.

Lemma loop_body_progress (args : list string) (cs : list classified) (start : nat)
    (st : pstate) (r : pstate * nat) :
  loop_body call_parser p args cs start st = Ok r -> start < r.2.
Proof.
  unfold loop_body, next_option_string_index.
  destruct (first_option (drop start cs)) as [k|]; [|discriminate]. simpl.
  destruct (start =? start + k) eqn:Hk; [apply consume_optional_progress|].
  destruct (consume_positionals _ _ _ _ _ _) as [r'|]; [|discriminate]. simpl.
  destruct (start <? r'.2) eqn:Hlt.
  - intros [= <-]. now apply Nat.ltb_lt.
  - intros H. apply consume_optional_progress in H. lia.
Qed.

(** the fuel is enough: the loop does not run out of it *)
Lemma parse_loop_safe (fuel : nat) (args : list string) (cs : list classified)
    (max start : nat) (st : pstate) :
  S max - start <= fuel ->
  fuel_safe (parse_loop call_parser p fuel args cs max start st).
Proof.
  revert start st. induction fuel as [|fuel IH]; intros start st Hfuel; simpl;
    destruct (start <=? max) eqn:Hle; try apply fuel_safe_ok.
  - apply Nat.leb_le in Hle. lia.
  - destruct (loop_body call_parser p args cs start st) as [r|e] eqn:Hbody.
    + simpl. apply IH. apply loop_body_progress in Hbody. lia.
    + pose proof (loop_body_safe args cs start st) as Hsafe.
      rewrite Hbody in Hsafe. exact Hsafe.
Qed.

Lemma check_required_safe (seen : list nat) (acc : gmap string value * list string)
    (ia : nat * Action) :
  fuel_safe (check_required seen acc ia).
Proof.
  unfold check_required. destruct ia as [i a].
  destruct (bool_decide _); [apply fuel_safe_ok|].
  destruct (required a); [apply fuel_safe_ok|].
  destruct (default_ a) as [[]|]; try apply fuel_safe_ok.
  destruct (dest a); [|apply fuel_safe_ok].
  destruct (acc.1 !! _) as [[]|]; try apply fuel_safe_ok.
  destruct (String.eqb _ _); [|apply fuel_safe_ok].
  apply fuel_safe_bind; [apply get_value_safe | intros v; apply fuel_safe_ok].
Qed.

Lemma _parse_known_args_safe (args : list string) (ns : gmap string value) :
  fuel_safe (_parse_known_args call_parser p args ns).
Proof.
  unfold _parse_known_args.
  apply fuel_safe_bind_eq; [apply classify_safe|]. intros cs Hcs.
  apply classify_length in Hcs.
  apply fuel_safe_bind.
  { destruct (max_option_string_index cs) as [max|] eqn:Hmax; [|apply fuel_safe_ok].
    apply parse_loop_safe. apply max_option_lt in Hmax. lia. }
  intros r. apply fuel_safe_bind; [apply consume_positionals_safe|]. intros r'.
  apply fuel_safe_bind; [apply fuel_safe_foldM; intros; apply check_required_safe|].
  intros q. destruct q.2; [apply fuel_safe_ok | discriminate].
Qed.

Lemma parse_known_args_safe (args : list string) :
  fuel_safe (parse_known_args call_parser p args).
Proof.
  unfold parse_known_args.
  pose proof (_parse_known_args_safe args (initial_namespace p)) as H.
  destruct (_parse_known_args _ _ _ _) as [[ns extras]|e].
  - destruct (ns !! _) as [[]|]; first [apply fuel_safe_ok | discriminate].
  - destruct e; first [discriminate | exfalso; now apply H].
Qed.

Lemma parse_args_safe (args : list string) : fuel_safe (parse_args call_parser p args).
Proof.
  unfold parse_args. apply fuel_safe_bind; [apply parse_known_args_safe|].
  intros r. destruct r.2; [apply fuel_safe_ok|]. destruct (forallb _ _); discriminate.
Qed.
End Fuel.

Section Totality.
Import Py Docstring Argparse Geet.

Lemma no_subparsers_safe (n : string) (l : list string) (ns : gmap string value) :
  fuel_safe (no_subparsers n l ns).
Proof. discriminate. Qed.

Lemma call_subparser_safe (sp : SubParsers) (n : string) (l : list string)
    (ns : gmap string value) :
  fuel_safe (call_subparser sp n l ns).
Proof.
  unfold call_subparser. destruct (_ ≫= _) as [parser|]; [|discriminate].
  apply fuel_safe_bind; [apply parse_known_args_safe, no_subparsers_safe|].
  intros r. destruct r.2; [apply fuel_safe_ok|].
  destruct (_ !! _) as [[]|]; first [apply fuel_safe_ok | discriminate].
Qed.

(** [cli.parse_args] is total: whatever the registry and the arguments, the
    fuel of the loop is enough *)
Theorem cli_parse_args_total (sp : SubParsers) (argv : list string) :
  cli_parse_args sp argv <> Raise OutOfFuel.
Proof. apply parse_args_safe, call_subparser_safe. Qed.

End Totality.

(** * Properties of the code beyond the claims *)

Section RegistryGrowth.
Import Py Textwrap Docstring Argparse Geet.

(** the loop over the argument lines, whatever its outcome: the parser
    keeps its defaults, its name and the actions it had *)
Lemma add_arg_lines_keeps (lines : list (list string)) (p : ArgumentParser) :
  wf_parser p ->
  let p' := (add_arg_lines lines p).2 in
  wf_parser p' /\ _defaults p' = _defaults p /\ prog p' = prog p
  /\ (forall j a, _actions p !! j = Some a -> _actions p' !! j = Some a).
Proof.
  revert p. induction lines as [|l lines IH]; intros p Hwf; cbn zeta.
  - simpl. auto.
  - simpl. destruct (add_arg_line l p) as [p1|e] eqn:Hl; [|simpl; auto].
    rewrite add_arg_line_action in Hl.
    destruct (line_action l (_defaults p)) as [a|] eqn:Ha; [|discriminate Hl]. simpl in Hl.
    pose proof (add_action_wf _ _ _ Hwf Hl) as Hwf1.
    apply add_action_inv in Hl as (_ & Hacts & _ & Hdef & Hprog).
    destruct (IH p1 Hwf1) as (Hwf' & Hdef' & Hprog' & Hkeep).
    split; [exact Hwf'|]. split; [congruence|]. split; [congruence|].
    intros j a0 Hj. apply Hkeep. rewrite Hacts.
    rewrite lookup_app_l; [exact Hj | now apply lookup_lt_Some in Hj].
Qed.

(** where the loop stops when it raises: the lines before have been
    added and the line it stops at is refused *)
Lemma add_arg_lines_stops (lines : list (list string)) (p p' : ArgumentParser) (e : exn) :
  add_arg_lines lines p = (Raise e, p') ->
  exists n parts,
    lines !! n = Some parts
    /\ add_arg_lines (take n lines) p = (Ok tt, p')
    /\ add_arg_line parts p' = Raise e.
Proof.
  revert p. induction lines as [|l lines IH]; intros p H; simpl in H; [discriminate H|].
  destruct (add_arg_line l p) as [p1|e1] eqn:Hl.
  - destruct (IH p1 H) as (n & parts & Hn & Htake & Hparts).
    exists (S n), parts. split; [exact Hn|]. split; [|exact Hparts].
    simpl. now rewrite Hl.
  - injection H as <- <-. exists 0, l. auto.
Qed.

Lemma add_parser_fresh (name help description : string) (aliases : list string)
    (sp : SubParsers) :
  _name_parser_map sp !! name = None ->
  (forall alias, alias ∈ aliases -> _name_parser_map sp !! alias = None) ->
  exists sp', add_parser name help description aliases sp = Ok (length (parsers sp), sp').
Proof.
  intros Hname Hal. unfold add_parser. rewrite Hname.
  destruct (List.find _ aliases) as [alias|] eqn:Hfind; [|eauto].
  apply find_some in Hfind as [Hin Hsome]. apply list_elem_of_In in Hin.
  apply bool_decide_eq_true_1 in Hsome. rewrite (Hal alias Hin) in Hsome.
  destruct Hsome as [? [=]].
Qed.

End RegistryGrowth.

Section Registry.
Import Py Textwrap Docstring Argparse Geet.



(** X11.  Nothing is rolled back when an argument line is refused.  When
    the name and the aliases are free and the registration raises, the
    command is registered all the same: its name and its aliases resolve
    to the new parser, which has the handler as its default [func] and
    the rules of the lines before the one that is refused; the error is
    the one of this line. *)
Theorem failed_line_leaves_command (parent parent' : SubParsers) (func : Func)
    (docstr : string) (d : Declaration) (e : exn) :
  __doc__ func = Some docstr ->
  parse_docstring docstr = Some d ->
  _name_parser_map parent !! name d = None ->
  (forall alias, alias ∈ aliases d -> _name_parser_map parent !! alias = None) ->
  _add_subcommand parent func = (Raise e, parent') ->
  exists p n line,
    (forall k, k ∈ name d :: aliases d ->
               _name_parser_map parent' !! k = Some (length (parsers parent)))
    /\ parsers parent' = parsers parent ++ [p]
    /\ _defaults p !! "func" = Some (VFunc (fn_id func))
    /\ declared_arg_lines d !! n = Some line
    /\ add_arg_lines (map (split ": ") (take n (declared_arg_lines d)))
                     (fresh_parser parent d func) = (Ok tt, p)
    /\ add_arg_line (split ": " line) p = Raise e.
Proof.
  intros Hdoc Hd Hname Hal Hreg.
  destruct (add_parser_fresh (name d) (shorthelp d) (longhelp d) (aliases d) parent Hname Hal)
    as [sp1 Hadd].
  rewrite (add_subcommand_registered _ _ _ _ _ _ Hdoc Hd Hadd) in Hreg.
  injection Hreg as Hr <-. cbn [parsers _name_parser_map].
  destruct (add_arg_lines _ (fresh_parser parent d func)) as [r p] eqn:Hlines.
  simpl in Hr. subst r.
  pose proof (add_arg_lines_keeps (map (split ": ") (declared_arg_lines d))
                                  (fresh_parser parent d func)
                                  (fresh_parser_wf parent d func)) as Hkeep.
  rewrite Hlines in Hkeep. cbn zeta in Hkeep. simpl in Hkeep.
  destruct Hkeep as (_ & Hdef & _).
  apply add_arg_lines_stops in Hlines as (n & parts & Hn & Htake & Hparts).
  rewrite list_lookup_fmap in Hn.
  destruct (declared_arg_lines d !! n) as [line|] eqn:Hline; [|discriminate Hn].
  injection Hn as <-.
  exists p, n, line. split.
  { intros k Hk. rewrite (add_parser_lookup _ _ _ _ _ _ _ k Hadd).
    now rewrite decide_True by exact Hk. }
  split; [reflexivity|]. split; [now rewrite Hdef|]. split; [exact Hline|].
  split; [|exact Hparts]. now rewrite <- firstn_map.
Qed.

Lemma failed_line_leaves_command_witness :
  exists p n line,
    (forall k, k ∈ ["sync"] -> _name_parser_map partial_subparsers !! k = Some 0)
    /\ parsers partial_subparsers = [] ++ [p]
    /\ _defaults p !! "func" = Some (VFunc 9)
    /\ ["-k|--kill: kill"; "-c|--comment=string: text"] !! n = Some line
    /\ add_arg_lines (map (split ": ")
                          (take n ["-k|--kill: kill"; "-c|--comment=string: text"]))
                     (fresh_parser (add_subparsers "geet")
                                   {| name := "sync"; shorthelp := "sync it";
                                      args_list := [nl +:+ "   -k|--kill: kill" +:+ nl +:+
                                                    "   -c|--comment=string: text"];
                                      aliases := []; longhelp := "" |}
                                   {| fn_id := 9; __doc__ := Some partial_doc |})
       = (Ok tt, p)
    /\ add_arg_line (split ": " line) p = Raise (ValueError "'str' is not callable").
Proof.
  assert (Hreg : _add_subcommand (add_subparsers "geet")
                                 {| fn_id := 9; __doc__ := Some partial_doc |}
                 = (Raise (ValueError "'str' is not callable"), partial_subparsers))
    by (vm_compute; reflexivity).
  assert (Hd : parse_docstring partial_doc
               = Some {| name := "sync"; shorthelp := "sync it";
                         args_list := [nl +:+ "   -k|--kill: kill" +:+ nl +:+
                                       "   -c|--comment=string: text"];
                         aliases := []; longhelp := "" |}) by (vm_compute; reflexivity).
  exact (failed_line_leaves_command (add_subparsers "geet") partial_subparsers
           {| fn_id := 9; __doc__ := Some partial_doc |} partial_doc _ _
           eq_refl Hd eq_refl (fun alias H => lookup_empty alias) Hreg).
Defined.

End Registry.

Section StripFacts.
Import Py Textwrap Docstring Argparse Geet.

Lemma rstrip_all_space (s : string) : all_space s = true -> rstrip s = EmptyString.
Proof.
  induction s as [|c s IH]; [reflexivity|]. simpl.
  intros H. apply andb_prop in H as [Hc Hs]. now rewrite (IH Hs), Hc.
Qed.

Lemma strip_all_space (s : string) : all_space s = true -> strip s = EmptyString.
Proof. intros H. unfold strip. now rewrite rstrip_all_space. Qed.

Lemma ends_nonspace_cons (c : ascii) (s : string) :
  ends_nonspace s = true -> ends_nonspace (String c s) = true.
Proof. destruct s; [discriminate | auto]. Qed.

Lemma rstrip_ends_nonspace (s : string) : ends_nonspace s = true -> rstrip s = s.
Proof.
  induction s as [|c s IH]; [discriminate|].
  destruct s as [|d s].
  - simpl. intros H. apply negb_true_iff in H. now rewrite H.
  - intros H. change (ends_nonspace (String d s) = true) in H.
    specialize (IH H).
    change (rstrip (String c (String d s)))
      with (match rstrip (String d s) with
            | EmptyString => if isspace c then EmptyString else String c EmptyString
            | r => String c r
            end).
    now rewrite IH.
Qed.

Lemma lstrip_starts_nonspace (s : string) : starts_nonspace s = true -> lstrip s = s.
Proof.
  destruct s as [|c s]; [discriminate|]. simpl. intros H.
  apply negb_true_iff in H. now rewrite H.
Qed.

Lemma strip_clean (s : string) :
  starts_nonspace s = true -> ends_nonspace s = true -> strip s = s.
Proof.
  intros Hs He. unfold strip. now rewrite rstrip_ends_nonspace, lstrip_starts_nonspace.
Qed.

Lemma rstrip_result (s : string) :
  rstrip s = EmptyString \/ ends_nonspace (rstrip s) = true.
Proof.
  induction s as [|c s IH]; [now left|]. simpl.
  destruct (rstrip s) as [|d r].
  - destruct (isspace c) eqn:Hc; [now left | right; simpl; now rewrite Hc].
  - right. destruct IH as [IH|IH]; [discriminate IH|]. now apply ends_nonspace_cons.
Qed.

Lemma lstrip_result (s : string) :
  lstrip s = EmptyString \/ starts_nonspace (lstrip s) = true.
Proof.
  induction s as [|c s IH]; [now left|]. simpl.
  destruct (isspace c) eqn:Hc; [exact IH|]. right. simpl. now rewrite Hc.
Qed.

Lemma lstrip_ends_nonspace (s : string) :
  ends_nonspace s = true -> ends_nonspace (lstrip s) = true.
Proof.
  induction s as [|c s IH]; [discriminate|].
  intros H. simpl. destruct (isspace c) eqn:Hc; [|exact H].
  apply IH. destruct s; [simpl in H; rewrite Hc in H; discriminate H | exact H].
Qed.

(** what [strip] returns is empty or has no whitespace at its ends *)
Lemma strip_result (s : string) :
  strip s = EmptyString
  \/ (starts_nonspace (strip s) = true /\ ends_nonspace (strip s) = true).
Proof.
  unfold strip. destruct (lstrip_result (rstrip s)) as [H|H]; [now left|].
  right. split; [exact H|]. apply lstrip_ends_nonspace.
  destruct (rstrip_result s) as [Hr|Hr]; [|exact Hr].
  rewrite Hr in H. discriminate H.
Qed.

Lemma strip_fixed (s : string) :
  strip s = s -> s <> EmptyString ->
  starts_nonspace s = true /\ ends_nonspace s = true.
Proof.
  intros Hs Hne. destruct (strip_result s) as [H|H]; rewrite Hs in H; [contradiction | exact H].
Qed.

Lemma strip_idempotent (s : string) : strip (strip s) = strip s.
Proof.
  destruct (strip_result s) as [->|[H1 H2]]; [reflexivity|]. now apply strip_clean.
Qed.

Lemma ends_nonspace_app (a b : string) :
  ends_nonspace b = true -> ends_nonspace (a +:+ b) = true.
Proof.
  intros H. induction a as [|c a IH]; [exact H|].
  rewrite append_cons. now apply ends_nonspace_cons.
Qed.

Lemma ends_nonspace_not_empty (s : string) : ends_nonspace s = true -> s <> EmptyString.
Proof. now destruct s. Qed.

End StripFacts.

Section OccursFacts.
Import Py Textwrap Docstring Argparse Geet.

Lemma occurs_char_app (c : ascii) (a b : string) :
  occurs (String c EmptyString) (a +:+ b)
  = occurs (String c EmptyString) a || occurs (String c EmptyString) b.
Proof.
  induction a as [|x a IH]; [reflexivity|].
  rewrite append_cons.
  change (occurs (String c EmptyString) (String x (a +:+ b)))
    with (startswith (String c EmptyString) (String x (a +:+ b))
          || occurs (String c EmptyString) (a +:+ b)).
  change (occurs (String c EmptyString) (String x a))
    with (startswith (String c EmptyString) (String x a) || occurs (String c EmptyString) a).
  rewrite IH. simpl. destruct (Ascii.eqb c x); reflexivity.
Qed.

Lemma occurs_first_char (c : ascii) (t s : string) :
  occurs (String c EmptyString) s = false -> occurs (String c t) s = false.
Proof.
  induction s as [|x s IH]; [reflexivity|].
  change (occurs (String c EmptyString) (String x s))
    with (startswith (String c EmptyString) (String x s) || occurs (String c EmptyString) s).
  change (occurs (String c t) (String x s))
    with (startswith (String c t) (String x s) || occurs (String c t) s).
  intros H. apply orb_false_elim in H as [H1 H2]. rewrite (IH H2).
  simpl in *. destruct (Ascii.eqb c x); [discriminate H1 | reflexivity].
Qed.

(** the pieces around the one separator of a line *)
Lemma split_colon_space (a b : string) :
  occurs ": " a = false -> occurs ": " b = false ->
  split ": " (a +:+ ": " +:+ b) = [a; b].
Proof.
  intros Ha Hb. induction a as [|c a IH].
  - change (split ": " (EmptyString +:+ ": " +:+ b))
      with (EmptyString :: split ": " b).
    now rewrite split_no_occurrence.
  - change (occurs ": " (String c a))
      with (startswith ": " (String c a) || occurs ": " a) in Ha.
    apply orb_false_elim in Ha as [Hc Ha]. specialize (IH Ha).
    rewrite append_cons. unfold split in *.
    change (split_aux ": " 0 (String c (a +:+ ": " +:+ b)))
      with (if startswith ": " (String c (a +:+ ": " +:+ b))
            then EmptyString :: split_aux ": " (String.length ": " - 1) (a +:+ ": " +:+ b)
            else match split_aux ": " 0 (a +:+ ": " +:+ b) with
                 | h :: t => String c h :: t
                 | [] => [String c EmptyString]
                 end).
    assert (Hs : startswith ": " (String c (a +:+ ": " +:+ b)) = false).
    { change (startswith ": " (String c a))
        with (if Ascii.eqb ":" c then startswith " " a else false) in Hc.
      change (startswith ": " (String c (a +:+ ": " +:+ b)))
        with (if Ascii.eqb ":" c then startswith " " (a +:+ ": " +:+ b) else false).
      destruct (Ascii.eqb ":" c); [|reflexivity].
      destruct a as [|x a]; [reflexivity|]. rewrite append_cons. exact Hc. }
    now rewrite Hs, IH.
Qed.

End OccursFacts.

Section Dedent.
Import Py Textwrap Docstring Argparse Geet.

Lemma is_blank_isspace (c : ascii) : is_blank c = true -> isspace c = true.
Proof.
  unfold is_blank. intros H. apply orb_prop in H as [H|H];
    apply Ascii.eqb_eq in H; subst c; reflexivity.
Qed.

(** one line that starts at the margin is left as it is *)
Lemma dedent_one_line (s : string) :
  occurs nl s = false -> starts_nonspace s = true -> dedent s = s.
Proof.
  intros Hnl Hs. unfold dedent. rewrite (split_no_occurrence nl s Hnl).
  destruct s as [|c s]; [discriminate Hs|]. simpl in Hs. apply negb_true_iff in Hs.
  assert (Hb : is_blank c = false).
  { destruct (is_blank c) eqn:Hb; [|reflexivity].
    apply is_blank_isspace in Hb. congruence. }
  assert (Hab : after_blanks (String c s) = String c s) by (simpl; now rewrite Hb).
  assert (Hlb : leading_blanks (String c s) = EmptyString) by (simpl; now rewrite Hb).
  cbn [map]. unfold normalize_line. rewrite Hab.
  cbn [omap list_omap]. unfold indent_of. rewrite Hab, Hlb.
  reflexivity.
Qed.

End Dedent.

Section Declarations.
Import Py Textwrap Docstring Argparse Geet.

(** X1.  Nothing is registered for a function without a docstring, with
    a blank docstring, or with a first paragraph that does not split
    into two pieces at [": "]. *)
Theorem malformed_declaration_registers_nothing (parent : SubParsers) (func : Func) :
  (__doc__ func = None ->
   _add_subcommand parent func
   = (Raise (AttributeError "'NoneType' object has no attribute 'strip'"), parent))
  /\ (forall docstr,
        __doc__ func = Some docstr ->
        all_space docstr = true
        \/ length (split ": " (hd EmptyString (paragraphs_of docstr))) <> 2 ->
        _add_subcommand parent func
        = (Raise (ValueError "values to unpack (expected 2)"), parent)).
Proof.
  split.
  - intros Hdoc. unfold _add_subcommand. now rewrite Hdoc.
  - intros docstr Hdoc H. unfold _add_subcommand. rewrite Hdoc.
    assert (Hd : parse_docstring docstr = None); [|now rewrite Hd].
    unfold parse_docstring.
    assert (Hn : name_and_help (hd EmptyString (paragraphs_of docstr)) = None);
      [|now rewrite Hn].
    destruct H as [H|H].
    + unfold paragraphs_of. now rewrite (strip_all_space docstr H).
    + unfold name_and_help.
      destruct (split ": " _) as [|a [|b [|c l]]]; try reflexivity.
      now contradiction H.
Qed.

Lemma parse_plain_docstring (name help : string) :
  strip name = name -> strip help = help -> help <> EmptyString ->
  occurs nl name = false -> occurs nl help = false ->
  occurs ": " name = false -> occurs ": " help = false ->
  parse_docstring (name +:+ ": " +:+ help)
  = Some {| Docstring.name := name; shorthelp := help; args_list := [];
            aliases := []; longhelp := EmptyString |}.
Proof.
  intros Hn Hh Hne Hnl1 Hnl2 Hc1 Hc2.
  destruct (strip_fixed help Hh Hne) as [_ Hend].
  assert (Hstart : starts_nonspace (name +:+ ": " +:+ help) = true).
  { destruct name as [|c name]; [reflexivity|].
    now destruct (strip_fixed (String c name) Hn ltac:(discriminate)) as [H _]. }
  assert (Hends : ends_nonspace (name +:+ ": " +:+ help) = true).
  { apply ends_nonspace_app. now apply (ends_nonspace_app ": "). }
  assert (Hnl : occurs nl (name +:+ ": " +:+ help) = false).
  { unfold nl. rewrite occurs_char_app, (occurs_char_app _ ": " help).
    fold nl. now rewrite Hnl1, Hnl2. }
  unfold parse_docstring, paragraphs_of.
  rewrite (strip_clean _ Hstart Hends).
  rewrite (split_no_occurrence (nl +:+ nl)) by now apply occurs_first_char.
  cbn [map hd]. rewrite (dedent_one_line _ Hnl Hstart).
  unfold name_and_help. rewrite (split_colon_space name help Hc1 Hc2).
  reflexivity.
Qed.

(** X2.  A docstring of one line, [name: help], declares a command with
    this name and this short help, no alias, no argument and an empty
    description; on a registry where the name is free the command is
    added with a parser that has the help action only and the handler as
    its default [func]. *)
Theorem plain_docstring_registers (parent : SubParsers) (func : Func) (name help : string) :
  __doc__ func = Some (name +:+ ": " +:+ help) ->
  strip name = name -> strip help = help -> help <> EmptyString ->
  occurs nl name = false -> occurs nl help = false ->
  occurs ": " name = false -> occurs ": " help = false ->
  _name_parser_map parent !! name = None ->
  parse_docstring (name +:+ ": " +:+ help)
  = Some {| Docstring.name := name; shorthelp := help; args_list := [];
            aliases := []; longhelp := EmptyString |}
  /\ _add_subcommand parent func = (Ok tt, with_plain_command parent func name help).
Proof.
  intros Hdoc Hn Hh Hne Hnl1 Hnl2 Hc1 Hc2 Hfree.
  pose proof (parse_plain_docstring name help Hn Hh Hne Hnl1 Hnl2 Hc1 Hc2) as Hd.
  split; [exact Hd|].
  unfold _add_subcommand. rewrite Hdoc, Hd.
  unfold add_parser. cbn [Docstring.name shorthelp longhelp aliases].
  rewrite Hfree. cbn [List.find fold_left].
  unfold update_parser. cbn [parsers _prog_prefix _name_parser_map _choices_actions].
  rewrite !alter_last, lookup_last.
  unfold declared_arg_lines. cbn [args_list map add_arg_lines fst snd parsers].
  rewrite alter_last. reflexivity.
Qed.

Lemma plain_docstring_registers_witness :
  _add_subcommand (add_subparsers "geet") {| fn_id := 5; __doc__ := Some "status: show it" |}
  = (Ok tt, with_plain_command (add_subparsers "geet")
                               {| fn_id := 5; __doc__ := Some "status: show it" |}
                               "status" "show it").
Proof.
  refine (proj2 (plain_docstring_registers
                   (add_subparsers "geet") {| fn_id := 5; __doc__ := Some "status: show it" |}
                   "status" "show it" eq_refl eq_refl eq_refl _ eq_refl eq_refl eq_refl eq_refl
                   eq_refl)).
  discriminate.
Defined.

End Declarations.

Section CharFacts.
Import Py Textwrap Docstring Argparse Geet.

Lemma occurs_char_cons (c x : ascii) (s : string) :
  occurs (String c EmptyString) (String x s)
  = Ascii.eqb c x || occurs (String c EmptyString) s.
Proof.
  change (occurs (String c EmptyString) (String x s))
    with ((if Ascii.eqb c x then true else false) || occurs (String c EmptyString) s).
  now destruct (Ascii.eqb c x).
Qed.

Lemma occurs_char_lstrip (c : ascii) (s : string) :
  occurs (String c EmptyString) s = false ->
  occurs (String c EmptyString) (lstrip s) = false.
Proof.
  induction s as [|x s IH]; [auto|]. intros H. simpl.
  destruct (isspace x); [|exact H].
  rewrite occurs_char_cons in H. apply orb_false_elim in H as [_ H]. auto.
Qed.

Lemma occurs_char_rstrip (c : ascii) (s : string) :
  occurs (String c EmptyString) s = false ->
  occurs (String c EmptyString) (rstrip s) = false.
Proof.
  induction s as [|x s IH]; [auto|]. intros H.
  rewrite occurs_char_cons in H. apply orb_false_elim in H as [Hx H].
  specialize (IH H). simpl. destruct (rstrip s) as [|d r].
  - destruct (isspace x); [reflexivity|]. rewrite occurs_char_cons, Hx. reflexivity.
  - rewrite occurs_char_cons, Hx. exact IH.
Qed.

Lemma occurs_char_strip (c : ascii) (s : string) :
  occurs (String c EmptyString) s = false ->
  occurs (String c EmptyString) (strip s) = false.
Proof. intros H. unfold strip. now apply occurs_char_lstrip, occurs_char_rstrip. Qed.

(** no piece of a split on one character has the character *)
Lemma split_char_pieces (c : ascii) (s piece : string) :
  In piece (split (String c EmptyString) s) ->
  occurs (String c EmptyString) piece = false.
Proof.
  revert piece. induction s as [|x s IH]; intros piece.
  - intros [<-|[]]. reflexivity.
  - rewrite split_char_cons. destruct (Ascii.eqb c x) eqn:Hx.
    + intros [<-|H]; [reflexivity | now apply IH].
    + destruct (split (String c EmptyString) s) as [|h t] eqn:Hs;
        [now apply split_aux_nonempty in Hs|].
      intros [<-|H].
      * rewrite occurs_char_cons, Hx. apply IH. now left.
      * apply IH. now right.
Qed.

(** a split on one character at its first occurrence *)
Lemma split_char_app (c : ascii) (a rest : string) :
  occurs (String c EmptyString) a = false ->
  split (String c EmptyString) (a +:+ String c rest)
  = a :: split (String c EmptyString) rest.
Proof.
  intros Ha. induction a as [|x a IH].
  - rewrite append_empty_l, split_char_cons, Ascii.eqb_refl. reflexivity.
  - rewrite occurs_char_cons in Ha. apply orb_false_elim in Ha as [Hx Ha].
    rewrite append_cons, split_char_cons, Hx, (IH Ha). reflexivity.
Qed.

End CharFacts.

Section ArgLines.
Import Py Textwrap Docstring Argparse Geet.

(** X4.  The lines that the loop over the argument block goes through
    are not empty, have no newline and no whitespace at their ends. *)
Theorem argument_lines_are_stripped (docstr line : string) :
  In line (docstring_arg_lines docstr) ->
  line <> EmptyString /\ strip line = line /\ occurs nl line = false.
Proof.
  unfold docstring_arg_lines.
  destruct (parse_docstring docstr) as [d|]; [|intros []].
  unfold declared_arg_lines. destruct (args_list d) as [|block _]; [intros []|].
  unfold arg_lines. intros H. apply filter_In in H as [H Hne].
  apply in_map_iff in H as (piece & <- & Hpiece).
  split; [|split].
  - intros Heq. rewrite Heq in Hne. discriminate Hne.
  - apply strip_idempotent.
  - apply occurs_char_strip. exact (split_char_pieces _ _ _ Hpiece).
Qed.

Lemma argument_lines_are_stripped_witness :
  "files...: One or more files." <> EmptyString
  /\ strip "files...: One or more files." = "files...: One or more files."
  /\ occurs nl "files...: One or more files." = false.
Proof.
  apply (argument_lines_are_stripped testing_doc).
  right. left. reflexivity.
Defined.

End ArgLines.

Section Rewrap.
Import Py Textwrap Docstring Argparse Geet.

Lemma is_line_inv (l : string) :
  is_line l = true ->
  occurs nl l = false /\ starts_nonspace l = true /\ ends_nonspace l = true.
Proof.
  unfold is_line. intros H. apply andb_prop in H as [H H3]. apply andb_prop in H as [H1 H2].
  apply negb_true_iff in H1. auto.
Qed.

(** a run of whitespace inside a line has no newline, so it does not wrap *)
Lemma run_inside_line (l rest : string) :
  occurs nl l = false -> ends_nonspace l = true ->
  run_wraps (whitespace_run (l +:+ rest)) = false.
Proof.
  induction l as [|c l IH]; [discriminate|]. intros Hnl Hend.
  unfold nl in Hnl. rewrite occurs_char_cons in Hnl. apply orb_false_elim in Hnl as [Hc Hnl].
  rewrite append_cons. cbn [whitespace_run].
  destruct (isspace c) eqn:Hsp; [|reflexivity].
  cbn [run_wraps]. rewrite Ascii.eqb_sym, Hc. cbn [andb orb].
  apply IH; [exact Hnl|].
  destruct l; [simpl in Hend; rewrite Hsp in Hend; discriminate Hend | exact Hend].
Qed.

(** outside of a replaced run, the text of a line is kept *)
Lemma rewrap_inside_line (l rest : string) (st : scan) :
  occurs nl l = false -> ends_nonspace l = true -> st <> Dropping ->
  rewrap_from st (l +:+ rest) = l +:+ rewrap_from Outside rest.
Proof.
  revert st. induction l as [|c l IH]; [discriminate|]. intros st Hnl Hend Hst.
  pose proof (run_inside_line (String c l) rest Hnl Hend) as Hrun.
  pose proof Hnl as Hnl'.
  unfold nl in Hnl'. rewrite occurs_char_cons in Hnl'.
  apply orb_false_elim in Hnl' as [Hc Hnl'].
  rewrite !append_cons in *. cbn [rewrap_from].
  destruct (isspace c) eqn:Hsp.
  - assert (Hend' : ends_nonspace l = true).
    { destruct l; [simpl in Hend; rewrite Hsp in Hend; discriminate Hend | exact Hend]. }
    destruct st; [| |contradiction].
    + rewrite Hrun. f_equal. now apply IH.
    + f_equal. now apply IH.
  - f_equal. destruct l as [|d l]; [reflexivity|]. now apply IH.
Qed.

Lemma rewrap_line (l rest : string) (st : scan) :
  is_line l = true ->
  rewrap_from st (l +:+ rest) = l +:+ rewrap_from Outside rest.
Proof.
  intros H. apply is_line_inv in H as (Hnl & Hstart & Hend).
  destruct l as [|c l]; [discriminate Hstart|].
  simpl in Hstart. apply negb_true_iff in Hstart.
  unfold nl in Hnl. rewrite occurs_char_cons in Hnl. apply orb_false_elim in Hnl as [_ Hnl].
  rewrite !(append_cons c). cbn [rewrap_from]. rewrite Hstart. f_equal.
  destruct l as [|d l]; [reflexivity|]. now apply rewrap_inside_line.
Qed.

Lemma whitespace_run_spaces (n : nat) (l rest : string) :
  starts_nonspace l = true ->
  whitespace_run (spaces n +:+ l +:+ rest) = spaces n.
Proof.
  intros Hl. induction n as [|n IH]; simpl.
  - destruct l as [|c l]; [discriminate Hl|]. simpl in Hl. apply negb_true_iff in Hl.
    rewrite append_cons. simpl. now rewrite Hl.
  - now rewrite IH.
Qed.

Lemma run_wraps_spaces (n : nat) : run_wraps (spaces n) = false.
Proof. induction n as [|n IH]; [reflexivity | exact IH]. Qed.

Lemma length_spaces (n : nat) : String.length (spaces n) = n.
Proof. induction n as [|n IH]; simpl; congruence. Qed.

Lemma rewrap_keep_spaces (n : nat) (s : string) :
  rewrap_from Keeping (spaces n +:+ s) = spaces n +:+ rewrap_from Keeping s.
Proof. induction n as [|n IH]; [reflexivity|]. simpl. now rewrite IH. Qed.

Lemma rewrap_drop_spaces (n : nat) (s : string) :
  rewrap_from Dropping (spaces n +:+ s) = rewrap_from Dropping s.
Proof. induction n as [|n IH]; [reflexivity|]. simpl. exact IH. Qed.

Lemma rewrap_indented_block (n : nat) (lines : list string) :
  forallb is_line lines = true ->
  rewrap_from Outside (indented_block n lines)
  = if 4 <=? n then collapsed lines else indented_block n lines.
Proof.
  induction lines as [|l lines IH]; intros H; [now destruct (4 <=? n)|].
  cbn [forallb] in H. apply andb_prop in H as [Hl H]. specialize (IH H).
  cbn [indented_block collapsed].
  destruct (is_line_inv l Hl) as (_ & Hstart & _).
  unfold nl at 1. rewrite append_cons, append_empty_l. cbn [rewrap_from].
  change (isspace "010") with true. cbv iota.
  change (whitespace_run (String "010" (spaces n +:+ l +:+ indented_block n lines)))
    with (String "010" (whitespace_run (spaces n +:+ l +:+ indented_block n lines))).
  rewrite (whitespace_run_spaces n l _ Hstart).
  cbn [run_wraps]. rewrite length_spaces, run_wraps_spaces, orb_false_r.
  change (Ascii.eqb "010" "010") with true. cbn [andb].
  destruct (4 <=? n).
  - rewrite rewrap_drop_spaces, (rewrap_line l _ Dropping Hl), IH. reflexivity.
  - rewrite rewrap_keep_spaces, (rewrap_line l _ Keeping Hl), IH.
    unfold nl. reflexivity.
Qed.

End Rewrap.

Section IndentedBlocks.
Import Py Textwrap Docstring Argparse Geet.

Lemma string_app_assoc (a b c : string) : (a +:+ b) +:+ c = a +:+ b +:+ c.
Proof. induction a as [|x a IH]; [reflexivity|]. rewrite !append_cons. now f_equal. Qed.

Lemma string_app_empty_r (a : string) : a +:+ EmptyString = a.
Proof. induction a as [|x a IH]; [reflexivity|]. rewrite append_cons. now f_equal. Qed.

Lemma occurs_nl_spaces (n : nat) : occurs nl (spaces n) = false.
Proof. induction n as [|n IH]; [reflexivity | exact IH]. Qed.

Lemma strip_spaces_line (n : nat) (l : string) :
  is_line l = true -> strip (spaces n +:+ l) = l.
Proof.
  intros H. apply is_line_inv in H as (_ & Hs & He).
  induction n as [|n IH]; [now apply strip_clean|].
  cbn [spaces]. rewrite append_cons, strip_cons_space by reflexivity. exact IH.
Qed.

Lemma split_indented_block (n : nat) (lines : list string) (a : string) :
  forallb is_line lines = true -> occurs nl a = false ->
  split nl (a +:+ indented_block n lines) = a :: map (fun l => spaces n +:+ l) lines.
Proof.
  revert a. induction lines as [|l lines IH]; intros a H Ha.
  - cbn [indented_block map]. rewrite string_app_empty_r. now apply split_no_occurrence.
  - cbn [forallb] in H. apply andb_prop in H as [Hl H].
    destruct (is_line_inv l Hl) as (Hnl & _).
    cbn [indented_block map]. unfold nl at 2. rewrite append_cons, append_empty_l.
    unfold nl at 1. rewrite (split_char_app _ a) by exact Ha. f_equal.
    rewrite <- string_app_assoc. apply (IH _ H).
    unfold nl. rewrite occurs_char_app. fold nl. now rewrite occurs_nl_spaces, Hnl.
Qed.

Lemma filter_stripped_lines (n : nat) (lines : list string) :
  forallb is_line lines = true ->
  List.filter (fun x => negb (String.eqb x EmptyString))
              (map strip (map (fun l => spaces n +:+ l) lines))
  = lines.
Proof.
  induction lines as [|l lines IH]; intros H; [reflexivity|].
  cbn [forallb] in H. apply andb_prop in H as [Hl H].
  cbn [map List.filter]. rewrite (strip_spaces_line n l Hl), (IH H).
  destruct (is_line_inv l Hl) as (_ & Hs & _).
  destruct l; [discriminate Hs | reflexivity].
Qed.

Lemma collapsed_join (l : string) (lines : list string) :
  collapsed (l :: lines) = String " " (join " " (l :: lines)).
Proof.
  revert l. induction lines as [|l' lines IH]; intros l.
  - cbn [collapsed]. now rewrite string_app_empty_r.
  - change (collapsed (l :: l' :: lines)) with (String " " (l +:+ collapsed (l' :: lines))).
    rewrite IH. reflexivity.
Qed.

Lemma join_lines_is_line (l : string) (lines : list string) :
  forallb is_line (l :: lines) = true -> is_line (join " " (l :: lines)) = true.
Proof.
  revert l. induction lines as [|l' lines IH]; intros l H.
  - cbn [forallb] in H. now apply andb_prop in H as [Hl _].
  - cbn [forallb] in H. apply andb_prop in H as [Hl H]. specialize (IH l' H).
    change (join " " (l :: l' :: lines)) with (l +:+ " " +:+ join " " (l' :: lines)).
    apply is_line_inv in Hl as (Hnl & Hs & He).
    apply is_line_inv in IH as (Hnl' & Hs' & He').
    unfold is_line. apply andb_true_intro. split; [apply andb_true_intro; split|].
    + apply negb_true_iff. unfold nl. rewrite occurs_char_app, (occurs_char_app _ " ").
      fold nl. now rewrite Hnl, Hnl'.
    + destruct l; [discriminate Hs | exact Hs].
    + apply ends_nonspace_app. now apply (ends_nonspace_app " ").
Qed.

(** whether the lines under [Args:] are rules of their own depends on
    their indentation: with less than four spaces each line is one
    argument line, with four or more all the lines become one *)
Lemma arg_lines_indented_block (n : nat) (lines : list string) :
  forallb is_line lines = true ->
  arg_lines (indented_block n lines)
  = if 4 <=? n
    then match lines with [] => [] | _ => [join " " lines] end
    else lines.
Proof.
  intros H. unfold arg_lines, rewrap. rewrite (rewrap_indented_block n lines H).
  destruct (4 <=? n).
  - destruct lines as [|l lines]; [reflexivity|].
    pose proof (join_lines_is_line l lines H) as Hj.
    rewrite collapsed_join.
    destruct (is_line_inv _ Hj) as (Hnl & Hs & He).
    rewrite split_no_occurrence.
    2:{ unfold nl. rewrite occurs_char_cons. exact Hnl. }
    cbn [map]. rewrite strip_cons_space by reflexivity.
    rewrite (strip_clean _ Hs He). cbn [List.filter].
    destruct (join " " (l :: lines)); [discriminate Hs | reflexivity].
  - rewrite <- (append_empty_l (indented_block n lines)).
    rewrite (split_indented_block n lines EmptyString H eq_refl).
    cbn [map]. change (strip EmptyString) with EmptyString. cbn [List.filter String.eqb negb].
    now apply filter_stripped_lines.
Qed.

End IndentedBlocks.

Section Layout.
Import Py Textwrap Docstring Argparse Geet.

Lemma rstrip_app_all_space (s ws : string) :
  all_space ws = true -> rstrip (s +:+ ws) = rstrip s.
Proof.
  intros H. induction s as [|c s IH]; [now apply rstrip_all_space|].
  rewrite append_cons. cbn [rstrip]. now rewrite IH.
Qed.

Lemma strip_app_all_space (s ws : string) :
  all_space ws = true -> strip (s +:+ ws) = strip s.
Proof. intros H. unfold strip. now rewrite rstrip_app_all_space. Qed.

Lemma is_line_not_empty (l : string) : is_line l = true -> l <> EmptyString.
Proof. intros H. apply is_line_inv in H as (_ & H & _). now destruct l. Qed.

Lemma indented_block_ends (k : nat) (lines : list string) :
  forallb is_line lines = true -> lines <> [] ->
  ends_nonspace (indented_block k lines) = true.
Proof.
  induction lines as [|l lines IH]; intros H Hne; [contradiction|].
  cbn [forallb] in H. apply andb_prop in H as [Hl H].
  cbn [indented_block]. apply ends_nonspace_app, ends_nonspace_app.
  destruct lines as [|l' lines].
  - cbn [indented_block]. rewrite string_app_empty_r.
    now apply is_line_inv in Hl as (_ & _ & Hl).
  - apply ends_nonspace_app, IH; [exact H | discriminate].
Qed.

(** two newlines in a row *)
Lemma occurs_blank_line_skip (x y : string) :
  occurs nl x = false -> occurs (nl +:+ nl) (x +:+ y) = occurs (nl +:+ nl) y.
Proof.
  intros Hx. induction x as [|c x IH]; [reflexivity|].
  unfold nl in Hx. rewrite occurs_char_cons in Hx. apply orb_false_elim in Hx as [Hc Hx].
  rewrite append_cons.
  change (occurs (nl +:+ nl) (String c (x +:+ y)))
    with ((if Ascii.eqb "010" c then startswith nl (x +:+ y) else false)
          || occurs (nl +:+ nl) (x +:+ y)).
  rewrite Hc. now apply IH.
Qed.

Lemma occurs_blank_line_block (k : nat) (lines : list string) :
  forallb is_line lines = true -> occurs (nl +:+ nl) (indented_block k lines) = false.
Proof.
  induction lines as [|l lines IH]; intros H; [reflexivity|].
  cbn [forallb] in H. apply andb_prop in H as [Hl H].
  destruct (is_line_inv l Hl) as (Hnl & Hs & _).
  cbn [indented_block]. unfold nl at 3. rewrite append_cons, append_empty_l.
  change (occurs (nl +:+ nl) (String "010" (spaces k +:+ l +:+ indented_block k lines)))
    with (startswith nl (spaces k +:+ l +:+ indented_block k lines)
          || occurs (nl +:+ nl) (spaces k +:+ l +:+ indented_block k lines)).
  assert (Hfirst : startswith nl (spaces k +:+ l +:+ indented_block k lines) = false).
  { destruct k as [|k]; [|reflexivity]. rewrite append_empty_l.
    destruct l as [|c l]; [discriminate Hs|]. rewrite append_cons.
    unfold nl in Hnl. rewrite occurs_char_cons in Hnl.
    apply orb_false_elim in Hnl as [Hc _].
    change (startswith nl (String c (l +:+ indented_block 0 lines)))
      with (if Ascii.eqb "010" c then true else false).
    now rewrite Hc. }
  rewrite Hfirst. cbn [orb].
  rewrite <- string_app_assoc, occurs_blank_line_skip; [now apply IH|].
  unfold nl. rewrite occurs_char_app. fold nl. now rewrite occurs_nl_spaces, Hnl.
Qed.

(** the split at the first blank line *)
Lemma split_blank_line (a b : string) :
  occurs nl a = false ->
  split (nl +:+ nl) (a +:+ nl +:+ nl +:+ b) = a :: split (nl +:+ nl) b.
Proof.
  intros Ha. induction a as [|c a IH]; [reflexivity|].
  unfold nl in Ha. rewrite occurs_char_cons in Ha. apply orb_false_elim in Ha as [Hc Ha].
  specialize (IH Ha). rewrite append_cons. unfold split in *.
  change (split_aux (nl +:+ nl) 0 (String c (a +:+ nl +:+ nl +:+ b)))
    with (if (if Ascii.eqb "010" c then startswith nl (a +:+ nl +:+ nl +:+ b) else false)
          then EmptyString :: split_aux (nl +:+ nl) 1 (a +:+ nl +:+ nl +:+ b)
          else match split_aux (nl +:+ nl) 0 (a +:+ nl +:+ nl +:+ b) with
               | h :: t => String c h :: t
               | [] => [String c EmptyString]
               end).
  now rewrite Hc, IH.
Qed.

Lemma startswith_spaces (m n : nat) (s : string) :
  startswith (spaces m) (spaces (m + n) +:+ s) = true.
Proof. induction m as [|m IH]; [reflexivity | exact IH]. Qed.

Lemma slice_from_spaces (m n : nat) (s : string) :
  slice_from (String.length (spaces m)) (spaces (m + n) +:+ s) = spaces n +:+ s.
Proof. induction m as [|m IH]; [reflexivity | exact IH]. Qed.

Lemma remove_margin_spaces (m n : nat) (s : string) :
  remove_margin (spaces m) (spaces (m + n) +:+ s) = spaces n +:+ s.
Proof. unfold remove_margin. now rewrite startswith_spaces, slice_from_spaces. Qed.

Lemma is_blank_false (c : ascii) : isspace c = false -> is_blank c = false.
Proof.
  intros H. destruct (is_blank c) eqn:Hb; [|reflexivity].
  apply is_blank_isspace in Hb. congruence.
Qed.

Lemma after_blanks_spaces (k : nat) (s : string) :
  starts_nonspace s = true -> after_blanks (spaces k +:+ s) = s.
Proof.
  intros Hs. induction k as [|k IH]; [|exact IH].
  destruct s as [|c s]; [discriminate Hs|]. simpl in Hs. apply negb_true_iff in Hs.
  rewrite append_empty_l. cbn [after_blanks]. now rewrite (is_blank_false c Hs).
Qed.

Lemma leading_blanks_spaces (k : nat) (s : string) :
  starts_nonspace s = true -> leading_blanks (spaces k +:+ s) = spaces k.
Proof.
  intros Hs. induction k as [|k IH].
  - destruct s as [|c s]; [discriminate Hs|]. simpl in Hs. apply negb_true_iff in Hs.
    rewrite append_empty_l. cbn [leading_blanks spaces]. now rewrite (is_blank_false c Hs).
  - cbn [spaces]. rewrite append_cons. cbn [leading_blanks].
    change (is_blank " ") with true. cbv iota. now rewrite IH.
Qed.

Lemma normalize_indented (k : nat) (s : string) :
  starts_nonspace s = true -> normalize_line (spaces k +:+ s) = spaces k +:+ s.
Proof.
  intros Hs. unfold normalize_line. rewrite (after_blanks_spaces k s Hs).
  destruct s; [discriminate Hs | reflexivity].
Qed.

Lemma indent_of_indented (k : nat) (s : string) :
  starts_nonspace s = true -> indent_of (spaces k +:+ s) = Some (spaces k).
Proof.
  intros Hs. unfold indent_of. rewrite (after_blanks_spaces k s Hs), (leading_blanks_spaces k s Hs).
  destruct s; [discriminate Hs | reflexivity].
Qed.

Lemma normalize_block_lines (k : nat) (lines : list string) :
  forallb is_line lines = true ->
  map normalize_line (map (fun l => spaces k +:+ l) lines)
  = map (fun l => spaces k +:+ l) lines.
Proof.
  induction lines as [|l lines IH]; intros H; [reflexivity|].
  cbn [forallb] in H. apply andb_prop in H as [Hl H].
  destruct (is_line_inv l Hl) as (_ & Hs & _).
  cbn [map]. now rewrite (normalize_indented k l Hs), (IH H).
Qed.

Lemma margin_of_block_lines (m n : nat) (lines : list string) :
  forallb is_line lines = true ->
  fold_left margin_step
            (omap indent_of (map (fun l => spaces (m + n) +:+ l) lines))
            (Some (spaces m))
  = Some (spaces m).
Proof.
  induction lines as [|l lines IH]; intros H; [reflexivity|].
  cbn [forallb] in H. apply andb_prop in H as [Hl H].
  destruct (is_line_inv l Hl) as (_ & Hs & _).
  cbn [map omap list_omap]. rewrite (indent_of_indented (m + n) l Hs).
  cbn [fold_left margin_step].
  assert (Hm : startswith (spaces m) (spaces (m + n)) = true).
  { clear. induction m as [|m IH]; [reflexivity | exact IH]. }
  rewrite Hm. now apply IH.
Qed.

Lemma remove_margin_block_lines (m n : nat) (lines : list string) :
  map (remove_margin (spaces m)) (map (fun l => spaces (m + n) +:+ l) lines)
  = map (fun l => spaces n +:+ l) lines.
Proof.
  induction lines as [|l lines IH]; [reflexivity|].
  cbn [map]. now rewrite remove_margin_spaces, IH.
Qed.

Lemma join_block_lines (n : nat) (head : string) (lines : list string) :
  join nl (head :: map (fun l => spaces n +:+ l) lines) = head +:+ indented_block n lines.
Proof.
  revert head. induction lines as [|l lines IH]; intros head.
  - cbn [map indented_block]. now rewrite string_app_empty_r.
  - cbn [map indented_block].
    change (join nl (head :: (spaces n +:+ l) :: map (fun l => spaces n +:+ l) lines))
      with (head +:+ nl +:+ join nl ((spaces n +:+ l) :: map (fun l => spaces n +:+ l) lines)).
    now rewrite IH, string_app_assoc.
Qed.

Lemma spaces_margin (m : nat) (lines : list string) :
  match Some (spaces m) with
  | Some (String c r) => join nl (map (remove_margin (String c r)) lines)
  | _ => join nl lines
  end
  = join nl (map (remove_margin (spaces m)) lines).
Proof.
  destruct m as [|m]; [|reflexivity]. cbn [spaces]. f_equal.
  induction lines as [|l lines IH]; [reflexivity|]. cbn [map]. now rewrite <- IH.
Qed.

(** [dedent] on the paragraph of the argument block takes the
    indentation of the header away *)
Lemma dedent_args_paragraph (m n : nat) (lines : list string) :
  forallb is_line lines = true ->
  dedent (spaces m +:+ "Args:" +:+ indented_block (m + n) lines)
  = "Args:" +:+ indented_block n lines.
Proof.
  intros H. unfold dedent.
  rewrite <- string_app_assoc.
  rewrite (split_indented_block (m + n) lines (spaces m +:+ "Args:") H).
  2:{ unfold nl. rewrite occurs_char_app. fold nl. now rewrite occurs_nl_spaces. }
  cbn [map]. rewrite (normalize_indented m "Args:" eq_refl), (normalize_block_lines _ _ H).
  cbn [omap list_omap]. rewrite (indent_of_indented m "Args:" eq_refl).
  cbn [fold_left margin_step]. rewrite (margin_of_block_lines m n lines H).
  rewrite spaces_margin. cbn [map].
  rewrite <- (Nat.add_0_r m) at 2. rewrite remove_margin_spaces, remove_margin_block_lines.
  cbn [spaces]. rewrite append_empty_l. apply join_block_lines.
Qed.

Lemma parse_args_docstring (name help : string) (m n : nat) (lines : list string)
    (trailing : string) :
  strip name = name -> strip help = help -> help <> EmptyString ->
  occurs nl name = false -> occurs nl help = false ->
  occurs ": " name = false -> occurs ": " help = false ->
  forallb is_line lines = true -> lines <> [] -> all_space trailing = true ->
  parse_docstring (args_docstring name help m n lines trailing)
  = Some {| Docstring.name := name; shorthelp := help;
            args_list := [indented_block n lines];
            aliases := []; longhelp := EmptyString |}.
Proof.
  intros Hn Hh Hne Hnl1 Hnl2 Hc1 Hc2 Hlines Hnonempty Htrail.
  set (first := name +:+ ": " +:+ help).
  set (para := spaces m +:+ "Args:" +:+ indented_block (m + n) lines).
  assert (Hshape : args_docstring name help m n lines trailing
                   = (first +:+ nl +:+ nl +:+ para) +:+ trailing).
  { unfold args_docstring, first, para. now rewrite !string_app_assoc. }
  destruct (strip_fixed help Hh Hne) as [_ Hend].
  assert (Hstart : starts_nonspace first = true).
  { unfold first. destruct name as [|c name]; [reflexivity|].
    now destruct (strip_fixed (String c name) Hn ltac:(discriminate)) as [H _]. }
  assert (Hfirst_nl : occurs nl first = false).
  { unfold first, nl. rewrite occurs_char_app, (occurs_char_app _ ": " help).
    fold nl. now rewrite Hnl1, Hnl2. }
  assert (Hstart' : starts_nonspace (first +:+ nl +:+ nl +:+ para) = true).
  { destruct first; [discriminate Hstart | exact Hstart]. }
  assert (Hends : ends_nonspace (first +:+ nl +:+ nl +:+ para) = true).
  { do 3 apply ends_nonspace_app. unfold para. do 2 apply ends_nonspace_app.
    now apply indented_block_ends. }
  assert (Hpara : occurs (nl +:+ nl) para = false).
  { unfold para. rewrite <- string_app_assoc, occurs_blank_line_skip.
    - now apply occurs_blank_line_block.
    - unfold nl. rewrite occurs_char_app. fold nl. now rewrite occurs_nl_spaces. }
  unfold parse_docstring, paragraphs_of.
  rewrite Hshape, (strip_app_all_space _ _ Htrail), (strip_clean _ Hstart' Hends).
  rewrite (split_blank_line first para Hfirst_nl), (split_no_occurrence _ _ Hpara).
  cbn [map hd tail]. rewrite (dedent_one_line _ Hfirst_nl Hstart).
  unfold para. rewrite (dedent_args_paragraph m n lines Hlines).
  unfold name_and_help, first. rewrite (split_colon_space name help Hc1 Hc2).
  cbn [mbind option_bind].
  destruct lines as [|l lines]; [contradiction|].
  reflexivity.
Qed.

(** X3.  In a docstring with the line of the name, a blank line and an
    [Args:] paragraph whose lines are indented by [n] spaces more than
    its header, the argument lines are the lines of the paragraph when
    [n] is less than four; from four spaces on they are taken for the
    continuation of one line, and all of them make one argument line. *)
Theorem argument_lines_of_docstring (name help : string) (m n : nat)
    (lines : list string) (trailing : string) :
  strip name = name -> strip help = help -> help <> EmptyString ->
  occurs nl name = false -> occurs nl help = false ->
  occurs ": " name = false -> occurs ": " help = false ->
  forallb is_line lines = true -> lines <> [] -> all_space trailing = true ->
  docstring_arg_lines (args_docstring name help m n lines trailing)
  = if 4 <=? n then [join " " lines] else lines.
Proof.
  intros Hn Hh Hne Hnl1 Hnl2 Hc1 Hc2 Hlines Hnonempty Htrail.
  unfold docstring_arg_lines.
  rewrite (parse_args_docstring name help m n lines trailing) by assumption.
  unfold declared_arg_lines. cbn [args_list].
  rewrite (arg_lines_indented_block n lines Hlines).
  destruct lines; [contradiction | reflexivity].
Qed.

Lemma argument_lines_of_docstring_witness :
  docstring_arg_lines
    (args_docstring "add" "stage files" 4 3 ["files...: One or more files."] (nl +:+ "    "))
  = ["files...: One or more files."].
Proof.
  refine (argument_lines_of_docstring
            "add" "stage files" 4 3 ["files...: One or more files."] (nl +:+ "    ")
            eq_refl eq_refl _ eq_refl eq_refl eq_refl eq_refl eq_refl _ eq_refl);
    discriminate.
Defined.

End Layout.

Section Rules.
Import Py Textwrap Docstring Argparse Geet.

Lemma split_one_piece (sep s x : string) :
  sep <> EmptyString -> split sep s = [x] -> x = s.
Proof. intros Hsep H. rewrite <- (join_split sep s Hsep), H. reflexivity. Qed.

Lemma startswith_dash_cons (c : ascii) (s : string) :
  startswith "-" (String c s) = is_prefix_char c.
Proof.
  unfold is_prefix_char, prefix_chars. rewrite (Ascii.eqb_sym c).
  change (startswith "-" (String c s)) with (if Ascii.eqb "-" c then true else false).
  now destruct (Ascii.eqb "-" c).
Qed.

Lemma check_option_strings_inv (args l : list string) :
  check_option_strings args = Ok l ->
  l = args /\ Forall (fun s => startswith "-" s = true) args.
Proof.
  revert l. induction args as [|s args IH]; intros l; cbn [check_option_strings].
  - intros [= <-]. auto.
  - destruct s as [|c s]; [discriminate|].
    destruct (is_prefix_char c) eqn:Hc; [|discriminate].
    destruct (check_option_strings args) as [r|]; [|discriminate]. cbn [bind].
    destruct (IH r eq_refl) as [-> Hall]. intros [= <-]. split; [reflexivity|].
    constructor; [|exact Hall]. rewrite startswith_dash_cons. exact Hc.
Qed.

Lemma optional_kwargs_inv (args l : list string) (dest : string) (required : bool) :
  _get_optional_kwargs args = Ok (l, dest, required) ->
  l = args /\ required = false /\ Forall (fun s => startswith "-" s = true) args.
Proof.
  unfold _get_optional_kwargs.
  destruct (check_option_strings args) as [r|] eqn:Hr; [|discriminate].
  apply check_option_strings_inv in Hr as [-> Hall]. cbn [bind].
  destruct (lstrip_char _ _); [discriminate|]. intros [= <- _ <-]. auto.
Qed.

(** the names of an argument that does not start with a dash: one name *)
Lemma positional_names (args : list string) (arg : string) (defaults : gmap string value)
    (kw : kwargs) (a : Action) :
  split "|" arg = args -> startswith "-" arg = false ->
  new_action args kw defaults = Ok a ->
  args = [arg] /\ option_strings a = [] /\ dest a = Some arg /\ required a = true.
Proof.
  intros Hsplit Hplain. unfold new_action.
  assert (Hfirst : forall c s rest, args = String c s :: rest -> is_prefix_char c = false).
  { intros c s rest Hargs. rewrite Hargs in Hsplit.
    pose proof (join_split "|" arg ltac:(discriminate)) as Hj. rewrite Hsplit in Hj.
    destruct rest as [|r rest].
    - simpl in Hj. subst arg. now rewrite startswith_dash_cons in Hplain.
    - rewrite join_cons_cons in Hj. subst arg. now rewrite startswith_dash_cons in Hplain. }
  destruct args as [|[|c s] [|s' rest]]; try discriminate.
  - rewrite (Hfirst c s [] eq_refl). cbn [bind _get_positional_kwargs].
    apply split_one_piece in Hsplit; [|discriminate]. rewrite Hsplit.
    destruct (_pop_action_class kw) as [c0|]; [|discriminate].
    unfold make_action.
    destruct c0; try discriminate.
    + destruct (kw_nargs kw) as [[| |[|k]|]|]; try discriminate; cbn [bind];
        destruct (type_callable _); try discriminate; intros [= <-]; auto.
    + destruct (kw_nargs kw) as [[| |[|k]|]|]; try discriminate; cbn [bind];
        destruct (type_callable _); try discriminate; intros [= <-]; auto.
    + destruct (kw_nargs kw), (kw_type kw); try discriminate; cbn [bind].
      intros [= <-]; auto.
  - unfold _get_optional_kwargs. cbn [check_option_strings].
    rewrite (Hfirst c s (s' :: rest) eq_refl). discriminate.
Qed.

Lemma names_of_flag (args : list string) (r : list string * string * bool) :
  Exists (fun s => startswith "-" s = true) args ->
  match args with
  | [] => Raise (TypeError "missing dest")
  | [EmptyString] => Raise (IndexError "string index out of range")
  | [String c s] =>
      if is_prefix_char c then _get_optional_kwargs args
      else Ok (_get_positional_kwargs (String c s))
  | _ => _get_optional_kwargs args
  end = Ok r ->
  _get_optional_kwargs args = Ok r.
Proof.
  intros Hex. destruct args as [|[|c s] [|s' rest]]; try discriminate; auto.
  destruct (is_prefix_char c) eqn:Hc; [auto|].
  inversion Hex as [? ? H|? ? H]; subst.
  - rewrite startswith_dash_cons in H. congruence.
  - inversion H.
Qed.

Lemma flag_names (args : list string) (kw : kwargs) (defaults : gmap string value)
    (a : Action) :
  Exists (fun s => startswith "-" s = true) args ->
  new_action args kw defaults = Ok a ->
  option_strings a = args /\ args <> [] /\ required a = false
  /\ Forall (fun s => startswith "-" s = true) args.
Proof.
  intros Hex. unfold new_action.
  destruct (match args with [] => _ | _ => _ end) as [[[l dest] required]|] eqn:Hnames;
    [|discriminate].
  apply (names_of_flag _ _ Hex), optional_kwargs_inv in Hnames as (-> & -> & Hall).
  cbn [bind].
  assert (Hne : args <> []) by (intros ->; inversion Hex).
  destruct (_pop_action_class kw) as [c0|]; [|discriminate].
  unfold make_action. destruct c0; try discriminate.
  - destruct (kw_nargs kw) as [[| |[|k]|]|]; try discriminate; cbn [bind];
      destruct (type_callable _); try discriminate; intros [= <-]; auto.
  - destruct (kw_nargs kw) as [[| |[|k]|]|]; try discriminate; cbn [bind];
      destruct (type_callable _); try discriminate; intros [= <-]; auto.
  - destruct (kw_nargs kw), (kw_type kw); try discriminate; cbn [bind].
    intros [= <-]; auto.
Qed.

Lemma new_action_fields (args : list string) (kw : kwargs) (defaults : gmap string value)
    (a : Action) :
  new_action args kw defaults = Ok a ->
  help a = kw_help kw /\ choices a = None
  /\ _pop_action_class kw = Some (cls a)
  /\ type_ a = default TypeNone (kw_type kw)
  /\ type_callable (type_ a) = Ok tt
  /\ nargs a = match cls a with
               | StoreTrueAction => NargsInt 0
               | _ => default NargsNone (kw_nargs kw)
               end.
Proof.
  unfold new_action.
  destruct (match args with [] => _ | _ => _ end) as [[[l dest] required]|]; [|discriminate].
  cbn [bind]. destruct (_pop_action_class kw) as [c0|]; [|discriminate].
  unfold make_action. destruct c0; try discriminate.
  - destruct (kw_nargs kw) as [[| |[|k]|]|]; try discriminate; cbn [bind];
      destruct (type_callable _) as [[]|] eqn:Ht; try discriminate; intros [= <-];
      cbn in *; auto 10.
  - destruct (kw_nargs kw) as [[| |[|k]|]|]; try discriminate; cbn [bind];
      destruct (type_callable _) as [[]|] eqn:Ht; try discriminate; intros [= <-];
      cbn in *; auto 10.
  - destruct (kw_nargs kw), (kw_type kw); try discriminate; cbn [bind].
    intros [= <-]; cbn; auto 10.
Qed.

Lemma first_piece_starts (sep : ascii) (arg : string) :
  startswith "-" arg = true -> Ascii.eqb sep "-" = false ->
  exists piece rest, split (String sep EmptyString) arg = piece :: rest
                     /\ startswith "-" piece = true.
Proof.
  intros Hdash Hsep. destruct arg as [|c arg]; [discriminate Hdash|].
  rewrite split_char_cons.
  destruct (Ascii.eqb sep c) eqn:Hc.
  - apply Ascii.eqb_eq in Hc as <-. rewrite startswith_dash_cons in Hdash.
    unfold is_prefix_char, prefix_chars in Hdash. congruence.
  - destruct (split (String sep EmptyString) arg) as [|h t]; eauto.
Qed.

(** X6.  The rule that one argument line compiles to.  A spec that does
    not start with a dash gives a required positional, a string or, with
    the suffix [...], a list of one or more strings, named as the spec;
    a spec that starts with a dash gives an option that is not required,
    a toggle without [=] and an integer with it: no other rule comes out
    of the loop, and its help is the text of the line. *)
Theorem compiled_rule_kinds (arg arghelp : string) (defaults : gmap string value)
    (a : Action) :
  line_action [arg; arghelp] defaults = Ok a ->
  help a = Some arghelp
  /\ choices a = None
  /\ if startswith "-" arg
     then option_strings a <> [] /\ required a = false
          /\ Forall (fun s => startswith "-" s = true) (option_strings a)
          /\ (if contains "=" arg
              then type_ a = TypeInt /\ nargs a = NargsNone
                   /\ (cls a = StoreAction \/ cls a = AppendAction)
              else cls a = StoreTrueAction /\ nargs a = NargsInt 0
                   /\ option_strings a = split "|" arg)
     else option_strings a = [] /\ required a = true
          /\ (if endswith "..." arg
              then cls a = AppendAction /\ nargs a = ONE_OR_MORE /\ type_ a = TypeNone
                   /\ dest a = Some (slice_to_neg 3 arg)
              else cls a = StoreAction /\ nargs a = NargsNone /\ type_ a = TypeStr
                   /\ dest a = Some arg).
Proof.
  unfold line_action. cbn [unpack2 bind fst snd]. unfold compile_arg.
  destruct (startswith "-" arg) eqn:Hdash.
  - destruct (contains "=" arg) eqn:Heq.
    + destruct (unpack2 (split "=" arg)) as [[names atype]|] eqn:Hu; [|discriminate].
      cbn [bind fst snd]. intros H.
      destruct (new_action_fields _ _ _ _ H) as (Hhelp & Hch & Hcls & Hty & Hcall & Hn).
      cbn [kw_help kw_type kw_nargs kw_action] in *.
      assert (Hexists : Exists (fun s => startswith "-" s = true) (split "|" names)).
      { destruct (first_piece_starts "=" arg Hdash eq_refl) as (piece & rest & Hs & Hp).
        rewrite Hs in Hu. destruct rest as [|b [|? ?]]; try discriminate Hu.
        injection Hu as <- <-.
        destruct (first_piece_starts "|" piece Hp eq_refl) as (p' & rest' & Hs' & Hp').
        rewrite Hs'. now left. }
      destruct (flag_names _ _ _ _ Hexists H) as (Hos & Hne & Hreq & Hall).
      split; [exact Hhelp|]. split; [exact Hch|].
      split; [now rewrite Hos|]. split; [exact Hreq|]. split; [now rewrite Hos|].
      assert (Hint : type_ a = TypeInt).
      { rewrite Hty in *. cbn [default] in *.
        destruct (String.eqb _ "int"); [reflexivity | discriminate Hcall]. }
      split; [exact Hint|].
      destruct (endswith "..." atype); cbn in Hcls; injection Hcls as Hcls;
        rewrite <- Hcls in Hn |- *; auto.
    + cbn [bind fst snd]. intros H.
      destruct (new_action_fields _ _ _ _ H) as (Hhelp & Hch & Hcls & Hty & Hcall & Hn).
      cbn [kw_help kw_type kw_nargs kw_action] in *.
      assert (Hexists : Exists (fun s => startswith "-" s = true) (split "|" arg)).
      { destruct (first_piece_starts "|" arg Hdash eq_refl) as (p' & rest' & Hs' & Hp').
        rewrite Hs'. now left. }
      destruct (flag_names _ _ _ _ Hexists H) as (Hos & Hne & Hreq & Hall).
      cbn in Hcls. injection Hcls as Hcls. rewrite <- Hcls in Hn.
      split; [exact Hhelp|]. split; [exact Hch|].
      split; [now rewrite Hos|]. split; [exact Hreq|]. split; [now rewrite Hos|]. auto.
  - destruct (endswith "..." arg) eqn:Hdots; cbn [bind fst snd]; intros H;
      destruct (new_action_fields _ _ _ _ H) as (Hhelp & Hch & Hcls & Hty & Hcall & Hn);
      cbn [kw_help kw_type kw_nargs kw_action default] in *;
      cbn in Hcls; injection Hcls as Hcls; rewrite <- Hcls in Hn.
    + assert (Hplain : startswith "-" (slice_to_neg 3 arg) = false).
      { destruct arg as [|c arg]; [reflexivity|].
        unfold slice_to_neg. destruct (String.length (String c arg) - 3); [reflexivity|].
        cbn [slice_to]. rewrite startswith_dash_cons in Hdash |- *. exact Hdash. }
      destruct (positional_names _ _ _ _ _ eq_refl Hplain H) as (_ & Hos & Hdest & Hreq).
      auto 10.
    + destruct (positional_names _ _ _ _ _ eq_refl Hdash H) as (_ & Hos & Hdest & Hreq).
      auto 10.
Qed.

Lemma compiled_rule_kinds_witness :
  help files_action = Some "One or more files."
  /\ cls files_action = AppendAction /\ nargs files_action = ONE_OR_MORE
  /\ required files_action = true.
Proof.
  pose proof (compiled_rule_kinds "files..." "One or more files."
                                  {[ "func" := VFunc 0 ]} files_action eq_refl) as H.
  cbn [startswith endswith] in H.
  destruct H as (H1 & _ & _ & H2 & H3). vm_compute in H3.
  destruct H3 as (Hc & Hn & _). auto.
Defined.

End Rules.

Section RuleOrder.
Import Py Textwrap Docstring Argparse Geet.

(** the actions that a completed loop has added, line by line *)
Lemma add_arg_lines_actions (lines : list (list string)) (p p' : ArgumentParser) :
  add_arg_lines lines p = (Ok tt, p') ->
  exists actions,
    _actions p' = _actions p ++ actions
    /\ Forall2 (fun parts a => line_action parts (_defaults p) = Ok a) lines actions.
Proof.
  revert p. induction lines as [|l lines IH]; intros p H; simpl in H.
  - injection H as <-. exists []. split; [now rewrite app_nil_r | constructor].
  - rewrite add_arg_line_action in H.
    destruct (line_action l (_defaults p)) as [a|] eqn:Ha; [|discriminate H]. simpl in H.
    destruct (_add_action p a) as [p1|] eqn:Hadd; [|discriminate H].
    apply add_action_inv in Hadd as (_ & Hacts & _ & Hdef & _).
    destruct (IH p1 H) as (actions & Hacts' & Hall).
    exists (a :: actions). split.
    + now rewrite Hacts', Hacts, <- app_assoc.
    + constructor; [exact Ha|]. now rewrite <- Hdef.
Qed.

(** X7.  The parser of a command that is registered has the help action
    first and then one rule for each argument line, in the order of the
    lines; no option string belongs to two of its actions, so that no
    rule has [-h] or [--help]. *)
Theorem rules_follow_the_lines (parent parent' : SubParsers) (func : Func)
    (docstr : string) (d : Declaration) :
  __doc__ func = Some docstr ->
  parse_docstring docstr = Some d ->
  _add_subcommand parent func = (Ok tt, parent') ->
  exists p,
    parsers parent' !! length (parsers parent) = Some p
    /\ _actions p !! 0 = Some help_action
    /\ length (_actions p) = S (length (declared_arg_lines d))
    /\ (forall n line,
          declared_arg_lines d !! n = Some line ->
          exists a, _actions p !! S n = Some a
                    /\ line_action (split ": " line) {[ "func" := VFunc (fn_id func) ]} = Ok a)
    /\ (forall i j a b s,
          _actions p !! i = Some a -> _actions p !! j = Some b ->
          s ∈ option_strings a -> s ∈ option_strings b -> i = j)
    /\ (forall n a s, _actions p !! S n = Some a -> s ∈ option_strings a ->
                      s <> "-h" /\ s <> "--help").
Proof.
  intros Hdoc Hd Hreg.
  destruct (add_subcommand_keys _ _ _ _ _ Hdoc Hd Hreg) as (_ & p & Hlines & Hps & _).
  pose proof Hlines as Hinv.
  apply add_arg_lines_inv in Hinv as (Hwf & _ & _ & _ & _); [|apply fresh_parser_wf].
  apply add_arg_lines_actions in Hlines as (actions & Hacts & Hall).
  rewrite fresh_parser_defaults in Hall.
  change (_actions (fresh_parser parent d func)) with [help_action] in Hacts.
  assert (Hunique : forall i j a b s,
             _actions p !! i = Some a -> _actions p !! j = Some b ->
             s ∈ option_strings a -> s ∈ option_strings b -> i = j).
  { intros i j a b s Ha Hb Hsa Hsb.
    assert (Hi : _option_string_actions p !! s = Some i) by (apply Hwf; eauto).
    assert (Hj : _option_string_actions p !! s = Some j) by (apply Hwf; eauto).
    congruence. }
  exists p. split; [rewrite Hps; apply lookup_last|].
  split; [now rewrite Hacts|]. split.
  { rewrite Hacts. cbn [app length]. f_equal.
    apply Forall2_length in Hall. now rewrite length_map in Hall. }
  split; [|split; [exact Hunique|]].
  - intros n line Hn. rewrite Hacts. cbn [app lookup list_lookup].
    assert (Hparts : map (split ": ") (declared_arg_lines d) !! n = Some (split ": " line)).
    { now rewrite list_lookup_fmap, Hn. }
    destruct (Forall2_lookup_l _ _ _ _ _ Hall Hparts) as (a & Ha & Hline). eauto.
  - intros n a s Ha Hs.
    assert (H0 : _actions p !! 0 = Some help_action) by now rewrite Hacts.
    split; intros ->.
    + specialize (Hunique (S n) 0 a help_action "-h" Ha H0 Hs). discriminate Hunique.
      left.
    + specialize (Hunique (S n) 0 a help_action "--help" Ha H0 Hs). discriminate Hunique.
      right. left.
Qed.

Lemma rules_follow_the_lines_witness :
  exists p,
    parsers geet_subparsers !! 0 = Some p
    /\ _actions p !! 0 = Some help_action
    /\ length (_actions p) = 4.
Proof.
  destruct (rules_follow_the_lines
              (add_subparsers "geet") (_add_subcommand (add_subparsers "geet") testing).2
              testing testing_doc
              {| name := "testing"; shorthelp := "testing the cli api";
                 args_list := [nl +:+ "   branch: branch to integrate" +:+ nl
                               +:+ "   files...: One or more files." +:+ nl
                               +:+ "   -k|--kill: kill"];
                 aliases := ["t"; "test"]; longhelp := "" |}
              eq_refl eq_refl eq_refl)
    as (p & Hp & H0 & Hlen & _).
  exists p. split; [|split; [exact H0 | exact Hlen]].
  rewrite <- Hp. vm_compute. reflexivity.
Defined.

End RuleOrder.

Section Help.
Import Py Textwrap Docstring Argparse Geet.








Lemma same_parser_same_run (sp : SubParsers) (k1 k2 : string) (rest : list string)
    (i : nat) (p : ArgumentParser) :
  startswith "-" k1 = false -> startswith "-" k2 = false ->
  _name_parser_map sp !! k1 = Some i -> _name_parser_map sp !! k2 = Some i ->
  parsers sp !! i = Some p ->
  main sp (k1 :: rest) = main sp (k2 :: rest).
Proof.
  intros Hp1 Hp2 H1 H2 Hp. unfold main.
  rewrite (cli_parse_args_command sp k1 rest Hp1), (cli_parse_args_command sp k2 rest Hp2).
  rewrite H1, H2. cbn [mbind option_bind]. now rewrite Hp.
Qed.

(** X13.  The name of a command and its aliases are dispatched alike:
    with the same arguments, the run prints the same namespace, calls the
    same handler with it, or ends with the same error. *)
Theorem aliases_dispatch_alike (parent parent' : SubParsers) (func : Func)
    (docstr : string) (d : Declaration) (k1 k2 : string) (rest : list string) :
  __doc__ func = Some docstr ->
  parse_docstring docstr = Some d ->
  _add_subcommand parent func = (Ok tt, parent') ->
  k1 ∈ name d :: aliases d -> k2 ∈ name d :: aliases d ->
  startswith "-" k1 = false -> startswith "-" k2 = false ->
  main parent' (k1 :: rest) = main parent' (k2 :: rest).
Proof.
  intros Hdoc Hd Hreg Hk1 Hk2 Hp1 Hp2.
  destruct (add_subcommand_keys _ _ _ _ _ Hdoc Hd Hreg) as (Hkeys & p & _ & Hps & _).
  apply (same_parser_same_run parent' k1 k2 rest (length (parsers parent)) p Hp1 Hp2
                              (Hkeys k1 Hk1) (Hkeys k2 Hk2)).
  rewrite Hps. apply lookup_last.
Qed.

Lemma aliases_dispatch_alike_witness :
  main (_add_subcommand (add_subparsers "geet") testing).2 ["t"; "main"; "x"; "-k"]
  = main (_add_subcommand (add_subparsers "geet") testing).2 ["testing"; "main"; "x"; "-k"].
Proof.
  assert (Hreg : _add_subcommand (add_subparsers "geet") testing
                 = (Ok tt, (_add_subcommand (add_subparsers "geet") testing).2))
    by (vm_compute; reflexivity).
  assert (Hd : parse_docstring testing_doc
               = Some {| name := "testing"; shorthelp := "testing the cli api";
                         args_list := [nl +:+ "   branch: branch to integrate" +:+ nl
                                       +:+ "   files...: One or more files." +:+ nl
                                       +:+ "   -k|--kill: kill"];
                         aliases := ["t"; "test"]; longhelp := "" |})
    by (vm_compute; reflexivity).
  exact (aliases_dispatch_alike
           (add_subparsers "geet") _ testing testing_doc _
           "t" "testing" ["main"; "x"; "-k"] eq_refl Hd Hreg
           ltac:(right; left) ltac:(left) eq_refl eq_refl).
Defined.

End Help.

(** ** What the loop of [_parse_known_args] keeps *)

Section StateInvariant.
Import Py Textwrap Docstring Argparse Geet.
Variable call_parser : string -> list string -> gmap string value -> result (gmap string value).
Variable p : ArgumentParser.
Variable Q : pstate -> Prop.
Hypothesis Q_take :
  forall i a l st st',
    _actions p !! i = Some a -> Q st -> take_action call_parser p i a l st = Ok st' -> Q st'.
Hypothesis Q_frame :
  forall st ps ex,
    Q st -> Q {| namespace := namespace st; seen_actions := seen_actions st;
                 positionals := ps; extras := extras st ++ ex |}.

Lemma Q_state (st : pstate) (ps : list nat) :
  Q st -> Q {| namespace := namespace st; seen_actions := seen_actions st;
               positionals := ps; extras := extras st |}.
Proof. intros H. rewrite <- (app_nil_r (extras st)). now apply Q_frame. Qed.

Lemma action_at_inv (i : nat) (a : Action) :
  action_at p i = Ok a -> _actions p !! i = Some a.
Proof. unfold action_at. destruct (_actions p !! i); [now intros [= ->] | discriminate]. Qed.

Lemma take_actions_inv (tuples : list (nat * list string)) (st st' : pstate) :
  Q st -> take_actions call_parser p tuples st = Ok st' -> Q st'.
Proof.
  unfold take_actions. revert st.
  induction tuples as [|[i l] tuples IH]; intros st HQ; cbn [foldM]; [now intros [= <-]|].
  destruct (action_at p i) as [a|] eqn:Ha; [|discriminate]. cbn [bind].
  destruct (take_action call_parser p i a l st) as [st1|] eqn:Hst; [|discriminate].
  cbn [bind]. apply IH. exact (Q_take i a l st st1 (action_at_inv i a Ha) HQ Hst).
Qed.

Lemma consume_optional_inv (args : list string) (pattern : list sym) (start : nat)
    (cs : list classified) (st : pstate) (r : pstate * nat) :
  Q st -> consume_optional call_parser p args pattern start cs st = Ok r -> Q r.1.
Proof.
  intros HQ. unfold consume_optional.
  destruct (cs !! start) as [[c [[[[i|] o] e]|]]|]; try discriminate.
  - destruct (match e with Some _ => _ | None => _ end) as [r'|]; [|discriminate].
    cbn [bind]. destruct (take_actions call_parser p r'.1 st) as [st'|] eqn:Hst;
      [|discriminate].
    cbn [bind]. intros [= <-]. exact (take_actions_inv _ _ _ HQ Hst).
  - intros [= <-]. cbn [fst]. now apply Q_frame.
Qed.

Lemma mapM_action_at (positionals : list nat) (actions : list Action) :
  mapM (action_at p) positionals = Ok actions ->
  Forall2 (fun i a => _actions p !! i = Some a) positionals actions.
Proof.
  revert actions. induction positionals as [|i l IH]; intros actions; cbn [mapM].
  - intros [= <-]. constructor.
  - destruct (action_at p i) as [a|] eqn:Ha; [|discriminate]. cbn [bind].
    destruct (mapM (action_at p) l) as [as'|]; [|discriminate]. cbn [bind].
    intros [= <-]. constructor; [now apply action_at_inv | now apply IH].
Qed.

Lemma fold_positionals_inv (args : list string) (positionals : list nat)
    (actions : list Action) (counts : list nat) (st : pstate) (start : nat)
    (r : pstate * nat) :
  Forall2 (fun i a => _actions p !! i = Some a) positionals actions ->
  Q st ->
  foldM (fun '(st, start) '(i, a, arg_count) =>
           bind (take_action call_parser p i a (take arg_count (drop start args)) st)
                (fun st' => Ok (st', start + arg_count)))
        (st, start) (zip (zip positionals actions) counts) = Ok r ->
  Q r.1.
Proof.
  intros Hall. revert counts st start.
  induction Hall as [|i a positionals actions Hi _ IH]; intros counts st start HQ.
  - cbn [zip zip_with foldM]. now intros [= <-].
  - destruct counts as [|n counts]; cbn [zip zip_with foldM]; [now intros [= <-]|].
    destruct (take_action call_parser p i a _ st) as [st1|] eqn:Hst; [|discriminate].
    cbn [bind]. apply IH. exact (Q_take i a _ st st1 Hi HQ Hst).
Qed.

Lemma consume_positionals_inv (args : list string) (pattern : list sym) (start : nat)
    (st : pstate) (r : pstate * nat) :
  Q st -> consume_positionals call_parser p args pattern start st = Ok r -> Q r.1.
Proof.
  intros HQ. unfold consume_positionals.
  destruct (mapM (action_at p) (positionals st)) as [actions|] eqn:Hacts; [|discriminate].
  cbn [bind]. apply mapM_action_at in Hacts.
  destruct (foldM _ (st, start) _) as [r'|] eqn:Hfold; [|discriminate].
  cbn [bind]. intros [= <-]. cbn [fst]. apply Q_state.
  exact (fold_positionals_inv _ _ _ _ _ _ _ Hacts HQ Hfold).
Qed.

Lemma loop_body_inv (args : list string) (cs : list classified) (start : nat)
    (st : pstate) (r : pstate * nat) :
  Q st -> loop_body call_parser p args cs start st = Ok r -> Q r.1.
Proof.
  intros HQ. unfold loop_body.
  destruct (next_option_string_index cs start) as [next|]; [|discriminate].
  destruct (start =? next); [now apply consume_optional_inv|].
  destruct (consume_positionals _ _ _ _ _ _) as [r'|] eqn:Hpos; [|discriminate].
  cbn [bind]. pose proof (consume_positionals_inv _ _ _ _ _ HQ Hpos) as HQ'.
  destruct (start <? r'.2); [now intros [= <-]|].
  apply consume_optional_inv. unfold add_extras. now apply Q_frame.
Qed.

Lemma parse_loop_inv (fuel : nat) (args : list string) (cs : list classified)
    (max start : nat) (st : pstate) (r : pstate * nat) :
  Q st -> parse_loop call_parser p fuel args cs max start st = Ok r -> Q r.1.
Proof.
  revert start st. induction fuel as [|fuel IH]; intros start st HQ; cbn [parse_loop];
    destruct (start <=? max); try discriminate; try (now intros [= <-]).
  destruct (loop_body call_parser p args cs start st) as [r'|] eqn:Hbody; [|discriminate].
  cbn [bind]. apply IH. exact (loop_body_inv _ _ _ _ _ HQ Hbody).
Qed.

End StateInvariant.

(** ** Strings that are left over stay left over *)

Section Leftover.
Import Py Textwrap Docstring Argparse Geet.
Variable call_parser : string -> list string -> gmap string value -> result (gmap string value).
Variable p : ArgumentParser.

Lemma has_extras_take (i : nat) (a : Action) (l : list string) (st st' : pstate) :
  _actions p !! i = Some a -> has_extras st ->
  take_action call_parser p i a l st = Ok st' -> has_extras st'.
Proof.
  intros _ H. unfold take_action.
  destruct (_get_values a l); [|discriminate]. cbn [bind].
  destruct (call_action _ _ _ _ _); [|discriminate]. cbn [bind].
  now intros [= <-].
Qed.

Lemma has_extras_frame (st : pstate) (ps : list nat) (ex : list string) :
  has_extras st ->
  has_extras {| namespace := namespace st; seen_actions := seen_actions st;
                positionals := ps; extras := extras st ++ ex |}.
Proof. unfold has_extras. cbn [extras]. destruct (extras st); [contradiction | discriminate]. Qed.

(** once a string is left over in the first turn of the loop, a string
    is left over at the end *)
Lemma leftover_after_first_turn (args : list string) (cs : list classified) (k : nat)
    (ns : gmap string value) (st1 : pstate) (n1 : nat) :
  classify_args p args = Ok cs ->
  max_option_string_index cs = Some k ->
  loop_body call_parser p args cs 0
            {| namespace := ns; seen_actions := [];
               positionals := _get_positional_actions p; extras := [] |}
  = Ok (st1, n1) ->
  has_extras st1 ->
  forall ns', _parse_known_args call_parser p args ns <> Ok (ns', []).
Proof.
  intros Hcs Hmax Hbody Hex ns'. unfold _parse_known_args.
  rewrite Hcs. cbn [bind]. rewrite Hmax. cbn [parse_loop Nat.leb].
  rewrite Hbody. cbn [bind fst snd].
  destruct (parse_loop call_parser p _ args cs k n1 st1) as [r|] eqn:Hloop;
    [|discriminate].
  pose proof (parse_loop_inv call_parser p has_extras has_extras_take has_extras_frame
                             _ _ _ _ _ _ _ Hex Hloop) as Hr.
  cbn [bind].
  destruct (consume_positionals call_parser p args (cs.*1) r.2 r.1) as [r'|] eqn:Hpos;
    [|discriminate].
  pose proof (consume_positionals_inv call_parser p has_extras has_extras_take
                                      has_extras_frame _ _ _ _ _ Hr Hpos) as Hr'.
  cbn [bind]. destruct (foldM _ _ _) as [q|]; [|discriminate]. cbn [bind].
  destruct q.2; [|discriminate]. intros [= _ H].
  apply Hr'. now destruct (extras r'.1).
Qed.

Lemma raise_in_first_turn (args : list string) (cs : list classified) (k : nat)
    (ns : gmap string value) (e : exn) :
  classify_args p args = Ok cs ->
  max_option_string_index cs = Some k ->
  loop_body call_parser p args cs 0
            {| namespace := ns; seen_actions := [];
               positionals := _get_positional_actions p; extras := [] |}
  = Raise e ->
  _parse_known_args call_parser p args ns = Raise e.
Proof.
  intros Hcs Hmax Hbody. unfold _parse_known_args.
  rewrite Hcs. cbn [bind]. rewrite Hmax. cbn [parse_loop Nat.leb].
  now rewrite Hbody.
Qed.

(** [parse_args] returns only when no string is left over *)
Lemma parse_args_returns (args : list string) (ns : gmap string value) :
  parse_args call_parser p args = Ok ns ->
  exists ns', _parse_known_args call_parser p args (initial_namespace p) = Ok (ns', []).
Proof.
  unfold parse_args, parse_known_args.
  destruct (_parse_known_args call_parser p args _) as [[ns0 ex]|e];
    [|destruct e; discriminate].
  destruct ex as [|x ex]; [eauto|].
  destruct (ns0 !! _UNRECOGNIZED_ARGS_ATTR) as [[]|]; cbn [bind fst snd fmap list_fmap app];
    try discriminate;
    destruct (forallb _ _); discriminate.
Qed.

End Leftover.

Section TopOptions.
Import Py Textwrap Docstring Argparse Geet.
Variable sp : SubParsers.

Lemma top_lookup_zero (s : string) (i : nat) :
  _option_string_actions (top_parser sp) !! s = Some i -> i = 0.
Proof.
  cbn [_option_string_actions top_parser].
  destruct (decide (s = "--help")) as [->|Hne].
  - rewrite lookup_insert_eq. now intros [= <-].
  - rewrite lookup_insert_ne by congruence.
    destruct (decide (s = "-h")) as [->|Hne'].
    + rewrite lookup_insert_eq. now intros [= <-].
    + rewrite lookup_insert_ne by congruence. discriminate.
Qed.

Lemma top_option_tuples_zero (s : string) (t : option_tuple) :
  In t (_get_option_tuples (top_parser sp) s) -> t.1.1 = Some 0.
Proof.
  unfold _get_option_tuples. rewrite top_option_strings.
  destruct s as [|c0 [|c1 s]]; try (intros []).
  destruct (is_prefix_char c1).
  - destruct (match partition_eq _ with Some _ => _ | None => _ end) as [prefix e].
    cbn [omap list_omap].
    repeat match goal with
           | |- context [if ?b then _ else _] => destruct b
           end; cbn [In]; intuition (subst; reflexivity).
  - cbn [omap list_omap].
    repeat match goal with
           | |- context [if ?b then _ else _] => destruct b
           end; cbn [In]; intuition (subst; reflexivity).
Qed.

(** an option that the top parser knows is an option of its help action *)
Lemma top_option_index (s : string) (i : nat) (option_string : string)
    (explicit_arg : option string) :
  _parse_optional (top_parser sp) s = Ok (Some (Some i, option_string, explicit_arg)) ->
  i = 0.
Proof.
  unfold _parse_optional. destruct s as [|c0 rest]; [discriminate|].
  destruct (negb (is_prefix_char c0)); [discriminate|].
  destruct (_option_string_actions (top_parser sp) !! String c0 rest) as [j|] eqn:Hj.
  { intros [= <- _ _]. now apply top_lookup_zero in Hj. }
  destruct (String.eqb rest EmptyString); [discriminate|].
  destruct (partition_eq (String c0 rest)) as [[os e]|]; cbn [mbind option_bind].
  - destruct (_option_string_actions (top_parser sp) !! os) as [j|] eqn:Hos;
      cbn [mbind option_bind].
    { intros [= <- _ _]. now apply top_lookup_zero in Hos. }
    pose proof (top_option_tuples_zero (String c0 rest)) as Hin.
    destruct (_get_option_tuples _ _) as [|t [|t' l]]; try discriminate.
    + destruct (_ && _); [discriminate|]. destruct (contains _ _); discriminate.
    + intros [= ->]. specialize (Hin _ (or_introl eq_refl)). now injection Hin.
  - pose proof (top_option_tuples_zero (String c0 rest)) as Hin.
    destruct (_get_option_tuples _ _) as [|t [|t' l]]; try discriminate.
    + destruct (_ && _); [discriminate|]. destruct (contains _ _); discriminate.
    + intros [= ->]. specialize (Hin _ (or_introl eq_refl)). now injection Hin.
Qed.

Lemma top_take_help (tl : list (nat * list string)) (st : pstate) :
  take_actions (call_subparser sp) (top_parser sp) ((0, []) :: tl) st
  = Raise (SystemExit 0 (HelpText (_prog_prefix sp))).
Proof. reflexivity. Qed.

Lemma top_explicit_head (args : list string) (pattern : list sym) (start : nat)
    (option_string explicit_arg : string) (r : list (nat * list string) * nat) :
  explicit_args (top_parser sp) args pattern start 0 option_string explicit_arg = Ok r ->
  exists tl, r.1 = (0, []) :: tl.
Proof.
  destruct explicit_arg as [|c rest]; [discriminate|].
  cbn [explicit_args]. change (action_at (top_parser sp) 0) with (Ok help_action).
  cbn [bind]. change (_match_argument help_action [SymA]) with (Ok 0 : result nat).
  cbn [bind].
  destruct option_string as [|char [|c1 s]]; try discriminate.
  destruct (is_prefix_char c1); [discriminate|].
  destruct (_option_string_actions (top_parser sp) !! _) as [i'|]; [|discriminate].
  destruct (match rest with EmptyString => _ | _ => _ end) as [r'|]; [|discriminate].
  cbn [bind]. intros [= <-]. cbn [fst]. eauto.
Qed.

(** at the top, an option that is known ends the parsing *)
Lemma top_consume_known (args : list string) (pattern : list sym) (start : nat)
    (cs : list classified) (st : pstate) (c : sym) (option_string : string)
    (explicit_arg : option string) :
  cs !! start = Some (c, Some (Some 0, option_string, explicit_arg)) ->
  exists e, consume_optional (call_subparser sp) (top_parser sp) args pattern start cs st
            = Raise e.
Proof.
  intros Hcs. unfold consume_optional. rewrite Hcs.
  destruct explicit_arg as [e|].
  - destruct (explicit_args _ _ _ _ _ _ _) as [r|err] eqn:Hr; [|eauto].
    apply top_explicit_head in Hr as [tl Hr]. cbn [bind]. rewrite Hr, top_take_help. eauto.
  - unfold following_args. change (action_at (top_parser sp) 0) with (Ok help_action).
    cbn [bind].
    change (_match_argument help_action (drop (start + 1) pattern)) with (Ok 0 : result nat).
    cbn [bind fst snd take]. rewrite top_take_help. eauto.
Qed.

End TopOptions.

Section TopParse.
Import Py Textwrap Docstring Argparse Geet.
Variable sp : SubParsers.

(** the first string of the arguments of the top parser is an option *)
Lemma top_option_first (tok : string) (rest : list string) (t : option_tuple)
    (cs : list classified) (ns : gmap string value) :
  classify_args (top_parser sp) (tok :: rest) = Ok ((SymO, Some t) :: cs) ->
  cli_parse_args sp (tok :: rest) <> Ok ns.
Proof.
  intros Hcs Hparse. apply parse_args_returns in Hparse as [ns' Hparse].
  assert (Hmax : exists k, max_option_string_index ((SymO, Some t) :: cs) = Some k).
  { cbn [max_option_string_index snd]. destruct (max_option_string_index cs); eauto. }
  destruct Hmax as [k Hmax].
  assert (Htok : _parse_optional (top_parser sp) tok = Ok (Some t)).
  { cbn [classify_args] in Hcs. destruct (String.eqb tok "--"); [discriminate Hcs|].
    destruct (_parse_optional (top_parser sp) tok) as [[ot|]|]; try discriminate Hcs;
      cbn [bind] in Hcs;
      destruct (classify_args (top_parser sp) rest); try discriminate Hcs;
      cbn [bind] in Hcs.
    now injection Hcs as -> _. }
  set (st0 := {| namespace := initial_namespace (top_parser sp); seen_actions := [];
                 positionals := _get_positional_actions (top_parser sp); extras := [] |}).
  assert (Hbody : loop_body (call_subparser sp) (top_parser sp) (tok :: rest)
                            ((SymO, Some t) :: cs) 0 st0
                  = consume_optional (call_subparser sp) (top_parser sp) (tok :: rest)
                                     (((SymO, Some t) :: cs).*1) 0
                                     ((SymO, Some t) :: cs) st0)
    by reflexivity.
  destruct t as [[[i|] option_string] explicit_arg].
  - apply top_option_index in Htok as ->.
    destruct (top_consume_known
                sp (tok :: rest)
                (((SymO, Some (Some 0, option_string, explicit_arg)) :: cs).*1) 0
                ((SymO, Some (Some 0, option_string, explicit_arg)) :: cs)
                st0 SymO option_string explicit_arg eq_refl) as [e He].
    rewrite (raise_in_first_turn _ _ _ _ _ _ e Hcs Hmax (eq_trans Hbody He)) in Hparse.
    discriminate Hparse.
  - refine (leftover_after_first_turn _ _ _ _ _ _ _ _ Hcs Hmax Hbody _ ns' Hparse).
    discriminate.
Qed.

Lemma no_option_plain (rest : list string) :
  max_option_string_index (map (fun _ : string => ((SymA, None) : classified)) rest) = None.
Proof. induction rest as [|s rest IH]; [reflexivity|]. cbn. now rewrite IH. Qed.

Lemma re_match_parser_dashdash (syms : list sym) :
  re_match [Star [SymDash]; One [SymA]; Star [SymDash; SymA; SymO]; GroupEnd]
           (SymDash :: SymA :: syms) 0 = Some [S (S (length syms))].
Proof.
  apply re_match_star_longest.
  change (re_match [Star [SymDash; SymA; SymO]; GroupEnd] syms 2
          = Some [S (S (length syms))]).
  apply re_match_star_longest.
  rewrite span_any, drop_all. reflexivity.
Qed.

Lemma top_consume_positionals_dashdash (r1 : string) (rest : list string)
    (syms : list sym) (ns : gmap string value) :
  length syms = length rest ->
  consume_positionals (call_subparser sp) (top_parser sp) ("--" :: r1 :: rest)
                      (SymDash :: SymA :: syms) 0 (top_state ns [] [1])
  = dispatch sp "--" (r1 :: rest) ns.
Proof.
  intros Hlen. unfold consume_positionals, dispatch.
  change (mapM (action_at (top_parser sp)) (positionals (top_state ns [] [1])))
    with (Ok [subparsers_action sp] : result (list Action)).
  cbn [bind drop].
  assert (Hm : _match_arguments_partial [subparsers_action sp] (SymDash :: SymA :: syms)
               = [S (S (length syms))]).
  { unfold _match_arguments_partial, match_partial_from. simpl length.
    cbn [take concat map _get_nargs_pattern nargs option_strings subparsers_action app].
    now rewrite re_match_parser_dashdash. }
  rewrite Hm.
  cbn [positionals top_state zip zip_with foldM fst snd].
  rewrite Hlen. change (S (S (length rest))) with (length ("--" :: r1 :: rest)) at 1.
  change (drop 0 ("--" :: r1 :: rest)) with ("--" :: r1 :: rest).
  rewrite firstn_all, top_take_action.
  destruct (_name_parser_map sp !! "--"); [|reflexivity].
  unfold top_state; cbn [namespace].
  destruct (call_subparser sp "--" (r1 :: rest) ns); reflexivity.
Qed.

(** the end of [_parse_known_args] once the sub-parser has returned *)
Lemma top_finish (tok : string) (rest : list string) (syms : list sym)
    (ns : gmap string value) (st : pstate * nat) :
  dispatch sp tok rest ns = Ok st ->
  st = (top_state (namespace st.1) [1] [], S (length rest))
  /\ bind (consume_positionals (call_subparser sp) (top_parser sp) (tok :: rest)
                               syms st.2 st.1)
          (fun r' =>
             bind (foldM (check_required (seen_actions r'.1))
                         (namespace r'.1, []) (imap pair (_actions (top_parser sp))))
                  (fun q => match q.2 with
                            | [] => Ok (q.1, extras r'.1 ++ drop r'.2 (tok :: rest))
                            | names =>
                                Raise (SystemExit 2
                                         (RequiredArguments (prog (top_parser sp)) names))
                            end))
     = Ok (namespace st.1, []).
Proof.
  intros Hst.
  assert (Hend : st = (top_state (namespace st.1) [1] [], S (length rest))).
  { unfold dispatch in Hst. destruct (_name_parser_map sp !! tok); [|discriminate].
    destruct (call_subparser sp tok rest ns); [|discriminate]. now injection Hst as <-. }
  split; [exact Hend|]. rewrite Hend. cbn [fst snd].
  rewrite top_consume_nothing. cbn [bind fst snd seen_actions namespace top_state].
  rewrite top_required. cbn [bind fst snd extras].
  change (S (length rest)) with (length (tok :: rest)). now rewrite drop_all.
Qed.

(** the arguments of the top parser start with an argument: the command *)
Lemma top_parse_classified (tok : string) (rest : list string) (cs : list classified)
    (ns : gmap string value) :
  classify_args (top_parser sp) (tok :: rest) = Ok ((SymA, None) :: cs) ->
  _parse_known_args (call_subparser sp) (top_parser sp) (tok :: rest) ns
  = bind (dispatch sp tok rest ns) (fun r => Ok (namespace r.1, [])).
Proof.
  intros Hcs. pose proof (classify_length _ _ _ Hcs) as Hlen.
  cbn [length] in Hlen. injection Hlen as Hlen.
  unfold _parse_known_args. rewrite Hcs. cbn [bind].
  change {| namespace := ns; seen_actions := [];
            positionals := _get_positional_actions (top_parser sp); extras := [] |}
    with (top_state ns [] [1]).
  assert (Hsyms : length cs.*1 = length rest) by now rewrite length_fmap.
  change (((SymA, None) :: cs).*1) with (SymA :: cs.*1) in *.
  cbn [max_option_string_index snd].
  destruct (max_option_string_index cs) as [k|] eqn:Hmax.
  - destruct (first_option_of_max cs k Hmax) as [j Hj].
    apply max_option_lt in Hmax.
    cbn [parse_loop length Nat.leb bind].
    unfold loop_body, next_option_string_index. cbn [drop first_option].
    rewrite Hj. cbn [fmap option_fmap option_map Nat.add Nat.eqb].
    change (list_fmap (sym * option option_tuple)%type sym fst ((SymA, None) :: cs))
      with (SymA :: cs.*1).
    rewrite (top_consume_positionals sp tok rest _ ns Hsyms).
    destruct (dispatch sp tok rest ns) as [st|e] eqn:Hst; [|reflexivity].
    destruct (top_finish tok rest (SymA :: cs.*1) ns st Hst) as [Hend Hfinish].
    rewrite Hend in Hfinish |- *.
    cbn [bind fst snd Nat.ltb Nat.leb].
    assert (Hexit : (length rest <=? k) = false).
    { apply Nat.leb_gt. rewrite <- Hlen. exact Hmax. }
    rewrite Hexit. cbn [bind fst snd]. exact Hfinish.
  - cbn [bind fst snd].
    rewrite (top_consume_positionals sp tok rest _ ns Hsyms).
    destruct (dispatch sp tok rest ns) as [st|e] eqn:Hst; [|reflexivity].
    destruct (top_finish tok rest (SymA :: cs.*1) ns st Hst) as [Hend Hfinish].
    rewrite Hend in Hfinish |- *. exact Hfinish.
Qed.

(** the arguments start with ["--"] and go on: the command is ["--"] *)
Lemma top_parse_dashdash (r1 : string) (rest : list string) (ns : gmap string value) :
  _parse_known_args (call_subparser sp) (top_parser sp) ("--" :: r1 :: rest) ns
  = bind (dispatch sp "--" (r1 :: rest) ns) (fun r => Ok (namespace r.1, [])).
Proof.
  unfold _parse_known_args.
  change (classify_args (top_parser sp) ("--" :: r1 :: rest))
    with (Ok ((SymDash, None) :: (SymA, None)
              :: map (fun _ : string => ((SymA, None) : classified)) rest)
          : result (list classified)).
  cbn [bind]. cbn [max_option_string_index snd]. rewrite no_option_plain.
  cbn [bind fst snd].
  change {| namespace := ns; seen_actions := [];
            positionals := _get_positional_actions (top_parser sp); extras := [] |}
    with (top_state ns [] [1]).
  set (syms := (map (fun _ : string => ((SymA, None) : classified)) rest).*1).
  assert (Hsyms : length syms = length rest).
  { unfold syms. now rewrite length_fmap, length_map. }
  change (((SymDash, None) :: (SymA, None)
           :: map (fun _ : string => ((SymA, None) : classified)) rest).*1)
    with (SymDash :: SymA :: syms).
  rewrite (top_consume_positionals_dashdash r1 rest syms ns Hsyms).
  destruct (dispatch sp "--" (r1 :: rest) ns) as [st|e] eqn:Hst; [|reflexivity].
  destruct (top_finish "--" (r1 :: rest) (SymDash :: SymA :: syms) ns st Hst)
    as [Hend Hfinish].
  rewrite Hend in Hfinish |- *. exact Hfinish.
Qed.

(** what [cli.parse_args] returns once the command is given to its
    parser *)
Lemma cli_parse_args_of_dispatch (tok : string) (rest : list string) :
  _parse_known_args (call_subparser sp) (top_parser sp) (tok :: rest) ∅
  = bind (dispatch sp tok rest ∅) (fun r => Ok (namespace r.1, [])) ->
  cli_parse_args sp (tok :: rest)
  = match _name_parser_map sp !! tok ≫= (fun i => parsers sp !! i) with
    | None => Raise (SystemExit 2 (UsageError (_prog_prefix sp)
                                              (match _name_parser_map sp !! tok with
                                               | None => InvalidChoice tok
                                               | Some _ => UnknownParser tok
                                               end)))
    | Some p => dispatched sp (parse_known_args no_subparsers p rest)
    end.
Proof.
  intros Htop. unfold cli_parse_args, parse_args, parse_known_args at 1.
  change (initial_namespace (top_parser sp)) with (∅ : gmap string value).
  rewrite Htop. unfold dispatch, call_subparser.
  destruct (_name_parser_map sp !! tok) as [i|]; [|reflexivity]. cbn [mbind option_bind].
  destruct (parsers sp !! i) as [p|]; [|reflexivity]. cbn [bind].
  destruct (parse_known_args no_subparsers p rest) as [[ns extras]|e] eqn:Hsub.
  - apply parse_known_args_no_attr in Hsub. cbn [bind fst snd].
    rewrite (right_id_L ∅ (∪) ns). destruct extras as [|v extras].
    + cbn [bind fst snd namespace top_state]. rewrite Hsub. reflexivity.
    + rewrite Hsub. cbn [bind fst snd namespace top_state].
      rewrite lookup_insert_eq. cbn [bind fst snd fmap list_fmap app].
      reflexivity.
  - cbn [bind]. destruct e; try reflexivity.
    now apply parse_known_args_exits in Hsub.
Qed.

Lemma dispatched_returns (r : result (gmap string value * list value))
    (ns : gmap string value) :
  dispatched sp r = Ok ns -> r = Ok (ns, []).
Proof.
  unfold dispatched. destruct r as [[ns' [|v l]]|e]; try discriminate.
  - now intros [= ->].
  - destruct (forallb _ _); discriminate.
Qed.

(** [cli.parse_args] returns a namespace in two cases only: there is no
    argument, or the first argument is the name or an alias of a command
    whose parser accepts all the other arguments *)
Lemma cli_parse_args_returns (argv : list string) (ns : gmap string value) :
  cli_parse_args sp argv = Ok ns ->
  (argv = [] /\ ns = ∅)
  \/ exists tok rest i p,
       argv = tok :: rest
       /\ _name_parser_map sp !! tok = Some i /\ parsers sp !! i = Some p
       /\ parse_known_args no_subparsers p rest = Ok (ns, []).
Proof.
  intros Hparse. destruct argv as [|tok rest].
  { left. split; [reflexivity|]. rewrite parse_args_no_arguments in Hparse.
    now injection Hparse. }
  right.
  assert (Hdispatch : _parse_known_args (call_subparser sp) (top_parser sp) (tok :: rest) ∅
                      = bind (dispatch sp tok rest ∅) (fun r => Ok (namespace r.1, []))).
  { destruct (top_classify sp (tok :: rest)) as (cs & Hcs & Hlen).
    destruct cs as [|[c0 t0] cs]; [discriminate Hlen|].
    pose proof Hcs as Hhead. cbn [classify_args] in Hhead.
    destruct (String.eqb_spec tok "--") as [->|Hne].
    - destruct rest as [|r1 rest]; [|apply top_parse_dashdash].
      exfalso. vm_compute in Hparse. discriminate Hparse.
    - destruct (_parse_optional (top_parser sp) tok) as [[ot|]|]; try discriminate Hhead;
        cbn [bind] in Hhead;
        destruct (classify_args (top_parser sp) rest) as [cs'|]; try discriminate Hhead;
        cbn [bind] in Hhead; injection Hhead as <- <- <-.
      + exfalso. exact (top_option_first tok rest ot cs' ns Hcs Hparse).
      + now apply top_parse_classified with (cs := cs'). }
  rewrite (cli_parse_args_of_dispatch tok rest Hdispatch) in Hparse.
  destruct (_name_parser_map sp !! tok) as [i|] eqn:Hi; [|discriminate Hparse].
  cbn [mbind option_bind] in Hparse.
  destruct (parsers sp !! i) as [p|] eqn:Hp; [|discriminate Hparse].
  apply dispatched_returns in Hparse. exists tok, rest, i, p. auto.
Qed.

End TopParse.

Section Keys.
Import Py Textwrap Docstring Argparse Geet.
Variable p : ArgumentParser.
Variable key : string.
Hypothesis no_rule : no_rule_for key p.

Hypothesis key_not_suppress : key <> "==SUPPRESS==".

Lemma written_key (a : Action) :
  a ∈ _actions p -> default "==SUPPRESS==" (dest a) <> key.
Proof.
  intros Ha Hk. specialize (no_rule a Ha). destruct (dest a) as [d|]; cbn in Hk.
  - now subst d.
  - now symmetry in Hk.
Qed.

Lemma call_action_keeps_key (a : Action) (ns ns' : gmap string value) (v : value) :
  a ∈ _actions p ->
  call_action no_subparsers p a ns v = Ok ns' -> ns' !! key = ns !! key.
Proof.
  intros Ha. pose proof (written_key a Ha) as Hk. unfold call_action.
  destruct (cls a).
  - intros [= <-]. now rewrite lookup_insert_ne.
  - destruct (default VNone (ns !! _)); try discriminate;
      intros [= <-]; now rewrite lookup_insert_ne.
  - intros [= <-]. now rewrite lookup_insert_ne.
  - discriminate.
  - destruct v as [| | | |[|[] l]|]; discriminate.
Qed.

Lemma take_action_keeps_key (v0 : option value) (i : nat) (a : Action) (l : list string)
    (st st' : pstate) :
  _actions p !! i = Some a -> namespace st !! key = v0 ->
  take_action no_subparsers p i a l st = Ok st' -> namespace st' !! key = v0.
Proof.
  intros Hi Hst. unfold take_action.
  destruct (_get_values a l) as [v|]; [|discriminate]. cbn [bind].
  destruct (call_action no_subparsers p a (namespace st) v) as [ns'|] eqn:Hcall;
    [|discriminate].
  cbn [bind]. intros [= <-]. cbn [namespace].
  rewrite (call_action_keeps_key a _ _ _ (list_elem_of_lookup_2 _ _ _ Hi) Hcall).
  exact Hst.
Qed.

Lemma check_required_keeps_key (seen : list nat) (acc acc' : gmap string value * list string)
    (i : nat) (a : Action) :
  a ∈ _actions p ->
  check_required seen acc (i, a) = Ok acc' -> acc'.1 !! key = acc.1 !! key.
Proof.
  intros Ha. pose proof (no_rule a Ha) as Hk. unfold check_required.
  destruct (bool_decide _); [now intros [= <-]|].
  destruct (required a); [now intros [= <-]|].
  destruct (default_ a) as [[]|]; try (now intros [= <-]).
  destruct (dest a) as [d|]; [|now intros [= <-]].
  destruct (acc.1 !! d) as [[]|]; try (now intros [= <-]).
  destruct (String.eqb _ _); [|now intros [= <-]].
  destruct (_get_value a _); [|discriminate]. cbn [bind]. intros [= <-]. cbn [fst].
  rewrite lookup_insert_ne; [reflexivity | congruence].
Qed.

Lemma required_keeps_key (seen : list nat) (l : list (nat * Action))
    (acc acc' : gmap string value * list string) :
  (forall ia, In ia l -> ia.2 ∈ _actions p) ->
  foldM (check_required seen) acc l = Ok acc' -> acc'.1 !! key = acc.1 !! key.
Proof.
  revert acc. induction l as [|[i a] l IH]; intros acc Hl; cbn [foldM]; [now intros [= <-]|].
  destruct (check_required seen acc (i, a)) as [acc1|] eqn:H1; [|discriminate].
  cbn [bind]. intros H. rewrite (IH acc1 (fun ia Hia => Hl ia (or_intror Hia)) H).
  apply (check_required_keeps_key seen acc acc1 i a); [|exact H1].
  exact (Hl (i, a) (or_introl eq_refl)).
Qed.

Lemma imap_pair_in {A} (l : list A) (ia : nat * A) :
  In ia (imap pair l) -> ia.2 ∈ l.
Proof.
  intros H. apply list_elem_of_In, elem_of_lookup_imap in H as (i & a & -> & Hi).
  exact (list_elem_of_lookup_2 _ _ _ Hi).
Qed.

Lemma initial_namespace_key : initial_namespace p !! key = _defaults p !! key.
Proof.
  unfold initial_namespace.
  assert (Hfold : forall (l : list Action) (ns : gmap string value),
             (forall a, a ∈ l -> dest a <> Some key) ->
             fold_left (fun ns a =>
                          match dest a, default_ a with
                          | Some d, Some v =>
                              match ns !! d with None => <[d := v]> ns | Some _ => ns end
                          | _, _ => ns
                          end) l ns !! key = ns !! key).
  { induction l as [|a l IH]; intros ns Hl; [reflexivity|]. cbn [fold_left].
    rewrite IH by (intros a' Ha'; apply Hl; now right).
    assert (Ha : dest a <> Some key) by (apply Hl; left).
    destruct (dest a) as [d|]; [|reflexivity].
    destruct (default_ a); [|reflexivity].
    destruct (ns !! d); [reflexivity|].
    rewrite lookup_insert_ne; [reflexivity | congruence]. }
  rewrite lookup_union, (Hfold _ ∅ no_rule), lookup_empty.
  now destruct (_defaults p !! key).
Qed.

(** an attribute that no rule writes to has in the end the value that
    [set_defaults] gave it *)
Lemma parse_known_args_keeps_key (args : list string) (ns : gmap string value)
    (left_over : list value) :
  key <> _UNRECOGNIZED_ARGS_ATTR ->
  parse_known_args no_subparsers p args = Ok (ns, left_over) ->
  ns !! key = _defaults p !! key.
Proof.
  intros Hattr. unfold parse_known_args.
  destruct (_parse_known_args no_subparsers p args (initial_namespace p))
    as [[ns0 ex]|e] eqn:Hparse; [|destruct e; discriminate].
  assert (H0 : ns0 !! key = _defaults p !! key).
  { rewrite <- initial_namespace_key. unfold _parse_known_args in Hparse.
    destruct (classify_args p args) as [cs|]; [|discriminate Hparse]. cbn [bind] in Hparse.
    set (Q := fun st : pstate => namespace st !! key = initial_namespace p !! key).
    assert (Q_take : forall i a l st st',
               _actions p !! i = Some a -> Q st ->
               take_action no_subparsers p i a l st = Ok st' -> Q st').
    { intros i a l st st'. apply take_action_keeps_key. }
    assert (Q_frame : forall st ps ex',
               Q st -> Q {| namespace := namespace st; seen_actions := seen_actions st;
                            positionals := ps; extras := extras st ++ ex' |}) by auto.
    destruct (match max_option_string_index cs with Some _ => _ | None => _ end)
      as [r|] eqn:Hloop; [|discriminate Hparse].
    assert (Hr : Q r.1).
    { destruct (max_option_string_index cs).
      - apply (parse_loop_inv no_subparsers p Q Q_take Q_frame _ _ _ _ _ _ _
                              (eq_refl : Q {| namespace := initial_namespace p;
                                              seen_actions := [];
                                              positionals := _get_positional_actions p;
                                              extras := [] |}) Hloop).
      - injection Hloop as <-. reflexivity. }
    cbn [bind] in Hparse.
    destruct (consume_positionals no_subparsers p args (cs.*1) r.2 r.1) as [r'|] eqn:Hpos;
      [|discriminate Hparse].
    pose proof (consume_positionals_inv no_subparsers p Q Q_take Q_frame _ _ _ _ _ Hr Hpos)
      as Hr'.
    cbn [bind] in Hparse.
    destruct (foldM _ _ _) as [q|] eqn:Hq; [|discriminate Hparse]. cbn [bind] in Hparse.
    apply required_keeps_key in Hq; [|intros ia; apply imap_pair_in].
    destruct q.2; [|discriminate Hparse]. injection Hparse as <- _.
    rewrite Hq. exact Hr'. }
  destruct (ns0 !! _UNRECOGNIZED_ARGS_ATTR) as [[]|]; try discriminate;
    intros [= <- _]; rewrite ?lookup_delete_ne by congruence; exact H0.
Qed.

End Keys.

Section Handlers.
Import Py Textwrap Docstring Argparse Geet.

Lemma registered_defaults (sp : SubParsers) :
  registered sp ->
  forall i p, parsers sp !! i = Some p -> exists f, _defaults p !! "func" = Some (VFunc f).
Proof.
  induction 1 as [prog|sp func Hsp IH]; intros i p Hp; [discriminate Hp|].
  destruct (add_subcommand_cases sp func)
    as [[e He]|(docstr & d & j & sp1 & Hdoc & Hd & Hadd)].
  - rewrite He in Hp. now apply (IH i).
  - rewrite (add_subcommand_registered _ _ _ _ _ _ Hdoc Hd Hadd) in Hp. cbn [snd parsers] in Hp.
    destruct (decide (i < length (parsers sp))) as [Hlt|Hge].
    + rewrite lookup_app_l in Hp by exact Hlt. now apply (IH i).
    + rewrite lookup_app_r in Hp by lia.
      destruct (i - length (parsers sp)) as [|n]; [|discriminate Hp].
      injection Hp as <-.
      destruct (add_arg_lines_keeps (map (split ": ") (declared_arg_lines d))
                                    (fresh_parser sp d func) (fresh_parser_wf sp d func))
        as (_ & Hdef & _).
      rewrite Hdef. eauto.
Qed.

(** X15.  A handler is called only when the first argument is the name
    or an alias of a command and the parser of this command accepts all
    the arguments after it; the handler is then called once, with the
    namespace of this parser, after the namespace is printed. *)
Theorem handler_needs_valid_command (sp : SubParsers) (argv : list string) (f : nat) :
  f ∈ handlers_called (main sp argv) ->
  exists tok rest i p ns,
    argv = tok :: rest
    /\ _name_parser_map sp !! tok = Some i /\ parsers sp !! i = Some p
    /\ parse_known_args no_subparsers p rest = Ok (ns, [])
    /\ ns !! "func" = Some (VFunc f)
    /\ main sp argv = ([PrintArgs ns; CallHandler f ns], Ok tt).
Proof.
  intros Hcalled.
  destruct (handler_called_after_parse sp argv f Hcalled) as (ns & Hparse & Hfunc).
  destruct (cli_parse_args_returns sp argv ns Hparse)
    as [[_ ->]|(tok & rest & i & p & -> & Hi & Hp & Hsub)]; [discriminate Hfunc|].
  exists tok, rest, i, p, ns. repeat (split; [assumption || reflexivity|]).
  unfold main. now rewrite Hparse, Hfunc.
Qed.

Lemma handler_needs_valid_command_witness :
  exists tok rest i p ns,
    ["foobar"] = tok :: rest
    /\ _name_parser_map (_add_subcommand (add_subparsers "geet") foobar).2 !! tok = Some i
    /\ parsers (_add_subcommand (add_subparsers "geet") foobar).2 !! i = Some p
    /\ parse_known_args no_subparsers p rest = Ok (ns, [])
    /\ ns !! "func" = Some (VFunc 1)
    /\ main (_add_subcommand (add_subparsers "geet") foobar).2 ["foobar"]
       = ([PrintArgs ns; CallHandler 1 ns], Ok tt).
Proof.
  apply (handler_needs_valid_command
           (_add_subcommand (add_subparsers "geet") foobar).2 ["foobar"] 1).
  vm_compute. left.
Defined.

(** X16.  With a registry that registrations have built and no rule that
    writes to [func], every run of [main] ends in one of three ways: with
    [AttributeError] when there is no argument, inside [cli.parse_args],
    or with the call of a handler that a command of the registry has as
    its default.  The branch of [cli.print_help()] is never taken. *)
Theorem main_prints_no_help (sp : SubParsers) (argv : list string) :
  registered sp ->
  (forall i p, parsers sp !! i = Some p -> no_rule_for "func" p) ->
  ~ In PrintHelp (main sp argv).1
  /\ ((argv = []
       /\ main sp argv
          = ([PrintArgs ∅],
             Raise (AttributeError "'Namespace' object has no attribute 'func'")))
      \/ (exists e, cli_parse_args sp argv = Raise e /\ main sp argv = ([], Raise e))
      \/ (exists ns f i p,
            main sp argv = ([PrintArgs ns; CallHandler f ns], Ok tt)
            /\ parsers sp !! i = Some p
            /\ _defaults p !! "func" = Some (VFunc f))).
Proof.
  intros Hreg Hrules.
  assert (Hcases : (argv = []
                    /\ main sp argv
                       = ([PrintArgs ∅],
                          Raise (AttributeError "'Namespace' object has no attribute 'func'")))
                   \/ (exists e, cli_parse_args sp argv = Raise e
                                 /\ main sp argv = ([], Raise e))
                   \/ (exists ns f i p,
                         main sp argv = ([PrintArgs ns; CallHandler f ns], Ok tt)
                         /\ parsers sp !! i = Some p
                         /\ _defaults p !! "func" = Some (VFunc f))).
  { destruct (cli_parse_args sp argv) as [ns|e] eqn:Hparse.
    - destruct (cli_parse_args_returns sp argv ns Hparse)
        as [[-> ->]|(tok & rest & i & p & -> & Hi & Hp & Hsub)]; [now left|].
      right. right.
      destruct (registered_defaults sp Hreg i p Hp) as [f Hf].
      pose proof (parse_known_args_keeps_key p "func" (Hrules i p Hp) ltac:(discriminate)
                    rest ns [] ltac:(discriminate) Hsub) as Hfunc.
      rewrite Hf in Hfunc.
      exists ns, f, i, p. split; [|auto]. unfold main. now rewrite Hparse, Hfunc.
    - right. left. exists e. split; [reflexivity|]. unfold main. now rewrite Hparse. }
  split; [|exact Hcases].
  destruct Hcases as [[_ ->]|[(e & _ & ->)|(ns & f & i & p & -> & _)]]; cbn [fst In];
    intuition discriminate.
Qed.

End Handlers.

Section Handlers2.
Import Py Textwrap Docstring Argparse Geet.

Lemma foobar_registry_rules (i : nat) (p : ArgumentParser) :
  parsers (_add_subcommand (add_subparsers "geet") foobar).2 !! i = Some p ->
  no_rule_for "func" p.
Proof.
  intros Hp a Ha. destruct i as [|i]; [|discriminate Hp].
  vm_compute in Hp. injection Hp as <-.
  apply list_elem_of_In in Ha. cbn [_actions In] in Ha.
  destruct Ha as [<-|[]]. discriminate.
Qed.

Lemma main_prints_no_help_witness :
  ~ In PrintHelp (main (_add_subcommand (add_subparsers "geet") foobar).2 ["foobar"]).1.
Proof.
  exact (proj1 (main_prints_no_help
                  (_add_subcommand (add_subparsers "geet") foobar).2 ["foobar"]
                  (registered_more _ foobar (registered_none "geet"))
                  foobar_registry_rules)).
Defined.

(** X14.  The tokens that resolve to a command run its handler: when
    the parser that a token resolves to has the handler [f] as its
    default [func] and no rule that writes to [func], [main] ends in the
    parsing of the arguments of the command, or prints the namespace of
    this parser and calls [f] with it. *)
Theorem dispatch_runs_the_handler (sp : SubParsers) (k : string) (rest : list string)
    (i : nat) (p : ArgumentParser) (f : nat) :
  startswith "-" k = false ->
  _name_parser_map sp !! k = Some i -> parsers sp !! i = Some p ->
  _defaults p !! "func" = Some (VFunc f) ->
  no_rule_for "func" p ->
  main sp (k :: rest)
  = match dispatched sp (parse_known_args no_subparsers p rest) with
    | Ok ns => ([PrintArgs ns; CallHandler f ns], Ok tt)
    | Raise e => ([], Raise e)
    end.
Proof.
  intros Hplain Hi Hp Hf Hrules. unfold main.
  rewrite (cli_parse_args_command sp k rest Hplain), Hi. cbn [mbind option_bind].
  rewrite Hp.
  destruct (parse_known_args no_subparsers p rest) as [[ns left_over]|e] eqn:Hsub;
    [|reflexivity].
  pose proof (parse_known_args_keeps_key p "func" Hrules ltac:(discriminate)
                rest ns left_over ltac:(discriminate) Hsub) as Hfunc.
  rewrite Hf in Hfunc.
  destruct left_over as [|v l]; cbn [dispatched].
  - now rewrite Hfunc.
  - destruct (forallb is_str (v :: l)); reflexivity.
Qed.

Lemma dispatch_runs_the_handler_witness :
  main (_add_subcommand (add_subparsers "geet") foobar).2 ["foobar"; "x"]
  = ([], Raise (SystemExit 2 (UnrecognizedArguments "geet" ["x"]))).
Proof.
  assert (Hp : parsers (_add_subcommand (add_subparsers "geet") foobar).2 !! 0
               = Some (nth 0 (parsers (_add_subcommand (add_subparsers "geet") foobar).2)
                           (new_parser "" None)))
    by (vm_compute; reflexivity).
  rewrite (dispatch_runs_the_handler
             (_add_subcommand (add_subparsers "geet") foobar).2 "foobar" ["x"] 0 _ 1
             eq_refl ltac:(vm_compute; reflexivity) Hp ltac:(vm_compute; reflexivity)
             (foobar_registry_rules 0 _ Hp)).
  vm_compute. reflexivity.
Defined.

End Handlers2.

Section EmptyAlias.
Import Py Textwrap Docstring Argparse Geet.

Lemma occurs_comma_all_space (s : string) : all_space s = true -> occurs "," s = false.
Proof.
  induction s as [|c s IH]; [reflexivity|]. cbn [all_space]. intros H.
  apply andb_prop in H as [Hc Hs]. rewrite occurs_char_cons, (isspace_not_comma c Hc).
  now apply IH.
Qed.

(** X5.  An [Aliases:] paragraph always gives at least one alias; when
    nothing but whitespace follows its header, the alias is the empty
    string: the empty string is then a key of the command, and an empty
    first argument runs the command as its name does. *)
Theorem blank_aliases_give_the_empty_alias (parent parent' : SubParsers) (func : Func)
    (docstr paragraph : string) (d : Declaration) :
  __doc__ func = Some docstr ->
  parse_docstring docstr = Some d ->
  aliases_paragraph docstr = Some paragraph ->
  _add_subcommand parent func = (Ok tt, parent') ->
  aliases d <> []
  /\ (all_space (slice_from 9 paragraph) = true ->
      aliases d = [EmptyString]
      /\ _name_parser_map parent' !! EmptyString = _name_parser_map parent' !! name d
      /\ is_Some (_name_parser_map parent' !! EmptyString)
      /\ (startswith "-" (name d) = false ->
          forall rest, main parent' (EmptyString :: rest) = main parent' (name d :: rest))).
Proof.
  intros Hdoc Hd Hpara Hreg.
  rewrite (parse_docstring_aliases _ _ _ Hd Hpara).
  unfold aliases_of_paragraph, split_aliases. split.
  - intros H. apply map_eq_nil in H. now apply split_aux_nonempty in H.
  - intros Hblank.
    assert (Hal : map strip (split "," (slice_from 9 paragraph)) = [EmptyString]).
    { rewrite (split_no_occurrence _ _ (occurs_comma_all_space _ Hblank)).
      cbn [map]. now rewrite (strip_all_space _ Hblank). }
    split; [exact Hal|].
    destruct (add_subcommand_keys _ _ _ _ _ Hdoc Hd Hreg) as (Hkeys & p & _ & Hps & _).
    rewrite (parse_docstring_aliases _ _ _ Hd Hpara) in Hkeys.
    unfold aliases_of_paragraph, split_aliases in Hkeys. rewrite Hal in Hkeys.
    assert (H0 : _name_parser_map parent' !! EmptyString = Some (length (parsers parent)))
      by (apply Hkeys; right; left).
    assert (H1 : _name_parser_map parent' !! name d = Some (length (parsers parent)))
      by (apply Hkeys; left).
    rewrite H0, H1. split; [reflexivity|]. split; [eauto|].
    intros Hplain rest.
    apply (same_parser_same_run parent' EmptyString (name d) rest
                                (length (parsers parent)) p eq_refl Hplain H0 H1).
    rewrite Hps. apply lookup_last.
Qed.

Lemma blank_aliases_give_the_empty_alias_witness :
  _name_parser_map (_add_subcommand (add_subparsers "geet")
                                    {| fn_id := 6; __doc__ := Some blank_aliases_doc |}).2
    !! EmptyString = Some 0.
Proof.
  assert (Hreg : _add_subcommand (add_subparsers "geet")
                                 {| fn_id := 6; __doc__ := Some blank_aliases_doc |}
                 = (Ok tt, (_add_subcommand (add_subparsers "geet")
                                            {| fn_id := 6;
                                               __doc__ := Some blank_aliases_doc |}).2))
    by (vm_compute; reflexivity).
  assert (Hd : parse_docstring blank_aliases_doc
               = Some {| name := "push"; shorthelp := "send it"; args_list := [];
                         aliases := [EmptyString]; longhelp := "" |})
    by (vm_compute; reflexivity).
  destruct (blank_aliases_give_the_empty_alias
              (add_subparsers "geet") _ {| fn_id := 6; __doc__ := Some blank_aliases_doc |}
              blank_aliases_doc "Aliases:" _ eq_refl Hd ltac:(vm_compute; reflexivity) Hreg)
    as (_ & H).
  destruct (H eq_refl) as (_ & Heq & _).
  rewrite Heq. vm_compute. reflexivity.
Defined.

End EmptyAlias.

Section IntFlag.
Import Py Textwrap Docstring Argparse Geet.





End IntFlag.

Section NumParser.
Import Py Textwrap Docstring Argparse Geet.
Variable parent : SubParsers.
Variable d : Declaration.
Variable func : Func.






Lemma num_parser_required_none :
  foldM (check_required []) (num_namespace VNone (fn_id func), [])
        (imap pair (_actions (num_parser parent d func)))
  = Ok (num_namespace VNone (fn_id func), []).
Proof. vm_compute. reflexivity. Qed.







End NumParser.

Section IntFlagRule.
Import Py Textwrap Docstring Argparse Geet.

Lemma main_of_parse (sp : SubParsers) (tok : string) (rest : list string) (i : nat)
    (p : ArgumentParser) :
  startswith "-" tok = false ->
  _name_parser_map sp !! tok = Some i -> parsers sp !! i = Some p ->
  main sp (tok :: rest)
  = match dispatched sp (parse_known_args no_subparsers p rest) with
    | Ok args =>
        match args !! "func" with
        | None =>
            ([PrintArgs args],
             Raise (AttributeError "'Namespace' object has no attribute 'func'"))
        | Some func =>
            if negb (truthy func) then ([PrintArgs args; PrintHelp], Ok tt)
            else
              match func with
              | VFunc f => ([PrintArgs args; CallHandler f args], Ok tt)
              | _ => ([PrintArgs args], Raise (TypeError "object is not callable"))
              end
        end
    | Raise e => ([], Raise e)
    end.
Proof.
  intros Hplain Hi Hp. unfold main.
  rewrite (cli_parse_args_command sp tok rest Hplain), Hi. cbn [mbind option_bind].
  now rewrite Hp.
Qed.



End IntFlagRule.

Section RepeatedFlag.
Import Py Textwrap Docstring Argparse Geet.





End RepeatedFlag.

Section TagParser.
Import Py Textwrap Docstring Argparse Geet.
Variable parent : SubParsers.
Variable d : Declaration.
Variable func : Func.











End TagParser.

Section RepeatedFlagRule.
Import Py Textwrap Docstring Argparse Geet.



End RepeatedFlagRule.

Section PlainArguments.
Import Py Textwrap Docstring Argparse Geet.

Lemma all_plain_no_option (l : list string) :
  max_option_string_index (map (fun _ => (SymA, @None option_tuple)) l) = None.
Proof. induction l as [|w l IH]; [reflexivity|]. cbn [map max_option_string_index snd]. now rewrite IH. Qed.

Lemma all_plain_no_dash (l : list string) :
  span [SymDash] ((map (fun _ => (SymA, @None option_tuple)) l).*1) = 0.
Proof. now destruct l. Qed.

(** one argument and the ['--'] that follow it *)
Lemma re_match_one_argument (syms : list sym) :
  re_match [Star [SymDash]; One [SymA]; Star [SymDash]; GroupEnd] (SymA :: syms) 0
  = Some [S (span [SymDash] syms)].
Proof.
  apply re_match_star_longest.
  change (re_match [Star [SymDash]; GroupEnd] syms 1 = Some [S (span [SymDash] syms)]).
  apply re_match_star_longest. reflexivity.
Qed.

End PlainArguments.

Section BranchParser.
Import Py Textwrap Docstring Argparse Geet.
Variable parent : SubParsers.
Variable d : Declaration.
Variable func : Func.

Lemma branch_parser_actions :
  _actions (branch_parser parent d func) = [help_action; branch_action].
Proof. reflexivity. Qed.

Lemma branch_parser_initial :
  initial_namespace (branch_parser parent d func)
  = <["branch" := VNone]> {[ "func" := VFunc (fn_id func) ]}.
Proof. vm_compute. reflexivity. Qed.

Lemma branch_parser_positionals : _get_positional_actions (branch_parser parent d func) = [1].
Proof. reflexivity. Qed.

Lemma branch_parser_required (ns : gmap string value) :
  foldM (check_required [1]) (ns, []) (imap pair (_actions (branch_parser parent d func)))
  = Ok (ns, []).
Proof. reflexivity. Qed.

Lemma branch_take_action
    (call : string -> list string -> gmap string value -> result (gmap string value))
    (v : string) (st : pstate) :
  String.eqb v "--" = false ->
  take_action call (branch_parser parent d func) 1 branch_action [v] st
  = Ok {| namespace := <["branch" := VStr v]> (namespace st);
          seen_actions := 1 :: seen_actions st;
          positionals := positionals st; extras := extras st |}.
Proof.
  intros Hv. unfold take_action, _get_values.
  cbn [nargs branch_action remove_dashdash]. rewrite Hv. reflexivity.
Qed.

(** the arguments [v :: more], all of them plain: the first one is the
    branch and the others are left over *)
Lemma branch_parser_parses_plain (v : string) (more : list string) (ns : gmap string value) :
  startswith "-" v = false ->
  Forall (fun w => startswith "-" w = false) more ->
  _parse_known_args no_subparsers (branch_parser parent d func) (v :: more) ns
  = Ok (<["branch" := VStr v]> ns, more).
Proof.
  intros Hv Hmore.
  destruct (plain_parse_optional (branch_parser parent d func) v Hv) as [Hdd Hopt].
  assert (Hcs : classify_args (branch_parser parent d func) (v :: more)
                = Ok ((SymA, None) :: map (fun _ => (SymA, None)) more)).
  { cbn [classify_args]. rewrite Hdd, Hopt. cbn [bind].
    assert (Hrest : classify_args (branch_parser parent d func) more
                    = Ok (map (fun _ => (SymA, None)) more)).
    { induction Hmore as [|w more Hw _ IH]; [reflexivity|].
      destruct (plain_parse_optional (branch_parser parent d func) w Hw) as [Hdd' Hopt'].
      cbn [classify_args]. rewrite Hdd', Hopt'. cbn [bind]. now rewrite IH. }
    now rewrite Hrest. }
  unfold _parse_known_args. rewrite Hcs. cbn [bind].
  cbn [max_option_string_index snd]. rewrite (all_plain_no_option more).
  cbn [bind fst snd].
  unfold consume_positionals. cbn [positionals]. rewrite branch_parser_positionals.
  cbn [mapM bind]. unfold action_at at 1. rewrite branch_parser_actions.
  cbn [lookup list_lookup bind mapM drop].
  assert (Hm : forall syms, _match_arguments_partial [branch_action] (SymA :: syms)
                            = [S (span [SymDash] syms)]).
  { intros syms. unfold _match_arguments_partial, match_partial_from. simpl length.
    cbn [take concat map _get_nargs_pattern nargs option_strings branch_action app].
    now rewrite re_match_one_argument. }
  change (((SymA, @None option_tuple) :: map (fun _ => (SymA, None)) more).*1)
    with (SymA :: (map (fun _ => (SymA, @None option_tuple)) more).*1).
  cbn [drop]. rewrite Hm, all_plain_no_dash.
  cbn [zip zip_with foldM take drop Nat.add].
  rewrite (branch_take_action no_subparsers v _ Hdd).
  cbn [bind fst snd namespace seen_actions extras positionals length drop Nat.add].
  rewrite <- branch_parser_actions, branch_parser_required. reflexivity.
Qed.

Lemma branch_parser_parses (v : string) (more : list string) :
  parse_known_args no_subparsers (branch_parser parent d func) []
  = Raise (SystemExit 2 (RequiredArguments (_prog_prefix parent +:+ " " +:+ name d) ["branch"]))
  /\ (startswith "-" v = false ->
      Forall (fun w => startswith "-" w = false) more ->
      parse_known_args no_subparsers (branch_parser parent d func) (v :: more)
      = Ok (branch_namespace v (fn_id func), VStr <$> more)).
Proof.
  split; [vm_compute; reflexivity|].
  intros Hv Hmore. unfold parse_known_args.
  rewrite branch_parser_initial, (branch_parser_parses_plain v more _ Hv Hmore).
  rewrite insert_insert_eq. reflexivity.
Qed.

End BranchParser.

Section PositionalRule.
Import Py Textwrap Docstring Argparse Geet.

Lemma all_str (l : list string) : forallb is_str (VStr <$> l) = true.
Proof. induction l as [|s l IH]; [reflexivity|]. exact IH. Qed.

(** X8.  A command whose argument block is the line
    ["branch: branch to integrate"] needs the argument: the command alone
    calls no handler and exits with the status 2, naming [branch] as
    required.  With one argument [v] that does not start with [-] the
    handler is called with [branch] at the string [v]; further such
    arguments are not recognised, and [main] exits with the status 2 on
    behalf of the top-level parser without calling the handler. *)
Theorem positional_rule (parent parent' : SubParsers) (func : Func)
    (docstr : string) (d : Declaration) :
  __doc__ func = Some docstr ->
  parse_docstring docstr = Some d ->
  declared_arg_lines d = ["branch: branch to integrate"] ->
  startswith "-" (name d) = false ->
  _add_subcommand parent func = (Ok tt, parent') ->
  main parent' [name d]
  = ([], Raise (SystemExit 2 (RequiredArguments (_prog_prefix parent +:+ " " +:+ name d)
                                                ["branch"])))
  /\ (forall v,
        startswith "-" v = false ->
        main parent' [name d; v]
        = ([PrintArgs (branch_namespace v (fn_id func));
            CallHandler (fn_id func) (branch_namespace v (fn_id func))], Ok tt))
  /\ (forall v w more,
        startswith "-" v = false ->
        Forall (fun w => startswith "-" w = false) (w :: more) ->
        main parent' (name d :: v :: w :: more)
        = ([], Raise (SystemExit 2 (UnrecognizedArguments (_prog_prefix parent')
                                                          (w :: more))))).
Proof.
  intros Hdoc Hd Hexact Hplain Hreg.
  destruct (add_subcommand_keys _ _ _ _ _ Hdoc Hd Hreg) as (Hkeys & p & Hlines & Hps & _).
  rewrite Hexact in Hlines.
  assert (Hp : parsers parent' !! length (parsers parent) = Some p)
    by (rewrite Hps; apply lookup_last).
  assert (Hp' : p = branch_parser parent d func) by (unfold branch_parser; now rewrite Hlines).
  assert (Hi : _name_parser_map parent' !! name d = Some (length (parsers parent)))
    by (apply Hkeys; left).
  split; [|split].
  - destruct (branch_parser_parses parent d func EmptyString []) as (H0 & _).
    now rewrite (main_of_parse parent' (name d) _ _ p Hplain Hi Hp), Hp', H0.
  - intros v Hv. destruct (branch_parser_parses parent d func v []) as (_ & H1).
    specialize (H1 Hv (Forall_nil _)). rewrite <- Hp' in H1.
    now apply (main_calls parent' (name d) _ (length (parsers parent)) p).
  - intros v w more Hv Hmore.
    destruct (branch_parser_parses parent d func v (w :: more)) as (_ & H2).
    rewrite (main_of_parse parent' (name d) _ _ p Hplain Hi Hp), Hp', (H2 Hv Hmore).
    unfold dispatched. change (VStr <$> w :: more) with (VStr w :: (VStr <$> more)).
    change (forallb is_str (VStr w :: (VStr <$> more))) with (forallb is_str (VStr <$> more)).
    rewrite all_str.
    change (strings_of (VStr w :: (VStr <$> more))) with (w :: strings_of (VStr <$> more)).
    now rewrite strings_of_str.
Qed.

Lemma positional_rule_witness :
  main branch_subparsers ["merge"]
  = ([], Raise (SystemExit 2 (RequiredArguments "geet merge" ["branch"])))
  /\ main branch_subparsers ["merge"; "topic"]
     = ([PrintArgs (branch_namespace "topic" 6);
         CallHandler 6 (branch_namespace "topic" 6)], Ok tt)
  /\ main branch_subparsers ["merge"; "topic"; "other"]
     = ([], Raise (SystemExit 2 (UnrecognizedArguments "geet" ["other"]))).
Proof.
  assert (Hreg : _add_subcommand (add_subparsers "geet")
                                 {| fn_id := 6; __doc__ := Some branch_doc |}
                 = (Ok tt, branch_subparsers)) by (vm_compute; reflexivity).
  assert (Hd : parse_docstring branch_doc
               = Some {| name := "merge"; shorthelp := "integrate a branch";
                         args_list := [nl +:+ "   branch: branch to integrate"];
                         aliases := []; longhelp := "" |}) by (vm_compute; reflexivity).
  destruct (positional_rule (add_subparsers "geet") branch_subparsers
                            {| fn_id := 6; __doc__ := Some branch_doc |} branch_doc _
                            eq_refl Hd eq_refl eq_refl Hreg)
    as (H0 & H1 & H2).
  split; [exact H0|]. split; [exact (H1 "topic" eq_refl)|].
  apply (H2 "topic" "other" []); [reflexivity|].
  constructor; [reflexivity | constructor].
Defined.

End PositionalRule.
